(** * PilotQA AI runtime: a shallow embedding of the command execution engine

    The development follows the TypeScript sources of the runtime client:
    [schemas.ts] (strict action schema and selector-kind inference),
    [normalizers.ts], [validators.ts], [mappers.ts] (the three plug-in
    chains), [llm.ts] (provider fallback), [navigation.ts] (page cache and
    navigation detector), [utils.ts] and [pilotqa-ai.ts] (vague-phrase
    stripping, locator resolution, the plan pipeline, the retry loop, the
    per-action retries, the consumption of the command and the demo-mode
    allowance).

    Part I holds the definitions, one module per source file; Part II holds
    the properties of the specification; Part III holds further properties
    of the helpers, the pipeline, the loop and the demo gate. *)

From Stdlib Require Import Strings.String Strings.Ascii.
From Stdlib Require Import Numbers.DecimalString Numbers.DecimalNat.
From Stdlib Require Import ZArith NArith QArith Bool Lia Arith List.
Import ListNotations.

Set Warnings "-register-all".
Local Open Scope nat_scope.
Local Open Scope bool_scope.
Local Open Scope list_scope.

(* ===================================================================== *)
(** * Part I: definitions                                                 *)
(* ===================================================================== *)

(** ** JavaScript strings

    A JavaScript string is a sequence of UTF-16 code units.  The sources only
    inspect ASCII delimiters, white space and letter case, so a code unit is
    kept as its number and literals are written with [js]. *)
Module Js.

Definition codeunit := N.
Definition jsstring := list codeunit.

Definition chr (a : ascii) : codeunit := N_of_ascii a.

Definition js (s : string) : jsstring := map chr (list_ascii_of_string s).

Fixpoint streq (a b : jsstring) : bool :=
  match a, b with
  | [], [] => true
  | x :: a', y :: b' => N.eqb x y && streq a' b'
  | _, _ => false
  end.

(** [arr.includes(x)] on an array of strings. *)
Definition includes (arr : list jsstring) (x : jsstring) : bool :=
  existsb (streq x) arr.

(** Truthiness of a string: the empty string is falsy. *)
Definition truthy (s : jsstring) : bool :=
  match s with [] => false | _ :: _ => true end.

(** Truthiness of an optional string property ([undefined] is falsy). *)
Definition truthyOpt (s : option jsstring) : bool :=
  match s with Some s' => truthy s' | None => false end.

(** ECMAScript WhiteSpace and LineTerminator code units: what [\s] matches
    and what [String.prototype.trim] removes. *)
Definition isSpace (c : codeunit) : bool :=
  ((9 <=? c) && (c <=? 13) || (c =? 32) || (c =? 160) || (c =? 5760)
   || (8192 <=? c) && (c <=? 8202) || (c =? 8232) || (c =? 8233)
   || (c =? 8239) || (c =? 8287) || (c =? 12288) || (c =? 65279))%N.

Fixpoint trimStart (s : jsstring) : jsstring :=
  match s with
  | [] => []
  | c :: t => if isSpace c then trimStart t else s
  end.

Fixpoint trimEnd (s : jsstring) : jsstring :=
  match s with
  | [] => []
  | c :: t =>
      match trimEnd t with
      | [] => if isSpace c then [] else [c]
      | t' => c :: t'
      end
  end.

Definition trim (s : jsstring) : jsstring := trimEnd (trimStart s).

(** [/^p/.test(s)] for a literal [p]. *)
Fixpoint startsWith (p s : jsstring) : bool :=
  match p, s with
  | [], _ => true
  | x :: p', y :: s' => N.eqb x y && startsWith p' s'
  | _ :: _, [] => false
  end.

(** [s] begins with [p], stated on the text itself. *)
Definition beginsWith (p s : jsstring) : Prop := exists rest, s = p ++ rest.

(** The first unit of [s] is white space. *)
Definition headSpace (s : jsstring) : bool :=
  match s with c :: _ => isSpace c | [] => false end.

(** [s.replace(/\s+/g, EMPTY)]: every white-space run is deleted. *)
Definition removeSpaces (s : jsstring) : jsstring :=
  filter (fun c => negb (isSpace c)) s.

(** [String.prototype.toLowerCase] restricted to what it does on ASCII code
    units.  The full Unicode mapping is a parameter of the definitions that
    need it; this instance is used to run them on ASCII inputs. *)
Definition asciiLowerUnit (c : codeunit) : codeunit :=
  if ((65 <=? c) && (c <=? 90))%N then (c + 32)%N else c.

Definition asciiLower (s : jsstring) : jsstring := map asciiLowerUnit s.

(** Template-literal rendering of a non-negative integer. *)
Definition numberToString (n : nat) : jsstring :=
  js (NilZero.string_of_uint (Nat.to_uint n)).


(** [estimateTokens] of utils.ts: a quarter of the length, rounded up. *)
Definition estimateTokens (text : jsstring) : nat :=
  (length text + 3) / 4.

(** [clamp] of utils.ts: [v ?? d], the default only replaces an absent
    value. *)
Definition clamp {T : Type} (v : option T) (d : T) : T :=
  match v with Some x => x | None => d end.

(** A thrown value, as far as the sources look at it: its [message]
    property, [None] when the property is [undefined]. *)
Record JsError := mkError { message : option jsstring }.

(** A string that may be [undefined], inside a template literal. *)
Definition renderOptional (m : option jsstring) : jsstring :=
  match m with Some s => s | None => js "undefined" end.

(** [new Error(msg)] *)
Definition newError (msg : jsstring) : JsError := mkError (Some msg).

End Js.

Import Js.

(** ** JSON values as [JSON.parse] returns them *)
Module Json.

Inductive json : Type :=
| JNull
| JBool (b : bool)
| JNumber (q : Q)
| JString (s : jsstring)
| JArray (items : list json)
| JObject (fields : list (jsstring * json)).

(** Own-property lookup; the list holds the properties of the object. *)
Fixpoint getField (k : jsstring) (fields : list (jsstring * json)) : option json :=
  match fields with
  | [] => None
  | (k', v) :: rest => if streq k k' then Some v else getField k rest
  end.

(** [Number.isInteger] on a rational. *)
Definition isInteger (q : Q) : bool :=
  (Z.eqb (Qnum q mod Z.pos (Qden q)) 0)%Z.

Definition toInteger (q : Q) : Z := (Qnum q / Z.pos (Qden q))%Z.

End Json.

Import Json.

(** ** types.ts and schemas.ts *)
Module Schema.

Inductive SelectorType := css | xpath | text | none.

(** The value held by the [action] property.  The schema only lets strings
    in; the alias table of the first normalizer is an object literal, so a
    lookup of a key such as [constructor] finds the member inherited from
    [Object.prototype] ([Inherited]) and a lookup of [__proto__] finds
    [Object.prototype] itself; the normalizer stores what it finds. *)
Inductive ActionValue :=
| Name (s : jsstring)
| Inherited (member : jsstring)
| ObjectPrototype.

Definition isAction (v : ActionValue) (name : jsstring) : bool :=
  match v with Name s => streq s name | _ => false end.

(** [RawLLMAction]; [ActionBase], the type inferred from the schema, has the
    same properties. *)
Record RawLLMAction := mkRaw {
  action : ActionValue;
  selector : option jsstring;
  selectorType : option SelectorType;
  timeout : option Z;
  duration : option Z;
  text_ : option jsstring;
  expectedContent : option jsstring;
  reason : option jsstring;
  url : option jsstring;
  pattern : option jsstring
}.

(** [PilotQAAIAction extends RawLLMAction] with [normalizedAction]. *)
Record PilotQAAIAction := mkAction {
  raw : RawLLMAction;
  normalizedAction : ActionValue
}.

Definition with_action (a : RawLLMAction) (v : ActionValue) : RawLLMAction :=
  mkRaw v (selector a) (selectorType a) (timeout a) (duration a) (text_ a)
        (expectedContent a) (reason a) (url a) (pattern a).

Definition with_selectorType (a : RawLLMAction) (t : SelectorType) : RawLLMAction :=
  mkRaw (action a) (selector a) (Some t) (timeout a) (duration a) (text_ a)
        (expectedContent a) (reason a) (url a) (pattern a).

Definition with_duration (a : RawLLMAction) (d : Z) : RawLLMAction :=
  mkRaw (action a) (selector a) (selectorType a) (timeout a) (Some d) (text_ a)
        (expectedContent a) (reason a) (url a) (pattern a).

Definition with_text (a : RawLLMAction) (t : jsstring) : RawLLMAction :=
  mkRaw (action a) (selector a) (selectorType a) (timeout a) (duration a) (Some t)
        (expectedContent a) (reason a) (url a) (pattern a).

(** [out.selector || EMPTY]: an absent selector reads as the empty string. *)
Definition selectorText (sel : option jsstring) : jsstring :=
  match sel with Some s => s | None => [] end.

(** The inference of [coerceSelectorType], on [s], the selector or the
    empty string when it is absent:
    [/^(?:xpath=|\/\/)/], then [/^(?:\.|#|\[|:)/], then [!s]. *)
Definition inferSelectorType (sel : option jsstring) : SelectorType :=
  let s := selectorText sel in
  if startsWith (js "xpath=") s || startsWith (js "//") s then xpath
  else if startsWith (js ".") s || startsWith (js "#") s
          || startsWith (js "[") s || startsWith (js ":") s then css
  else if negb (truthy s) then none
  else text.

Definition coerceSelectorType (a : RawLLMAction) : RawLLMAction :=
  match selectorType a with
  | Some _ => a
  | None => with_selectorType a (inferSelectorType (selector a))
  end.

(** *** The strict object schema [ActionSchemaBase] *)

Definition knownKeys : list jsstring :=
  [js "action"; js "selector"; js "selectorType"; js "timeout"; js "duration";
   js "text"; js "expectedContent"; js "reason"; js "url"; js "pattern"].

(** A field parser answers [None] when the value is rejected, [Some None]
    when the optional property is absent and [Some (Some v)] otherwise. *)
Definition optionalField {A : Type} (p : json -> option A)
  (k : jsstring) (fields : list (jsstring * json)) : option (option A) :=
  match getField k fields with
  | None => Some None
  | Some v => match p v with Some x => Some (Some x) | None => None end
  end.

(** [z.string()] *)
Definition zString (v : json) : option jsstring :=
  match v with JString s => Some s | _ => None end.

(** [z.string().min(1)] *)
Definition zStringMin1 (v : json) : option jsstring :=
  match v with JString s => if truthy s then Some s else None | _ => None end.

(** [z.string().trim().min(1)]: the value is trimmed, then measured. *)
Definition zStringTrimMin1 (v : json) : option jsstring :=
  match v with
  | JString s => if truthy (trim s) then Some (trim s) else None
  | _ => None
  end.

(** [z.enum(["css", "xpath", "text", "none"])] *)
Definition zSelectorType (v : json) : option SelectorType :=
  match v with
  | JString s =>
      if streq s (js "css") then Some css
      else if streq s (js "xpath") then Some xpath
      else if streq s (js "text") then Some text
      else if streq s (js "none") then Some none
      else None
  | _ => None
  end.

(** [z.number().int().positive()] *)
Definition zPositiveInt (v : json) : option Z :=
  match v with
  | JNumber q => if isInteger q && (0 <? toInteger q)%Z then Some (toInteger q) else None
  | _ => None
  end.

Section WithUrlCheck.

(** The URL parser behind [z.string().url()]. *)
Variable isUrl : jsstring -> bool.

Definition zUrl (v : json) : option jsstring :=
  match v with JString s => if isUrl s then Some s else None | _ => None end.

Definition bindOpt {A B : Type} (x : option A) (f : A -> option B) : option B :=
  match x with Some a => f a | None => None end.

(** [ActionSchemaBase.strict()] on one array element. *)
Definition parseActionBase (v : json) : option RawLLMAction :=
  match v with
  | JObject fields =>
      if forallb (fun kv => includes knownKeys (fst kv)) fields then
        bindOpt (bindOpt (getField (js "action") fields) zStringMin1) (fun act =>
        bindOpt (optionalField zStringTrimMin1 (js "selector") fields) (fun sel =>
        bindOpt (optionalField zSelectorType (js "selectorType") fields) (fun st =>
        bindOpt (optionalField zPositiveInt (js "timeout") fields) (fun tmo =>
        bindOpt (optionalField zPositiveInt (js "duration") fields) (fun dur =>
        bindOpt (optionalField zString (js "text") fields) (fun txt =>
        bindOpt (optionalField zString (js "expectedContent") fields) (fun exc =>
        bindOpt (optionalField zString (js "reason") fields) (fun rsn =>
        bindOpt (optionalField zUrl (js "url") fields) (fun u =>
        bindOpt (optionalField zString (js "pattern") fields) (fun pat =>
        Some (mkRaw (Name act) sel st tmo dur txt exc rsn u pat)))))))))))
      else None
  | _ => None
  end.

(** [ActionSchema = ActionSchemaBase.transform(coerceSelectorType)] *)
Definition parseAction (v : json) : option RawLLMAction :=
  option_map coerceSelectorType (parseActionBase v).

Fixpoint parseAll (items : list json) : option (list RawLLMAction) :=
  match items with
  | [] => Some []
  | v :: rest =>
      match parseAction v, parseAll rest with
      | Some a, Some l => Some (a :: l)
      | _, _ => None
      end
  end.

(** [ActionsSchema.safeParse(arr)]: [None] stands for [success: false]. *)
Definition parseActions (arr : json) : option (list RawLLMAction) :=
  match arr with
  | JArray items => parseAll items
  | _ => None
  end.

End WithUrlCheck.

End Schema.

Import Schema.

(** ** normalizers.ts, validators.ts, mappers.ts and the plan pipeline of
    [PilotQA_AI] *)
Module Pipeline.

(** What the pipeline throws. *)
Inductive PipelineError :=
| InvalidActionsArray
    (* LLM output is not a valid JSON actions array: ... *)
| NotAFunction
    (* TypeError: [raw.action.toLowerCase] on a value that is not a string *)
| MissingSelector (act : ActionValue)
    (* Action ACT missing selector, ACT the rendered action value *)
| TypeMissingText (sel : jsstring)
    (* Action type missing text for selector SEL, SEL the selector or empty *)
| NoActionsParsed.
    (* No actions parsed from LLM response. *)

Inductive result (A : Type) :=
| Ok (a : A)
| Throw (e : PipelineError).

Arguments Ok {A} a.
Arguments Throw {A} e.

Definition bind {A B : Type} (x : result A) (f : A -> result B) : result B :=
  match x with Ok a => f a | Throw e => Throw e end.

Notation "x <- c ;; k" := (bind c (fun x => k))
  (at level 61, c at next level, right associativity).

Definition ActionNormalizer := RawLLMAction -> result (option RawLLMAction).
Definition ActionValidator := RawLLMAction -> result RawLLMAction.
Definition ActionMapper := RawLLMAction -> option PilotQAAIAction.

(** The action kinds that carry no selector (the same array literal in
    normalizers.ts and validators.ts). *)
Definition noSelector : list jsstring :=
  [js "wait"; js "reload"; js "clearCache"; js "waitForNavigation"; js "waitForURL"].

(** [noSelector.includes(act.action)]: strict equality, so only a string can
    be found. *)
Definition isNoSelector (v : ActionValue) : bool :=
  match v with Name s => includes noSelector s | _ => false end.

(** The alias table of the first normalizer. *)
Definition aliasMap : list (jsstring * jsstring) :=
  [(js "press", js "click"); (js "tap", js "click"); (js "submit", js "click");
   (js "checkvisibility", js "assertVisible");
   (js "verifyvisible", js "assertVisible");
   (js "verifyinvisible", js "assertNotVisible");
   (js "hidecheck", js "assertNotVisible");
   (js "reloadpage", js "reload"); (js "refresh", js "reload");
   (js "clearcache", js "clearCache");
   (js "waitvisible", js "waitForVisible");
   (js "waithidden", js "waitForHidden")].

(** The member names every object literal inherits; each holds a function
    or an object, hence a truthy value. *)
Definition objectPrototypeKeys : list jsstring :=
  [js "constructor"; js "__proto__"; js "hasOwnProperty"; js "isPrototypeOf";
   js "propertyIsEnumerable"; js "toLocaleString"; js "toString"; js "valueOf";
   js "__defineGetter__"; js "__defineSetter__"; js "__lookupGetter__";
   js "__lookupSetter__"].

(** [map[norm]], when truthy. *)
Definition lookupAlias (norm : jsstring) : option ActionValue :=
  match find (fun kv => streq norm (fst kv)) aliasMap with
  | Some kv => Some (Name (snd kv))
  | None =>
      if includes objectPrototypeKeys norm then
        Some (if streq norm (js "__proto__") then ObjectPrototype else Inherited norm)
      else None
  end.

Section WithHost.

Variable toLowerCase : jsstring -> jsstring.
Variable isUrl : jsstring -> bool.

(** First normalizer: action-name aliasing. *)
Definition normalizeAlias : ActionNormalizer := fun raw =>
  match action raw with
  | Name s =>
      let norm := removeSpaces (toLowerCase s) in
      match (if truthy norm then lookupAlias norm else None) with
      | Some v => Ok (Some (with_action raw v))
      | None => Ok (Some raw)
      end
  | _ => Throw NotAFunction
  end.

(** Second normalizer: default selector kind. *)
Definition normalizeSelectorType : ActionNormalizer := fun raw =>
  match selectorType raw with
  | Some _ => Ok (Some raw)
  | None =>
      Ok (Some (with_selectorType raw
                  (if negb (truthyOpt (selector raw)) || isNoSelector (action raw)
                   then none else text)))
  end.

Definition actionNormalizers : list ActionNormalizer :=
  [normalizeAlias; normalizeSelectorType].

(** [!act.text || act.text.trim() === EMPTY] *)
Definition blankText (t : option jsstring) : bool :=
  match t with
  | Some s => negb (truthy s) || negb (truthy (trim s))
  | None => true
  end.

Definition validateSelector : ActionValidator := fun act =>
  if negb (isNoSelector (action act)) && negb (truthyOpt (selector act))
  then Throw (MissingSelector (action act))
  else Ok act.

Definition validateWaitDuration : ActionValidator := fun act =>
  if isAction (action act) (js "wait")
     && match duration act with Some d => (d <=? 0)%Z | None => true end
  then Ok (with_duration act 1%Z)
  else Ok act.

Definition validateTypeText : ActionValidator := fun act =>
  if isAction (action act) (js "type") && blankText (text_ act)
  then Throw (TypeMissingText (match selector act with
                               | Some s => if truthy s then s else []
                               | None => []
                               end))
  else Ok act.

Definition actionValidators : list ActionValidator :=
  [validateSelector; validateWaitDuration; validateTypeText].

Definition baseMapper : ActionMapper := fun r =>
  Some (mkAction r (action r)).

Definition actionMappers : list ActionMapper := [baseMapper].

(** The three inner loops of the plan pipeline, over any registry. *)

(** [for (const n of actionNormalizers) { if (!cur) break; cur = n(cur); }] *)
Fixpoint runNormalizers (ns : list ActionNormalizer) (cur : option RawLLMAction)
  : result (option RawLLMAction) :=
  match ns with
  | [] => Ok cur
  | n :: rest =>
      match cur with
      | None => Ok None
      | Some c => cur' <- n c ;; runNormalizers rest cur'
      end
  end.

(** [for (const v of actionValidators) v(cur);] on the shared object. *)
Fixpoint runValidators (vs : list ActionValidator) (cur : RawLLMAction)
  : result RawLLMAction :=
  match vs with
  | [] => Ok cur
  | v :: rest => cur' <- v cur ;; runValidators rest cur'
  end.

(** First mapper that answers a non-null action wins. *)
Fixpoint runMappers (ms : list ActionMapper) (cur : RawLLMAction)
  : option PilotQAAIAction :=
  match ms with
  | [] => None
  | m :: rest =>
      match m cur with
      | Some c => Some c
      | None => runMappers rest cur
      end
  end.

Section WithRegistry.

Variable normalizers : list ActionNormalizer.
Variable validators : list ActionValidator.
Variable mappers : list ActionMapper.

(** One turn of [for (const raw of parsedLLMActions)]: [None] when the action
    adds nothing to [finalActions]. *)
Definition planOne (r : RawLLMAction) : result (option PilotQAAIAction) :=
  cur <- runNormalizers normalizers (Some r) ;;
  match cur with
  | None => Ok None
  | Some c => c' <- runValidators validators c ;; Ok (runMappers mappers c')
  end.

Fixpoint planAll (l : list RawLLMAction) : result (list PilotQAAIAction) :=
  match l with
  | [] => Ok []
  | r :: rest =>
      m <- planOne r ;;
      final <- planAll rest ;;
      Ok (match m with Some a => a :: final | None => final end)
  end.

End WithRegistry.

(** The literal texts typed by the pre-parser, keyed by the lower-cased
    field name ([typedByParser], a [Map]). *)
Variable typedByParser : jsstring -> option jsstring.

Definition typedHas (k : jsstring) : bool :=
  match typedByParser k with Some _ => true | None => false end.

(** Inject pre-parser text if missing. *)
Definition injectText (a : RawLLMAction) : RawLLMAction :=
  if isAction (action a) (js "type") && blankText (text_ a) && truthyOpt (selector a)
  then match selector a with
       | Some sel =>
           match typedByParser (toLowerCase sel) with
           | Some t => with_text a t
           | None => a
           end
       | None => a
       end
  else a.

(** Remove duplicates of type already executed by the parser. *)
Definition notTypedByParser (a : RawLLMAction) : bool :=
  negb (isAction (action a) (js "type")
        && match selector a with
           | Some sel => truthy sel && typedHas (toLowerCase sel)
           | None => false
           end).

(** Discard type without text. *)
Definition typeHasText (a : RawLLMAction) : bool :=
  negb (isAction (action a) (js "type")) || truthyOpt (text_ a).

(** From the parsed model answer to [finalActions]. *)
Definition parseAndPlan (arr : json) : result (list PilotQAAIAction) :=
  match parseActions isUrl arr with
  | None => Throw InvalidActionsArray
  | Some parsed =>
      let injected := map injectText parsed in
      let fresh := filter notTypedByParser injected in
      let typed := filter typeHasText fresh in
      final <- planAll actionNormalizers actionValidators actionMappers typed ;;
      match final with
      | [] => Throw NoActionsParsed
      | _ :: _ => Ok final
      end
  end.

End WithHost.

(** Instances of the host parameters, used to run the pipeline on ASCII
    examples: a URL check that accepts the two web schemes, and a pre-parser
    table with no entry. *)
Definition webUrl (s : jsstring) : bool :=
  startsWith (js "http://") s || startsWith (js "https://") s.

Definition nothingTyped (k : jsstring) : option jsstring := None.

(** The [wait] case of the dispatch switch: the argument of
    [page.waitForTimeout], in milliseconds. *)
Definition waitTimeoutMs (a : PilotQAAIAction) : Z :=
  (clamp (duration (raw a)) 1 * 1000)%Z.

End Pipeline.

Import Pipeline.

(** ** Sample model answers *)
Module Examples.

Definition str (s : string) : json := JString (js s).

(** A click whose selector kind is spelled out as none:
    [{action: click, selector: #login, selectorType: none}]. *)
Definition clickExplicitNone : json :=
  JArray [JObject [(js "action", str "click"); (js "selector", str "#login");
                   (js "selectorType", str "none")]].

(** [{action: click, selector: Login}, {action: wait, duration: 2}] *)
Definition clickThenWait : json :=
  JArray [JObject [(js "action", str "click"); (js "selector", str "Login")];
          JObject [(js "action", str "wait"); (js "duration", JNumber 2)]].

(** [{action: type, selector: Email, text: alice}] *)
Definition typeEmail : json :=
  JArray [JObject [(js "action", str "type"); (js "selector", str "Email");
                   (js "text", str "alice")]].

(** A wait action as the validators may receive it, with a duration of 0. *)
Definition waitZero : RawLLMAction :=
  mkRaw (Name (js "wait")) None (Some none) None (Some 0%Z) None None None None None.

End Examples.

(** ** llm.ts *)
Module Llm.

Inductive LLMProvider := gemini | openai | anthropic.

Record LLMConfig := mkConfig { provider : LLMProvider; model : jsstring }.

Record LLMResult := mkResult {
  response : jsstring;
  modelName : jsstring;
  durationMs : Z;
  inputTokens : nat;
  outputTokens : nat
}.

(** What one [instance.invoke(messages)] does: it answers after some
    milliseconds, or it throws. *)
Inductive InvokeOutcome :=
| Answered (content : jsstring) (ms : Z)
| Failed (e : JsError).

(** The console lines of the loop, in the order they are written. *)
Inductive LogLine :=
| Skipping (p : LLMProvider)
| Trying (m : jsstring)
| SuccessfullyUsed (m : jsstring)
| ErrorWith (m : jsstring) (msg : option jsstring).

Section WithProviders.

(** [hasKeyFor]: is the provider's API key set in the environment. *)
Variable hasKeyFor : LLMProvider -> bool.
Variable invoke : LLMConfig -> InvokeOutcome.
(** The text of the first message (empty when there is none). *)
Variable content : jsstring.

Definition availableLLMs : list LLMConfig :=
  (if hasKeyFor gemini
   then [mkConfig gemini (js "gemini-2.5-flash");
         mkConfig gemini (js "gemini-2.0-flash");
         mkConfig gemini (js "gemini-1.5-flash")]
   else [])
  ++ (if hasKeyFor openai then [mkConfig openai (js "gpt-4o-mini")] else [])
  ++ (if hasKeyFor anthropic
      then [mkConfig anthropic (js "claude-3-haiku-20240307")] else []).

(** The [for (const cfg of models)] loop with its [lastError]; the result is
    the returned record or the thrown error, with the console lines. *)
Fixpoint tryModels (models : list LLMConfig) (lastError : option JsError)
  : list LogLine * (LLMResult + JsError) :=
  match models with
  | [] =>
      ([], inr (newError (js "All LLM models failed. Last error: "
                            ++ renderOptional (match lastError with
                                            | Some e => message e
                                            | None => None
                                            end))))
  | cfg :: rest =>
      if negb (hasKeyFor (provider cfg)) then
        let (log, r) := tryModels rest lastError in
        (Skipping (provider cfg) :: log, r)
      else
        match invoke cfg with
        | Answered rawText ms =>
            ([Trying (model cfg); SuccessfullyUsed (model cfg)],
             inl (mkResult rawText (model cfg) ms
                           (estimateTokens content) (estimateTokens rawText)))
        | Failed e =>
            let (log, r) := tryModels rest (Some e) in
            (Trying (model cfg) :: ErrorWith (model cfg) (message e) :: log, r)
        end
  end.

Definition invokeLLMWithFallback : list LogLine * (LLMResult + JsError) :=
  tryModels availableLLMs None.

(** The candidates whose provider has a key, in list order. *)
Definition usable (models : list LLMConfig) : list LLMConfig :=
  filter (fun c => hasKeyFor (provider c)) models.

(** A candidate the loop passes without returning: it is skipped for want
    of a key, or its call throws. *)
Definition passedOver (c : LLMConfig) : Prop :=
  hasKeyFor (provider c) = false \/ exists e, invoke c = Failed e.

End WithProviders.

(** An environment with every key set, and providers of which the first two
    models throw and every other model answers an empty plan. *)
Definition everyKey (p : LLMProvider) : bool := true.

Definition thirdAnswers (c : LLMConfig) : InvokeOutcome :=
  if streq (model c) (js "gemini-2.5-flash") then Failed (newError (js "503"))
  else if streq (model c) (js "gemini-2.0-flash") then Failed (newError (js "429"))
  else Answered (js "[]") 12.

(** The models the loop called, read off the console lines. *)
Definition attempted (log : list LogLine) : list jsstring :=
  flat_map (fun l => match l with Trying m => [m] | _ => [] end) log.

Definition allFailed : jsstring := js "All LLM models failed. Last error: ".

End Llm.

(** ** cache.ts and navigation.ts *)
Module Navigation.

Record Cache := mkCache {
  htmlContent : option jsstring;
  htmlTimestamp : Z;
  llmResponse : option jsstring;
  llmCommand : jsstring;
  currentUrl : jsstring
}.

Definition CACHE_DURATION : Z := 5000.

Definition initialCache : Cache := mkCache None 0 None [] [].

(** The five assignments made on navigation, cache-clear and reload. *)
Definition invalidate (pageUrl : jsstring) : Cache :=
  mkCache None 0 None [] pageUrl.

Record NavState := mkNav { currentPageUrl : jsstring; navigationCount : nat }.

(** What the two functions do to the page and the console. *)
Inductive Effect :=
| WaitForTimeout (ms : Z)
| WaitForLoadState (timeoutMs : Z)
| LogNavigation (count : nat) (from to : jsstring)
| LogCachesInvalidated
| LogUsingCachedHTML
| LogOptimized (tokens : nat).

Record Detection := mkDetection {
  changed : bool;
  navState : NavState;
  navCache : Cache;
  navEffects : list Effect
}.

(** [detectNavigationChange]; [loaded] tells whether the wait for
    [domcontentloaded] succeeds within its 8000 ms. *)
Definition detectNavigationChange (pageUrl : jsstring) (loaded : bool)
  (state : NavState) (useCache : bool) (c : Cache) : Detection :=
  if negb (streq pageUrl (currentPageUrl state)) then
    let n := S (navigationCount state) in
    mkDetection true (mkNav pageUrl n)
      (if useCache then invalidate pageUrl else c)
      ([LogNavigation n (currentPageUrl state) pageUrl]
       ++ (if useCache then [LogCachesInvalidated] else [])
       ++ (if loaded
           then [WaitForLoadState 8000; WaitForTimeout 1000]
           else [WaitForLoadState 8000; WaitForTimeout 1500]))
  else mkDetection false state c [].

Definition truncationMarker : jsstring :=
  10%N :: js "<!-- [HTML truncated] -->".

(** The hard ceiling applied to the sanitized markup. *)
Definition maxHTML : N := 25000.

Definition truncateHTML (cleaned : jsstring) : jsstring :=
  if (maxHTML <? N.of_nat (length cleaned))%N
  then firstn (N.to_nat maxHTML) cleaned ++ truncationMarker
  else cleaned.

Record Summary := mkSummary {
  html : jsstring;
  sumCache : Cache;
  sumEffects : list Effect
}.

(** What the function gets out of the live page when it does not answer
    from the cache: the sanitized markup, and the URL the page shows once
    the markup is read. *)
Record PageRead := mkRead { cleaned : jsstring; urlAfter : jsstring }.

(** The cache test at the head of [getOptimizedHTML]. *)
Definition cacheUsable (now : Z) (pageUrl : jsstring) (useCache : bool) (c : Cache)
  : bool :=
  let urlChanged := negb (streq (currentUrl c) pageUrl) in
  useCache
  && negb urlChanged
  && truthyOpt (htmlContent c)
  && (now - htmlTimestamp c <? CACHE_DURATION)%Z.

(** [getOptimizedHTML]; [now] is [Date.now()] and [pageUrl] the URL of the
    page, both taken on entry. *)
Definition getOptimizedHTML (now : Z) (pageUrl : jsstring) (read : PageRead)
  (useCache : bool) (c : Cache) : Summary :=
  if cacheUsable now pageUrl useCache c then
    mkSummary (match htmlContent c with Some h => h | None => [] end)
              c [LogUsingCachedHTML]
  else
    let finalHTML := truncateHTML (cleaned read) in
    mkSummary finalHTML
      (if useCache
       then mkCache (Some finalHTML) now (llmResponse c) (llmCommand c) (urlAfter read)
       else c)
      [WaitForTimeout 800; LogOptimized (estimateTokens finalHTML)].

(** What a call with caching enabled answers when it reads the page
    again: the truncated markup, stored with the time and the URL read. *)
Definition freshSummary (now : Z) (read : PageRead) (c : Cache) : Summary :=
  mkSummary (truncateHTML (cleaned read))
    (mkCache (Some (truncateHTML (cleaned read))) now (llmResponse c) (llmCommand c)
             (urlAfter read))
    [WaitForTimeout 800; LogOptimized (estimateTokens (truncateHTML (cleaned read)))].

End Navigation.

(** ** Text normalization: [stripVague] *)
Module Text.

(** The regular expressions of [VAGUE_ENDING_PATTERNS] use literals,
    concatenation, alternation and optional groups only. *)
Inductive rx :=
| Lit (s : jsstring)
| Seq (a b : rx)
| Alt (a b : rx)
| Opt (a : rx).

(** Canonicalization of the [i] flag (no [u] flag) on the code units the
    patterns mention: ASCII letters compare by their upper-case form and no
    code unit above 127 canonicalizes to an ASCII one. *)
Definition canonicalize (c : codeunit) : codeunit :=
  if ((97 <=? c) && (c <=? 122))%N then (c - 32)%N else c.

Fixpoint stripPrefixCI (p s : jsstring) : option jsstring :=
  match p, s with
  | [], _ => Some s
  | x :: p', y :: s' =>
      if N.eqb (canonicalize x) (canonicalize y) then stripPrefixCI p' s' else None
  | _ :: _, [] => None
  end.

(** Every way [r] can match a prefix of [s]: the list of what is left. *)
Fixpoint matchPrefix (r : rx) (s : jsstring) : list jsstring :=
  match r with
  | Lit p => match stripPrefixCI p s with Some rest => [rest] | None => [] end
  | Seq a b => flat_map (matchPrefix b) (matchPrefix a s)
  | Alt a b => matchPrefix a s ++ matchPrefix b s
  | Opt a => matchPrefix a s ++ [s]
  end.

(** The class appended to every pattern: white space, both quote marks
    and the marks [. ! , ; :]. *)
Definition isTail (c : codeunit) : bool :=
  isSpace c || existsb (N.eqb c) [34; 39; 46; 33; 44; 59; 58]%N.

(** [s] as a whole matches [r] followed by units of the tail class. *)
Definition matchesToEnd (r : rx) (s : jsstring) : bool :=
  existsb (forallb isTail) (matchPrefix r s).

(** The [replace] of the loop body: the pattern, the tail class starred and
    [$], case-insensitive, replaced by nothing.  The expression is anchored
    at the end of the input, so the first match starts at the leftmost
    position whose suffix matches as a whole, and the replaced span runs to
    the end. *)
Fixpoint cutAtMatch (r : rx) (s : jsstring) : jsstring :=
  if matchesToEnd r s then []
  else match s with
       | [] => []
       | c :: t => c :: cutAtMatch r t
       end.

Definition lit (s : string) : rx := Lit (js s).
Definition opt (s : string) : rx := Opt (Lit (js s)).

Fixpoint seq (l : list rx) : rx :=
  match l with
  | [] => Lit []
  | [r] => r
  | r :: rest => Seq r (seq rest)
  end.

Definition VAGUE_ENDING_PATTERNS : list rx :=
  [ (* /check if (the )?page (is )?(being )?displayed( correctly)?/i *)
    seq [lit "check if "; opt "the "; lit "page "; opt "is "; opt "being ";
         lit "displayed"; opt " correctly"];
    (* /verify (that )?(the )?page (is )?(being )?displayed( correctly)?/i *)
    seq [lit "verify "; opt "that "; opt "the "; lit "page "; opt "is ";
         opt "being "; lit "displayed"; opt " correctly"];
    (* /ensure (the )?page (is )?displayed( correctly)?/i *)
    seq [lit "ensure "; opt "the "; lit "page "; opt "is "; lit "displayed";
         opt " correctly"];
    (* /verify (that )?everything looks (good|correct)/i *)
    seq [lit "verify "; opt "that "; lit "everything looks ";
         Alt (lit "good") (lit "correct")];
    (* /check (the )?page( is (ok|correct))?/i *)
    seq [lit "check "; opt "the "; lit "page";
         Opt (Seq (lit " is ") (Alt (lit "ok") (lit "correct")))];
    (* /verify page/i *)
    lit "verify page";
    (* /confirm (you|we) are on (the )?(right|correct) page/i *)
    seq [lit "confirm "; Alt (lit "you") (lit "we"); lit " are on "; opt "the ";
         Alt (lit "right") (lit "correct"); lit " page"];
    (* /verify product (page|details) (is )?displayed/i *)
    seq [lit "verify product "; Alt (lit "page") (lit "details"); lit " ";
         opt "is "; lit "displayed"] ].

Definition isQuote (c : codeunit) : bool := (c =? 34)%N || (c =? 39)%N.

(** Every run of two or more quote marks (double or single, mixed) becomes
    one double quote; [inRun] tells that the unit before the current one
    belongs to a run that has already been replaced. *)
Fixpoint collapseFrom (inRun : bool) (s : jsstring) : jsstring :=
  match s with
  | [] => []
  | c :: t =>
      if isQuote c then
        if inRun then collapseFrom true t
        else match t with
             | d :: _ =>
                 if isQuote d then 34%N :: collapseFrom true t
                 else c :: collapseFrom false t
             | [] => [c]
             end
      else c :: collapseFrom false t
  end.

Definition collapseQuotes (s : jsstring) : jsstring := collapseFrom false s.

(** The class of the last replacement: white space, both quote marks and
    the marks [. , ; :]. *)
Definition isStray (c : codeunit) : bool :=
  isSpace c || existsb (N.eqb c) [34; 39; 46; 44; 59; 58]%N.

(** A string made of stray units only becomes empty. *)
Definition dropStray (s : jsstring) : jsstring :=
  if truthy s && forallb isStray s then [] else s.

(** The [for (const rx of VAGUE_ENDING_PATTERNS)] loop. *)
Definition stripPatterns (patterns : list rx) (out : jsstring) : jsstring :=
  fold_left (fun o r => trim (cutAtMatch r o)) patterns out.

Definition stripVague (command : jsstring) : jsstring :=
  if negb (truthy command) then []
  else dropStray (collapseQuotes (stripPatterns VAGUE_ENDING_PATTERNS (trim command))).

(** *** Vocabulary of the properties *)

(** [s] ends with a supported vague phrase: some pattern matches a suffix of
    [s] up to the end. *)
Definition vagueEnding (s : jsstring) : Prop :=
  exists r before phrase,
    In r VAGUE_ENDING_PATTERNS /\ s = before ++ phrase /\ matchesToEnd r phrase = true.

(** The two replacements that follow the loop. *)
Definition tidy (s : jsstring) : jsstring := dropStray (collapseQuotes s).

(** Canonical form of a text under the [i] flag. *)
Definition canon (s : jsstring) : jsstring := map canonicalize s.

(** The finitely many texts a pattern spells out. *)
Fixpoint enumerate (r : rx) : list jsstring :=
  match r with
  | Lit l => [l]
  | Seq a b => flat_map (fun x => map (app x) (enumerate b)) (enumerate a)
  | Alt a b => enumerate a ++ enumerate b
  | Opt a => enumerate a ++ [[]]
  end.

(** The literal a pattern must begin with, when it has one. *)
Fixpoint firstLit (r : rx) : option jsstring :=
  match r with
  | Lit l => Some l
  | Seq a _ => firstLit a
  | _ => None
  end.

(** The verbs, with their space, that open the supported phrases. *)
Definition heads : list jsstring :=
  [js "check "; js "verify "; js "ensure "; js "confirm "].

(** A text whose canonical form is [P], followed by units of the tail class
    only, can begin with a text of canonical form [H]. *)
Fixpoint fits (P H : jsstring) {struct H} : bool :=
  match H with
  | [] => true
  | x :: H' =>
      match P with
      | y :: P' => N.eqb x y && fits P' H'
      | [] => forallb isTail H
      end
  end.

(** The suffixes of [P] that start after its first unit, the empty one
    included. *)
Fixpoint strictTails (P : jsstring) : list jsstring :=
  match P with
  | [] => [[]]
  | _ :: P' => P' :: strictTails P'
  end.

(** No supported phrase has a verb of [heads] starting inside it. *)
Definition noInnerStart : bool :=
  forallb (fun r =>
    forallb (fun p =>
      forallb (fun P' => forallb (fun h => negb (fits P' (canon h))) heads)
              (strictTails (canon p)))
            (enumerate r))
          VAGUE_ENDING_PATTERNS.

(** Every pattern begins with a literal that begins with a verb of [heads]. *)
Definition headedPatterns : bool :=
  forallb (fun r =>
             match firstLit r with
             | Some l => existsb (fun h => startsWith h l) heads
             | None => false
             end)
          VAGUE_ENDING_PATTERNS.

(** The last unit of [s] is white space. *)
Fixpoint lastSpace (s : jsstring) : bool :=
  match s with
  | [] => false
  | c :: t => match t with [] => isSpace c | _ :: _ => lastSpace t end
  end.

(** No two quote marks stand side by side in [s]. *)
Fixpoint noQuoteRun (s : jsstring) : bool :=
  match s with
  | [] => true
  | c :: t =>
      match t with
      | d :: _ => negb (isQuote c && isQuote d) && noQuoteRun t
      | [] => true
      end
  end.

End Text.

Import Text.

(** ** Locator resolution: [resolveLocator] *)
Module Resolver.

(** Where a locator is built: the page, or one of [page.frames()]. *)
Inductive Scope :=
| MainPage
| Frame (i : nat).

Inductive Locator :=
| Locate (p : Scope) (sel : jsstring)     (* [p.locator(sel)] *)
| ByText (p : Scope) (candidate : nat)    (* a candidate of the text branch *)
| First (l : Locator).                    (* [l.first()] *)

Section WithPage.

(** [page.frames().length] *)
Variable frameCount : nat.
(** [loc.count()]; [None] when the call rejects. *)
Variable count : Locator -> option nat.
(** The text branch of [makeIn] on the trimmed selector: the heuristic
    candidate search.  The outer [None] is a rejection, the inner one the
    answer [null]. *)
Variable textLocator : Scope -> PilotQAAIAction -> jsstring -> option (option Locator).

(** [makeIn(p)]; the outer [None] stands for a thrown error.  A selector
    that is not a string is rendered by the template of the xpath case and is
    refused by [p.locator] in the css case. *)
Definition makeIn (a : PilotQAAIAction) (p : Scope) : option (option Locator) :=
  match selectorType (raw a) with
  | Some css =>
      match selector (raw a) with
      | Some sel => Some (Some (Locate p sel))
      | None => None
      end
  | Some xpath =>
      Some (Some (Locate p (js "xpath=" ++ renderOptional (selector (raw a)))))
  | Some text =>
      let s := trim (match selector (raw a) with Some sel => sel | None => [] end) in
      if negb (truthy s) then Some None else textLocator p a s
  | Some none => None
  | None => None
  end.

(** One [try] block: build the locator, keep its first match when it
    matches something; every failure is swallowed. *)
Definition tryIn (a : PilotQAAIAction) (p : Scope) : option Locator :=
  match makeIn a p with
  | Some (Some loc) =>
      match count loc with
      | Some n => if (0 <? n)%nat then Some (First loc) else None
      | None => None
      end
  | _ => None
  end.

(** [for (const f of page.frames())] *)
Fixpoint scanFrames (a : PilotQAAIAction) (fs : list nat) : option Locator :=
  match fs with
  | [] => None
  | f :: rest =>
      match tryIn a (Frame f) with
      | Some l => Some l
      | None => scanFrames a rest
      end
  end.

Definition resolveLocator (a : PilotQAAIAction) : option Locator :=
  match selectorType (raw a) with
  | Some none => None
  | _ =>
      match tryIn a MainPage with
      | Some l => Some l
      | None => scanFrames a (List.seq 0 frameCount)
      end
  end.

(** The scopes [resolveLocator] visits, in order: the page, then every
    frame. *)
Definition scopes : list Scope := MainPage :: map Frame (List.seq 0 frameCount).

(** The locator [mk] matches something in scope [p]. *)
Definition matchesIn (mk : Scope -> Locator) (p : Scope) : bool :=
  match count (mk p) with Some n => (0 <? n)%nat | None => false end.

(** The first match of [mk] taken in the first scope where it matches
    anything, or nothing. *)
Definition firstMatching (mk : Scope -> Locator) : option Locator :=
  option_map (fun p => First (mk p)) (find (matchesIn mk) scopes).

End WithPage.

(** A css action whose selector matches nothing, and pages on which every
    locator matches no element, or two. *)
Definition missingCss : PilotQAAIAction :=
  mkAction (mkRaw (Name (js "click")) (Some (js "#missing")) (Some css)
                  None None None None None None None)
           (Name (js "click")).

Definition countsNothing (l : Locator) : option nat := Some 0%nat.
Definition countsTwo (l : Locator) : option nat := Some 2%nat.
Definition noTextSearch (p : Scope) (a : PilotQAAIAction) (s : jsstring)
  : option (option Locator) := Some None.

End Resolver.

(** ** The main loop of [PilotQA_AI] *)
Module Engine.

(** The calls the loop itself makes on the page. *)
Inductive Effect :=
| WaitForTimeout (ms : Z).

(** The loop variables. *)
Record LoopState := mkLoop {
  remainingCommand : jsstring;
  retryCount : nat;
  lastError : option JsError
}.

(** How the statements of the [try] block before its closing [stripVague]
    end: they run through (or leave the action loop after a navigation), or
    one of them throws; either way [remainingCommand] is what they left.  The
    value thrown is one whose [message] can be read (an object, or a
    primitive, whose [message] is [undefined]), or it is [null] or
    [undefined], and reading [message] off it throws a TypeError. *)
Inductive RoundOutcome :=
| Completed (remaining : jsstring)
| Threw (e : JsError) (remaining : jsstring)
| ThrewNullish (remaining : jsstring).

(** How one turn of the loop ends.  [Raise] and [RaiseTypeError] leave
    [PilotQA_AI]: nothing outside the loop catches them. *)
Inductive Step :=
| Continue (st : LoopState) (effects : list Effect)
| Break (st : LoopState)
| Raise (e : JsError) (effects : list Effect)
| RaiseTypeError.

Inductive Run :=
| Finished (st : LoopState) (effects : list Effect)
| Raised (e : JsError) (effects : list Effect)
| RaisedTypeError (effects : list Effect)
| OutOfFuel.

Section WithRound.

Variable maxRetries : nat.
(** The planning and executing statements of round [k] on the remaining
    command. *)
Variable tryBody : nat -> jsstring -> RoundOutcome.
(** [await page.waitForTimeout(900)] in the handler of round [k]: [None]
    when it resolves, the error it rejects with otherwise (the page has been
    closed, say). *)
Variable pause : nat -> option JsError.

(** The message of the error thrown once the retries are used up. *)
Definition failedAfter (e : JsError) : JsError :=
  newError (js "Failed after " ++ numberToString maxRetries
            ++ js " attempts: " ++ renderOptional (message e)).

(** The [catch] block of round [k], once [error.message] has been read for
    the console. *)
Definition onError (k : nat) (st : LoopState) (e : JsError) : Step :=
  let retryCount' := S (retryCount st) in
  if (maxRetries <=? retryCount')%nat then Raise (failedAfter e) []
  else
    match pause k with
    | None =>
        Continue (mkLoop (remainingCommand st) retryCount' (Some e))
                 [WaitForTimeout 900]
    | Some w => Raise w [WaitForTimeout 900]
    end.

(** The body of the [while] loop. *)
Definition iteration (k : nat) (st : LoopState) : Step :=
  let cmd := stripVague (remainingCommand st) in
  if negb (truthy cmd) then Break (mkLoop cmd (retryCount st) (lastError st))
  else
    match tryBody k cmd with
    | Completed remaining =>
        let cmd' := stripVague remaining in
        if negb (truthy cmd') then Break (mkLoop cmd' (retryCount st) (lastError st))
        else Continue (mkLoop cmd' 0 None) []
    | Threw e remaining =>
        onError k (mkLoop remaining (retryCount st) (lastError st)) e
    | ThrewNullish _ => RaiseTypeError
    end.

(** [while (remainingCommand.length > 0 && retryCount < maxRetries)] *)
Definition loopGuard (st : LoopState) : bool :=
  truthy (remainingCommand st) && (retryCount st <? maxRetries)%nat.

Fixpoint mainLoop (fuel : nat) (k : nat) (st : LoopState) (done : list Effect) : Run :=
  match fuel with
  | O => OutOfFuel
  | S fuel' =>
      if loopGuard st then
        match iteration k st with
        | Continue st' effects => mainLoop fuel' (S k) st' (done ++ effects)
        | Break st' => Finished st' done
        | Raise e effects => Raised e (done ++ effects)
        | RaiseTypeError => RaisedTypeError done
        end
      else Finished st done
  end.

(** The loop as [PilotQA_AI] enters it, on the command once its assertion
    phrases are normalized. *)
Definition run (fuel : nat) (command : jsstring) : Run :=
  mainLoop fuel 0 (mkLoop command 0 None) [].

End WithRound.

(** A round body that leaves the command alone and always throws the same
    error, as when every model answer is not valid JSON. *)
Definition invalidJson : JsError :=
  newError (js "LLM output is not a valid JSON actions array: Unexpected token").

Definition alwaysInvalidJson (k : nat) (cmd : jsstring) : RoundOutcome :=
  Threw invalidJson cmd.

(** A page on which the pause of the handler always resolves. *)
Definition pauseResolves (k : nat) : option JsError := None.

(** A page that is closed while the handler of the first round pauses. *)
Definition pageClosed : JsError :=
  newError (js "page.waitForTimeout: Target page, context or browser has been closed").

Definition pauseRejects (k : nat) : option JsError := Some pageClosed.




End Engine.

(** ** utils.ts: the remaining helpers *)
Module Utils.

(** [s.indexOf(c)]; [None] stands for -1. *)
Fixpoint indexOf (c : codeunit) (s : jsstring) : option nat :=
  match s with
  | [] => None
  | x :: t => if N.eqb x c then Some 0 else option_map S (indexOf c t)
  end.

(** [s.lastIndexOf(c)]; [None] stands for -1. *)
Fixpoint lastIndexOf (c : codeunit) (s : jsstring) : option nat :=
  match s with
  | [] => None
  | x :: t =>
      match lastIndexOf c t with
      | Some i => Some (S i)
      | None => if N.eqb x c then Some 0 else None
      end
  end.

(** [s.slice(a, b)] for indices within the string. *)
Definition slice (a b : nat) (s : jsstring) : jsstring := firstn (b - a) (skipn a s).

Definition openBracket : codeunit := 91%N.
Definition closeBracket : codeunit := 93%N.

Definition extractJsonArray (raw : jsstring) : jsstring :=
  match indexOf openBracket raw, lastIndexOf closeBracket raw with
  | Some start, Some end_ =>
      if end_ <=? start then raw else slice start (end_ + 1) raw
  | _, _ => raw
  end.

(** [s.replace(/c/g, rep)] for a single unit [c]. *)
Definition replaceAll (c : codeunit) (rep : jsstring) (s : jsstring) : jsstring :=
  flat_map (fun x => if N.eqb x c then rep else [x]) s.

Definition escapeHtml (str : jsstring) : jsstring :=
  replaceAll 39%N (js "&#39;")
    (replaceAll 34%N (js "&quot;")
       (replaceAll 62%N (js "&gt;")
          (replaceAll 60%N (js "&lt;")
             (replaceAll 38%N (js "&amp;") str)))).

(** The entity of one unit, read off the five replacements. *)
Definition escapeUnit (c : codeunit) : jsstring :=
  if N.eqb c 38 then js "&amp;"
  else if N.eqb c 60 then js "&lt;"
  else if N.eqb c 62 then js "&gt;"
  else if N.eqb c 34 then js "&quot;"
  else if N.eqb c 39 then js "&#39;"
  else [c].

(** The units HTML gives a meaning to, apart from the ampersand. *)
Definition isMarkup (c : codeunit) : bool :=
  N.eqb c 60 || N.eqb c 62 || N.eqb c 34 || N.eqb c 39.

(** The class of [escapeRegExp]: the marks [. * + ? ^ $ { } ( ) |], both
    square brackets and the backslash. *)
Definition isRegExpSpecial (c : codeunit) : bool :=
  existsb (N.eqb c) [46; 42; 43; 63; 94; 36; 123; 125; 40; 41; 124; 91; 93; 92]%N.

Definition backslash : codeunit := 92%N.

(** [t.replace(/[special]/g, BACKSLASH $&)] *)
Definition escapeRegExp (t : jsstring) : jsstring :=
  flat_map (fun c => if isRegExpSpecial c then [backslash; c] else [c]) t.

End Utils.

(** ** Per-action retries: [withRetries] *)
Module Retry.

Section WithCall.

(** The value [fn] resolves with and the values it may throw. *)
Variables T E : Type.
(** What call number [i] of [fn] does, counted from 0: it answers a value
    or throws. *)
Variable fn : nat -> T + E.

(** [for (let i = 0; i <= attempts; i++)] from turn [i], with [todo] turns
    left.  The first component lists the timers the loop has waited on, in
    milliseconds; the second is the value returned, or [last], the value
    thrown behind the loop ([None] is [undefined]). *)
Fixpoint attemptsFrom (todo i : nat) (baseDelayMs : Z) (last : option E)
  : list Z * (T + option E) :=
  match todo with
  | O => ([], inr last)
  | S todo' =>
      match fn i with
      | inl v => ([], inl v)
      | inr e =>
          let (delays, r) := attemptsFrom todo' (S i) baseDelayMs (Some e) in
          ((baseDelayMs * (Z.of_nat i + 1))%Z :: delays, r)
      end
  end.

(** [withRetries(fn, attempts, baseDelayMs)], for a count of attempts that
    is a natural number (the callers pass 1 and 2; the default is 2). *)
Definition withRetries (attempts : nat) (baseDelayMs : Z) : list Z * (T + option E) :=
  attemptsFrom (S attempts) 0 baseDelayMs None.

End WithCall.

(** The waits behind the first [k] failed calls. *)
Definition schedule (baseDelayMs : Z) (k : nat) : list Z :=
  map (fun i => (baseDelayMs * (Z.of_nat i + 1))%Z) (List.seq 0 k).

Definition total (delays : list Z) : Z := fold_right Z.add 0%Z delays.

(** A call that fails twice with a time-out and then answers. *)
Definition thirdCallAnswers (i : nat) : unit + jsstring :=
  if (i <? 2)%nat then inr (js "Timeout 5000ms exceeded") else inl tt.

(** A call that always fails. *)
Definition neverAnswers (i : nat) : unit + jsstring :=
  inr (js "Timeout 5000ms exceeded").

End Retry.

(** ** Consuming what an action has fulfilled: [consumeProcessed] *)
Module Consume.

Import Text.

(** [\w] of an expression without the flags [u] and [v]: ASCII letters,
    digits and the underscore. *)
Definition isWordChar (c : codeunit) : bool :=
  ((48 <=? c) && (c <=? 57) || (65 <=? c) && (c <=? 90)
   || (97 <=? c) && (c <=? 122) || (c =? 95))%N.

(** The word [w], in any case, stands at the head of [s] and [\b] holds
    behind it; the answer is the text behind the word. *)
Definition wordAhead (w s : jsstring) : option jsstring :=
  match stripPrefixCI w s with
  | Some rest =>
      match rest with
      | c :: _ => if isWordChar c then None else Some rest
      | [] => Some rest
      end
  | None => None
  end.

(** [/(;|\n|\.|,|\bthen\b|\band\b)/i] tried at one position: [prevWord]
    tells whether the unit before the position is a word character (false at
    the start of the input).  The answer is the text behind the match. *)
Definition delimiterAt (prevWord : bool) (s : jsstring) : option jsstring :=
  match s with
  | [] => None
  | c :: t =>
      if existsb (N.eqb c) [59; 10; 46; 44]%N then Some t
      else if prevWord then None
      else match wordAhead (js "then") s with
           | Some rest => Some rest
           | None => wordAhead (js "and") s
           end
  end.

(** [exec]: the leftmost position where the expression matches;
    [command.slice(m.index + m[0].length)]. *)
Fixpoint afterDelimiter (prevWord : bool) (s : jsstring) : option jsstring :=
  match delimiterAt prevWord s with
  | Some rest => Some rest
  | None =>
      match s with
      | [] => None
      | c :: t => afterDelimiter (isWordChar c) t
      end
  end.

(** [replace(/q{2,}/g, q)] for one quote mark [q]: of every run of [q] one
    unit is kept. *)
Fixpoint squeeze (q : codeunit) (s : jsstring) : jsstring :=
  match s with
  | [] => []
  | c :: t =>
      match t with
      | d :: _ => if N.eqb c q && N.eqb d q then squeeze q t else c :: squeeze q t
      | [] => [c]
      end
  end.

(** [replace(/^[class]+/, EMPTY)] *)
Fixpoint dropLeading (f : codeunit -> bool) (s : jsstring) : jsstring :=
  match s with
  | [] => []
  | c :: t => if f c then dropLeading f t else s
  end.

(** The fallback: consume until the next delimiter, then tidy the rest. *)
Definition consumeClause (command : jsstring) : jsstring :=
  match afterDelimiter false command with
  | None => []
  | Some after =>
      trim (dropLeading isStray (squeeze 39%N (squeeze 34%N (trimStart after))))
  end.

(** The test that opens the special case: a visibility assertion with a
    textual selector. *)
Definition mentionsText (a : PilotQAAIAction) : bool :=
  (isAction (action (raw a)) (js "assertVisible")
   || isAction (action (raw a)) (js "assertNotVisible"))
  && match selectorType (raw a) with Some text => true | _ => false end
  && truthyOpt (selector (raw a)).

Section WithMention.

(** [removeVisibilityMention(command, selector)] *)
Variable removeVisibilityMention : jsstring -> jsstring -> jsstring.

Definition consumeProcessed (command : jsstring) (a : PilotQAAIAction) : jsstring :=
  if negb (truthy command) then []
  else
    let after :=
      if mentionsText a
      then removeVisibilityMention command (selectorText (selector (raw a)))
      else command in
    if negb (streq after command) then after else consumeClause command.

End WithMention.

(** A click as the pipeline plans it. *)
Definition clickLogin : PilotQAAIAction :=
  mkAction (mkRaw (Name (js "click")) (Some (js "Login")) (Some text)
                  None None None None None None None)
           (Name (js "click")).

(** An instance of the special case that removes nothing. *)
Definition keepsCommand (command sel : jsstring) : jsstring := command.

(** *** Vocabulary of the properties *)

(** The last unit of [before] is a word character. *)
Definition endsInWord (before : jsstring) : bool :=
  match rev before with c :: _ => isWordChar c | [] => false end.

(** The first unit of [s] is a word character. *)
Definition beginsWithWord (s : jsstring) : bool :=
  match s with c :: _ => isWordChar c | [] => false end.

(** [d], found between [before] and [rest], is a match of the delimiter
    expression: one of the marks [;], [.], [,] or a line feed, or the word
    then or and in any letter case with a word boundary on both sides. *)
Definition delimiterBetween (before d rest : jsstring) : Prop :=
  (exists c, d = [c] /\ In c [59; 10; 46; 44]%N)
  \/ ((canon d = canon (js "then") \/ canon d = canon (js "and"))
      /\ endsInWord before = false /\ beginsWithWord rest = false).

(** [d] is the first delimiter of the command [clause ++ d ++ rest]: it is a
    match of the expression and no match starts inside [clause]. *)
Definition firstDelimiter (clause d rest : jsstring) : Prop :=
  delimiterBetween clause d rest
  /\ forall p d' r',
       p ++ d' ++ r' = clause ++ d ++ rest ->
       length p < length clause ->
       ~ delimiterBetween p d' r'.

(** No match of the expression is found by a scan of the positions inside
    [clause], in the command [clause ++ behind]. *)
Definition scanFindsNothing (clause behind : jsstring) : bool :=
  forallb (fun i =>
             match delimiterAt (endsInWord (firstn i clause))
                               (skipn i clause ++ behind) with
             | None => true
             | Some _ => false
             end)
          (List.seq 0 (length clause)).

End Consume.

(** ** Demo mode: the daily allowance of runs without a token *)
Module Demo.

(** What [readTokenlessCountToday] finds in the store file: nothing it can
    use (no file, no JSON, no date, a count that is no finite number), or a
    date and a count.  The counts are the integers that
    [incrementTokenlessCountToday] writes. *)
Inductive Store :=
| Unusable
| Stored (date : jsstring) (count : Z).

(** [today] is the value of [todayLocalKey()]. *)
Definition readTokenlessCountToday (today : jsstring) (store : Store) : Z :=
  match store with
  | Stored date count => if streq date today then count else 0%Z
  | Unusable => 0%Z
  end.

(** [writable] tells whether [fs.writeFileSync] succeeds; when it throws,
    the error is swallowed and the store stays as it is. *)
Definition incrementTokenlessCountToday (today : jsstring) (writable : bool)
  (store : Store) : Z * Store :=
  let next := (readTokenlessCountToday today store + 1)%Z in
  (next, if writable then Stored today next else store).

Definition dailyLimit : Z := 5.

(** How the gate at the head of [PilotQA_AI] ends. *)
Inductive Entry :=
| Licensed              (* the run goes on with a validated token *)
| DemoRun (next : Z)    (* the run goes on in demo mode, run NEXT of 5 *)
| LimitReached.         (* throws: Free plan daily limit reached. ... *)

(** The gate.  [tokenOk]: a token is given and [validateToken] accepts it;
    [courtesyOk]: [requestToken] answers a token that [validateToken]
    accepts. *)
Definition enter (tokenOk courtesyOk : bool) (today : jsstring) (writable : bool)
  (store : Store) : Entry * Store :=
  if tokenOk then (Licensed, store)
  else if (readTokenlessCountToday today store <? dailyLimit)%Z then
    let (next, store') := incrementTokenlessCountToday today writable store in
    (DemoRun next, store')
  else if courtesyOk then (Licensed, store)
  else (LimitReached, store).

(** [n] runs without a token and without a token service, one after the
    other on the day [today]. *)
Fixpoint demoRuns (today : jsstring) (writable : bool) (n : nat) (store : Store)
  : list Entry * Store :=
  match n with
  | O => ([], store)
  | S n' =>
      let (e, store') := enter false false today writable store in
      let (es, store'') := demoRuns today writable n' store' in
      (e :: es, store'')
  end.

End Demo.

(* ===================================================================== *)
(** * Part II: properties                                                 *)
(* ===================================================================== *)

(** ** Strings *)

Lemma streq_eq (a b : jsstring) : streq a b = true <-> a = b.
Proof.
  revert b; induction a as [|x a IH]; intros [|y b]; simpl; split; intro H;
    try reflexivity; try discriminate.
  - apply andb_true_iff in H as [Hx Hr].
    apply N.eqb_eq in Hx. apply IH in Hr. now subst.
  - injection H as -> ->. now rewrite N.eqb_refl, (proj2 (IH b)).
Qed.

Lemma streq_refl (a : jsstring) : streq a a = true.
Proof. now apply streq_eq. Qed.

Lemma streq_neq (a b : jsstring) : streq a b = false <-> a <> b.
Proof.
  split.
  - intros H E. apply streq_eq in E. congruence.
  - intros H. destruct (streq a b) eqn:E; [|reflexivity].
    apply streq_eq in E. contradiction.
Qed.

Lemma startsWith_beginsWith (p s : jsstring) :
  startsWith p s = true <-> beginsWith p s.
Proof.
  unfold beginsWith. revert s; induction p as [|x p IH]; intros s; simpl.
  - split; [intros _; now exists s | reflexivity].
  - destruct s as [|y s]; split.
    + discriminate.
    + intros [rest H]; discriminate.
    + intros H. apply andb_true_iff in H as [Hx Hr].
      apply N.eqb_eq in Hx. apply IH in Hr as [rest ->]. subst. now exists rest.
    + intros [rest H]. injection H as -> ->.
      rewrite N.eqb_refl. simpl. apply IH. now exists rest.
Qed.

Lemma startsWith_false (p s : jsstring) :
  startsWith p s = false <-> ~ beginsWith p s.
Proof.
  rewrite <- startsWith_beginsWith. destruct (startsWith p s); split; intros H;
    try reflexivity; try discriminate; try congruence.
Qed.

Lemma truthy_nonempty (s : jsstring) : truthy s = true <-> s <> [].
Proof. destruct s; simpl; split; intros H; congruence. Qed.

(** ** Selector-kind inference *)

(** C2: the inference applied by the schema transform when [selectorType] is
    absent is a function of the selector alone, stated on the selector as it
    is written: the absent or empty selector gives none; a selector that
    begins with xpath= or // gives xpath; one that begins with a dot, a hash,
    an opening bracket or a colon gives css; every other selector gives text.
    The transform stores the inferred kind and touches no other property,
    and a selector kind that is present is kept. *)
Theorem selector_kind_inference :
  inferSelectorType None = none
  /\ inferSelectorType (Some []) = none
  /\ (forall rest : jsstring,
        inferSelectorType (Some (js "xpath=" ++ rest)) = xpath
        /\ inferSelectorType (Some (js "//" ++ rest)) = xpath
        /\ inferSelectorType (Some (js "." ++ rest)) = css
        /\ inferSelectorType (Some (js "#" ++ rest)) = css
        /\ inferSelectorType (Some (js "[" ++ rest)) = css
        /\ inferSelectorType (Some (js ":" ++ rest)) = css)
  /\ (forall s : jsstring,
        s <> [] ->
        (forall rest, s <> js "xpath=" ++ rest) ->
        (forall rest, s <> js "//" ++ rest) ->
        (forall rest, s <> js "." ++ rest) ->
        (forall rest, s <> js "#" ++ rest) ->
        (forall rest, s <> js "[" ++ rest) ->
        (forall rest, s <> js ":" ++ rest) ->
        inferSelectorType (Some s) = text)
  /\ (forall a : RawLLMAction,
        selectorType a = None ->
        coerceSelectorType a
        = mkRaw (action a) (selector a) (Some (inferSelectorType (selector a)))
                (timeout a) (duration a) (text_ a) (expectedContent a)
                (reason a) (url a) (pattern a))
  /\ (forall (a : RawLLMAction) (t : SelectorType),
        selectorType a = Some t -> coerceSelectorType a = a).
Proof.
  split; [reflexivity|]. split; [reflexivity|]. split; [|split; [|split]].
  - intros rest. repeat split; reflexivity.
  - intros s Hne H1 H2 H3 H4 H5 H6.
    assert (Hno : forall p, (forall rest, s <> p ++ rest) -> startsWith p s = false).
    { intros p Hp. apply startsWith_false. intros [rest Hr]. exact (Hp rest Hr). }
    unfold inferSelectorType, selectorText.
    rewrite (Hno _ H1), (Hno _ H2), (Hno _ H3), (Hno _ H4), (Hno _ H5), (Hno _ H6).
    cbn [orb]. apply truthy_nonempty in Hne. now rewrite Hne.
  - intros a H. unfold coerceSelectorType. now rewrite H.
  - intros a t H. unfold coerceSelectorType. now rewrite H.
Qed.

(** ** Trimming *)

Lemma trimStart_head (s : jsstring) : headSpace (trimStart s) = false.
Proof.
  induction s as [|c t IH]; simpl; [reflexivity|].
  destruct (isSpace c) eqn:E; [exact IH | simpl; exact E].
Qed.

Lemma trimStart_fixed (s : jsstring) : headSpace s = false -> trimStart s = s.
Proof. destruct s as [|c t]; simpl; [reflexivity | now intros ->]. Qed.

Lemma trimEnd_head (s : jsstring) : headSpace s = false -> headSpace (trimEnd s) = false.
Proof.
  destruct s as [|c t]; simpl; [reflexivity|]. intros E.
  destruct (trimEnd t); [rewrite E|]; simpl; exact E.
Qed.

Lemma trimEnd_idem (s : jsstring) : trimEnd (trimEnd s) = trimEnd s.
Proof.
  induction s as [|c t IH]; simpl; [reflexivity|].
  destruct (trimEnd t) as [|d t'] eqn:E.
  - destruct (isSpace c) eqn:Ec; simpl; [reflexivity | now rewrite Ec].
  - change (trimEnd (c :: d :: t')) with
      (match trimEnd (d :: t') with
       | [] => if isSpace c then [] else [c]
       | u => c :: u
       end).
    now rewrite IH.
Qed.

Lemma trim_head (s : jsstring) : headSpace (trim s) = false.
Proof. apply trimEnd_head, trimStart_head. Qed.

Lemma trim_idem (s : jsstring) : trim (trim s) = trim s.
Proof.
  unfold trim at 1. rewrite (trimStart_fixed (trim s)) by apply trim_head.
  apply trimEnd_idem.
Qed.

Lemma trimEnd_trimmed (s : jsstring) : trimEnd s = s -> headSpace s = false -> trim s = s.
Proof. intros He Hh. unfold trim. now rewrite (trimStart_fixed s Hh). Qed.

(** ** The plug-in chains *)

Lemma isAction_name (v : ActionValue) (n : jsstring) :
  isAction v n = true <-> v = Name n.
Proof.
  destruct v as [s| |]; simpl; split; intros H; try discriminate.
  - apply streq_eq in H. now subst.
  - injection H as ->. apply streq_refl.
Qed.

(** What a run of the default validators that does not throw has checked
    and changed. *)
Lemma validators_effect (c c' : RawLLMAction) :
  runValidators actionValidators c = Ok c' ->
  action c' = action c /\ selector c' = selector c
  /\ selectorType c' = selectorType c /\ text_ c' = text_ c
  /\ (isNoSelector (action c) = false -> truthyOpt (selector c) = true)
  /\ (isAction (action c) (js "type") = true -> blankText (text_ c) = false)
  /\ (isAction (action c) (js "wait") = true ->
      exists d, duration c' = Some d /\ (1 <= d)%Z).
Proof.
  unfold actionValidators, runValidators, bind.
  unfold validateSelector.
  destruct (negb (isNoSelector (action c)) && negb (truthyOpt (selector c))) eqn:E1;
    [discriminate|].
  unfold validateWaitDuration.
  destruct (isAction (action c) (js "wait")
            && match duration c with Some d => (d <=? 0)%Z | None => true end) eqn:E2;
    unfold validateTypeText; cbn [action text_ with_duration selector].
  - destruct (isAction (action c) (js "type") && blankText (text_ c)) eqn:E3;
      [discriminate|].
    intros [= <-]. cbn [action selector selectorType text_ duration with_duration].
    repeat split.
    + intros Hn. rewrite Hn in E1. simpl in E1.
      now destruct (truthyOpt (selector c)).
    + intros Ht. rewrite Ht in E3. simpl in E3. exact E3.
    + intros _. exists 1%Z. split; [reflexivity | lia].
  - destruct (isAction (action c) (js "type") && blankText (text_ c)) eqn:E3;
      [discriminate|].
    intros [= <-]. repeat split.
    + intros Hn. rewrite Hn in E1. simpl in E1.
      now destruct (truthyOpt (selector c)).
    + intros Ht. rewrite Ht in E3. simpl in E3. exact E3.
    + intros Hw. rewrite Hw in E2. simpl in E2.
      destruct (duration c) as [d|]; [|discriminate].
      exists d. split; [reflexivity|]. apply Z.leb_gt in E2. lia.
Qed.

Section PlanProperties.

Variable toLowerCase : jsstring -> jsstring.
Variable isUrl : jsstring -> bool.
Variable typedByParser : jsstring -> option jsstring.

(** The default normalizers never veto and never throw on a string action;
    they leave every property but [action] alone once the selector kind is
    set. *)
Lemma normalizers_effect (r c : RawLLMAction) :
  runNormalizers (actionNormalizers toLowerCase) (Some r) = Ok (Some c) ->
  selector c = selector r /\ text_ c = text_ r /\ duration c = duration r
  /\ (forall t, selectorType r = Some t -> selectorType c = Some t).
Proof.
  unfold actionNormalizers, runNormalizers, bind, normalizeAlias.
  destruct (action r) as [s| |]; try discriminate.
  set (hit := if truthy (removeSpaces (toLowerCase s))
              then lookupAlias (removeSpaces (toLowerCase s)) else None).
  destruct hit as [v|]; unfold normalizeSelectorType;
    cbn [selectorType with_action selector action].
  - destruct (selectorType r) as [t|] eqn:Et;
      intros [= <-]; cbn; repeat split; intros t' Ht; congruence.
  - destruct (selectorType r) as [t|] eqn:Et;
      intros [= <-]; cbn; repeat split; intros t' Ht; congruence.
Qed.

Local Abbreviation planOneDefault :=
  (planOne (actionNormalizers toLowerCase) actionValidators actionMappers).
Local Abbreviation planAllDefault :=
  (planAll (actionNormalizers toLowerCase) actionValidators actionMappers).

Lemma planOne_inv (r : RawLLMAction) (a : PilotQAAIAction) :
  planOneDefault r = Ok (Some a) ->
  exists c c',
    runNormalizers (actionNormalizers toLowerCase) (Some r) = Ok (Some c)
    /\ runValidators actionValidators c = Ok c'
    /\ a = mkAction c' (action c').
Proof.
  unfold planOne, bind.
  destruct (runNormalizers (actionNormalizers toLowerCase) (Some r)) as [[c|]|e];
    try discriminate.
  destruct (runValidators actionValidators c) as [c'|e] eqn:Ev; try discriminate.
  cbn. intros [= <-]. now exists c, c'.
Qed.

Lemma planAll_In (l : list RawLLMAction) (final : list PilotQAAIAction) (a : PilotQAAIAction) :
  planAllDefault l = Ok final -> In a final ->
  exists r, In r l /\ planOneDefault r = Ok (Some a).
Proof.
  revert final; induction l as [|r l IH]; intros final; cbn [planAll].
  - intros [= <-] [].
  - unfold bind at 1.
    destruct (planOneDefault r) as [m|e] eqn:E1; [|discriminate].
    unfold bind at 1.
    destruct (planAllDefault l) as [rest|e]; [|discriminate].
    intros [= <-] Hin.
    destruct m as [a0|].
    + destruct Hin as [<-|Hin].
      * exists r. split; [now left | exact E1].
      * destruct (IH rest eq_refl Hin) as [r' [Hr' Hp]]. exists r'. split; [now right | exact Hp].
    + destruct (IH rest eq_refl Hin) as [r' [Hr' Hp]]. exists r'. split; [now right | exact Hp].
Qed.

(** *** What the strict schema lets through *)

Lemma optionalField_trimmed (k : jsstring) (fields : list (jsstring * json)) (s : jsstring) :
  optionalField zStringTrimMin1 k fields = Some (Some s) ->
  exists s0, getField k fields = Some (JString s0) /\ s = trim s0 /\ s <> [].
Proof.
  unfold optionalField. destruct (getField k fields) as [v|]; [|discriminate].
  destruct v; simpl; try discriminate.
  destruct (truthy (trim s0)) eqn:E; [|discriminate].
  intros [= <-]. exists s0. repeat split. now apply truthy_nonempty.
Qed.

Lemma optionalField_explicit_none (k : jsstring) (fields : list (jsstring * json)) :
  optionalField zSelectorType k fields = Some (Some none) ->
  getField k fields = Some (JString (js "none")).
Proof.
  unfold optionalField. destruct (getField k fields) as [v|]; [|discriminate].
  destruct v; simpl; try discriminate.
  destruct (streq s (js "css")); [discriminate|].
  destruct (streq s (js "xpath")); [discriminate|].
  destruct (streq s (js "text")); [discriminate|].
  destruct (streq s (js "none")) eqn:E; [|discriminate].
  apply streq_eq in E. now subst.
Qed.

Lemma optionalField_positive (k : jsstring) (fields : list (jsstring * json)) (d : Z) :
  optionalField zPositiveInt k fields = Some (Some d) -> (0 < d)%Z.
Proof.
  unfold optionalField. destruct (getField k fields) as [v|]; [|discriminate].
  destruct v; simpl; try discriminate.
  destruct (isInteger q && (0 <? toInteger q)%Z) eqn:E; [|discriminate].
  intros [= <-]. apply andb_true_iff in E as [_ E]. now apply Z.ltb_lt.
Qed.

Lemma parseActionBase_inv (v : json) (b : RawLLMAction) :
  parseActionBase isUrl v = Some b ->
  exists fields,
    v = JObject fields
    /\ (exists s, action b = Name s)
    /\ (forall s, selector b = Some s ->
        exists s0, getField (js "selector") fields = Some (JString s0)
                   /\ s = trim s0 /\ s <> [])
    /\ (selectorType b = Some none ->
        getField (js "selectorType") fields = Some (JString (js "none")))
    /\ (forall d, duration b = Some d -> (0 < d)%Z).
Proof.
  unfold parseActionBase. destruct v; try discriminate.
  destruct (forallb _ fields); [|discriminate].
  repeat match goal with
         | |- context [bindOpt ?x _] =>
             destruct x eqn:?; cbn [bindOpt]; [|discriminate]
         end.
  intros [= <-]. exists fields. cbn [action selector selectorType duration].
  repeat split.
  - eauto.
  - intros s ->. eapply optionalField_trimmed; eassumption.
  - intros ->. eapply optionalField_explicit_none; eassumption.
  - intros d ->. eapply optionalField_positive; eassumption.
Qed.

Lemma parseAll_In (items : list json) (parsed : list RawLLMAction) (r : RawLLMAction) :
  parseAll isUrl items = Some parsed -> In r parsed ->
  exists v, In v items /\ parseAction isUrl v = Some r.
Proof.
  revert parsed; induction items as [|v items IH]; intros parsed; cbn [parseAll].
  - intros [= <-] [].
  - destruct (parseAction isUrl v) as [a|] eqn:Ea; [|discriminate].
    destruct (parseAll isUrl items) as [l|]; [|discriminate].
    intros [= <-] [<-|Hin].
    + exists v. split; [now left | exact Ea].
    + destruct (IH l eq_refl Hin) as [v' [Hv' Hp]]. exists v'. split; [now right | exact Hp].
Qed.

Lemma injectText_keeps (a : RawLLMAction) :
  action (injectText toLowerCase typedByParser a) = action a
  /\ selector (injectText toLowerCase typedByParser a) = selector a
  /\ selectorType (injectText toLowerCase typedByParser a) = selectorType a
  /\ duration (injectText toLowerCase typedByParser a) = duration a.
Proof.
  unfold injectText.
  destruct (isAction (action a) (js "type") && blankText (text_ a)
            && truthyOpt (selector a)); [|now repeat split].
  destruct (selector a) as [sel|] eqn:Es; [|now rewrite Es].
  destruct (typedByParser (toLowerCase sel)); cbn; rewrite ?Es; now repeat split.
Qed.

Lemma coerceSelectorType_set (b : RawLLMAction) :
  exists t, selectorType (coerceSelectorType b) = Some t.
Proof.
  unfold coerceSelectorType. destruct (selectorType b) as [t|] eqn:E.
  - now exists t.
  - now eexists.
Qed.

Lemma coerceSelectorType_keeps (b : RawLLMAction) :
  action (coerceSelectorType b) = action b
  /\ selector (coerceSelectorType b) = selector b
  /\ duration (coerceSelectorType b) = duration b.
Proof. unfold coerceSelectorType. now destruct (selectorType b). Qed.

(** Every planned action comes from one object of the parsed answer: the
    schema accepted the object, the chains kept its selector and the selector
    kind fixed by the schema transform, and the validators passed. *)
Lemma plan_provenance (arr : json) (final : list PilotQAAIAction) (a : PilotQAAIAction) :
  parseAndPlan toLowerCase isUrl typedByParser arr = Ok final -> In a final ->
  exists items fields b c c',
    arr = JArray items /\ In (JObject fields) items
    /\ parseActionBase isUrl (JObject fields) = Some b
    /\ runValidators actionValidators c = Ok c'
    /\ a = mkAction c' (action c')
    /\ selector c = selector b
    /\ selectorType c = selectorType (coerceSelectorType b).
Proof.
  unfold parseAndPlan. destruct arr as [| | | |items|]; cbn [parseActions]; try discriminate.
  destruct (parseAll isUrl items) as [parsed|] eqn:Ep; [|discriminate].
  unfold bind.
  destruct (planAll _ _ _ _) as [final'|e] eqn:Ef; [|discriminate].
  destruct final' as [|a0 rest]; [discriminate|].
  intros [= <-] Hin.
  destruct (planAll_In _ _ _ Ef Hin) as [r [Hr Hone]].
  apply filter_In in Hr as [Hr _]. apply filter_In in Hr as [Hr _].
  apply in_map_iff in Hr as [r0 [<- Hr0]].
  destruct (parseAll_In _ _ _ Ep Hr0) as [v [Hv Hpa]].
  unfold parseAction in Hpa.
  destruct (parseActionBase isUrl v) as [b|] eqn:Eb; [|discriminate].
  cbn in Hpa. injection Hpa as <-.
  destruct (parseActionBase_inv _ _ Eb) as [fields [-> _]].
  destruct (planOne_inv _ _ Hone) as [c [c' [Hn [Hv' ->]]]].
  destruct (normalizers_effect _ _ Hn) as [Hs [_ [_ Hst]]].
  destruct (injectText_keeps (coerceSelectorType b)) as [_ [Hsel [Hty _]]].
  destruct (coerceSelectorType_set b) as [t Ht].
  destruct (coerceSelectorType_keeps b) as [_ [Hsel' _]].
  exists items, fields, b, c, c'. repeat split; try assumption.
  - now rewrite Hs, Hsel, Hsel'.
  - rewrite Ht. apply Hst. now rewrite Hty.
Qed.

(** C1, as amended: in every list the pipeline yields, an action whose kind
    requires a selector carries a non-empty selector, the trimmed selector of
    an object of the model answer, and its selector kind is none only when
    that object spelled out the selector kind none; an action of kind type
    carries a text that is not blank. *)
Theorem plan_keeps_selector_and_text
  (arr : json) (final : list PilotQAAIAction) (a : PilotQAAIAction) :
  parseAndPlan toLowerCase isUrl typedByParser arr = Ok final -> In a final ->
  (isNoSelector (action (raw a)) = false ->
   exists items fields s0,
     arr = JArray items /\ In (JObject fields) items
     /\ getField (js "selector") fields = Some (JString s0)
     /\ selector (raw a) = Some (trim s0) /\ trim s0 <> []
     /\ (selectorType (raw a) = Some none ->
         getField (js "selectorType") fields = Some (JString (js "none"))))
  /\ (action (raw a) = Name (js "type") ->
      exists t, text_ (raw a) = Some t /\ trim t <> []).
Proof.
  intros Hplan Hin.
  destruct (plan_provenance _ _ _ Hplan Hin)
    as (items & fields & b & c & c' & -> & Hobj & Hb & Hv & -> & Hsel & Hty).
  destruct (validators_effect _ _ Hv) as (Ha & Hs & Ht & Hx & Hneed & Htext & _).
  destruct (parseActionBase_inv _ _ Hb) as (fields' & Hf & _ & Htrim & Hnone & _).
  injection Hf as <-.
  cbn [raw]. rewrite Ha, Hs, Ht, Hx. split.
  - intros Hreq. specialize (Hneed Hreq).
    destruct (selector c) as [s|] eqn:Es; [|discriminate].
    destruct (Htrim s (eq_sym Hsel)) as (s0 & Hs0 & -> & Hne).
    exists items, fields, s0. repeat split; try assumption.
    intros Hn. apply Hnone. rewrite Hty in Hn. unfold coerceSelectorType in Hn.
    destruct (selectorType b) as [t|] eqn:Eb; [congruence|].
    exfalso. cbn in Hn. rewrite <- Hsel in Hn.
    destruct (trim s0) as [|x s]; [now apply Hne|].
    unfold inferSelectorType in Hn. cbn [selectorText] in Hn.
    destruct (startsWith (js "xpath=") (x :: s) || startsWith (js "//") (x :: s));
      [discriminate|].
    destruct (startsWith (js ".") (x :: s) || startsWith (js "#") (x :: s)
              || startsWith (js "[") (x :: s) || startsWith (js ":") (x :: s));
      discriminate.
  - intros Htype. apply isAction_name in Htype. specialize (Htext Htype).
    unfold blankText in Htext. destruct (text_ c) as [t|]; [|discriminate].
    exists t. split; [reflexivity|].
    apply orb_false_iff in Htext as [_ Htext].
    apply negb_false_iff in Htext. now apply truthy_nonempty.
Qed.

(** C8: a wait action the engine dispatches comes out of the pipeline with a
    duration, and the pause handed to the page is the larger of 1 and that
    duration, in seconds. *)
Theorem wait_sleeps_max_one_duration
  (arr : json) (final : list PilotQAAIAction) (a : PilotQAAIAction) :
  parseAndPlan toLowerCase isUrl typedByParser arr = Ok final -> In a final ->
  action (raw a) = Name (js "wait") ->
  exists d, duration (raw a) = Some d
            /\ waitTimeoutMs a = (Z.max 1 d * 1000)%Z.
Proof.
  intros Hplan Hin Hwait.
  destruct (plan_provenance _ _ _ Hplan Hin)
    as (items & fields & b & c & c' & -> & Hobj & Hb & Hv & -> & Hsel & Hty).
  destruct (validators_effect _ _ Hv) as (Ha & _ & _ & _ & _ & _ & Hdur).
  cbn [raw] in *. rewrite Ha in Hwait. apply isAction_name in Hwait.
  destruct (Hdur Hwait) as [d [Hd Hle]].
  exists d. split; [exact Hd|].
  unfold waitTimeoutMs. cbn [raw]. rewrite Hd. cbn [clamp].
  now rewrite Z.max_r by lia.
Qed.

End PlanProperties.

(** C1, as stated, fails: the model answer
    [{action: click, selector: #login, selectorType: none}] passes the
    schema and the three chains, and the click reaches the executor with the
    selector kind none. *)
Lemma explicit_none_reaches_executor :
  exists a,
    parseAndPlan asciiLower webUrl nothingTyped Examples.clickExplicitNone = Ok [a]
    /\ selectorType (raw a) = Some none
    /\ isNoSelector (action (raw a)) = false.
Proof.
  eexists. split; [vm_compute; reflexivity|]. split; reflexivity.
Qed.

Lemma plan_keeps_selector_and_text_witness :
  let a := mkAction (mkRaw (Name (js "type")) (Some (js "Email")) (Some text) None None
                           (Some (js "alice")) None None None None)
                    (Name (js "type")) in
  (isNoSelector (action (raw a)) = false ->
   exists items fields s0,
     Examples.typeEmail = JArray items /\ In (JObject fields) items
     /\ getField (js "selector") fields = Some (JString s0)
     /\ selector (raw a) = Some (trim s0) /\ trim s0 <> []
     /\ (selectorType (raw a) = Some none ->
         getField (js "selectorType") fields = Some (JString (js "none"))))
  /\ (action (raw a) = Name (js "type") ->
      exists t, text_ (raw a) = Some t /\ trim t <> []).
Proof.
  apply (plan_keeps_selector_and_text asciiLower webUrl nothingTyped
           Examples.typeEmail
           [mkAction (mkRaw (Name (js "type")) (Some (js "Email")) (Some text) None None
                            (Some (js "alice")) None None None None)
                     (Name (js "type"))]).
  - vm_compute. reflexivity.
  - left. reflexivity.
Defined.

Lemma wait_sleeps_max_one_duration_witness :
  let a := mkAction (mkRaw (Name (js "wait")) None (Some none) None (Some 2%Z)
                           None None None None None)
                    (Name (js "wait")) in
  exists d, duration (raw a) = Some d /\ waitTimeoutMs a = (Z.max 1 d * 1000)%Z.
Proof.
  apply (wait_sleeps_max_one_duration asciiLower webUrl nothingTyped
           Examples.clickThenWait
           [mkAction (mkRaw (Name (js "click")) (Some (js "Login")) (Some text) None None
                            None None None None None)
                     (Name (js "click"));
            mkAction (mkRaw (Name (js "wait")) None (Some none) None (Some 2%Z)
                            None None None None None)
                     (Name (js "wait"))]).
  - vm_compute. reflexivity.
  - right. left. reflexivity.
  - reflexivity.
Defined.

(** The answer click Login, then wait 2: two actions, the selector kind of
    the first inferred as text and that of the second as none, and a pause of
    2000 ms for the second. *)
Example click_then_wait_plan :
  parseAndPlan asciiLower webUrl nothingTyped Examples.clickThenWait
  = Ok [mkAction (mkRaw (Name (js "click")) (Some (js "Login")) (Some text) None None
                        None None None None None)
                 (Name (js "click"));
        mkAction (mkRaw (Name (js "wait")) None (Some none) None (Some 2%Z)
                        None None None None None)
                 (Name (js "wait"))]
  /\ map waitTimeoutMs
       [mkAction (mkRaw (Name (js "wait")) None (Some none) None (Some 2%Z)
                        None None None None None)
                 (Name (js "wait"))]
     = [2000%Z].
Proof. split; vm_compute; reflexivity. Qed.

(** C9: the validator chain raises nothing for a wait action whose duration
    is absent or not positive: it answers the action with its duration equal
    to 1 and every other property as it was. *)
Theorem wait_duration_coerced (act : RawLLMAction) :
  action act = Name (js "wait") ->
  (duration act = None \/ exists d, duration act = Some d /\ (d <= 0)%Z) ->
  runValidators actionValidators act
  = Ok (mkRaw (action act) (selector act) (selectorType act) (timeout act)
              (Some 1%Z) (text_ act) (expectedContent act) (reason act)
              (url act) (pattern act)).
Proof.
  intros Ha Hd.
  unfold actionValidators, runValidators, bind.
  unfold validateSelector. rewrite Ha.
  change (isNoSelector (Name (js "wait"))) with true. cbn [negb andb].
  unfold validateWaitDuration. rewrite Ha.
  change (isAction (Name (js "wait")) (js "wait")) with true. cbn [andb].
  assert (Hc : match duration act with Some d => (d <=? 0)%Z | None => true end = true).
  { destruct Hd as [->|[d [-> Hle]]]; [reflexivity | now apply Z.leb_le]. }
  rewrite Hc. unfold validateTypeText. cbn [action with_duration].
  rewrite Ha. change (isAction (Name (js "wait")) (js "type")) with false.
  cbn [andb]. unfold with_duration. now rewrite Ha.
Qed.

(** The wait action [{action: wait, selectorType: none, duration: 0}]. *)
Lemma wait_duration_coerced_witness :
  runValidators actionValidators Examples.waitZero
  = Ok (mkRaw (Name (js "wait")) None (Some none) None (Some 1%Z)
              None None None None None).
Proof.
  apply (wait_duration_coerced Examples.waitZero).
  - reflexivity.
  - right. exists 0%Z. split; [reflexivity | lia].
Defined.

Lemma normalizers_never_veto (toLowerCase : jsstring -> jsstring)
  (r : RawLLMAction) (cur : option RawLLMAction) :
  runNormalizers (actionNormalizers toLowerCase) (Some r) = Ok cur ->
  exists c, cur = Some c.
Proof.
  unfold actionNormalizers, runNormalizers, bind, normalizeAlias.
  destruct (action r) as [s| |]; try discriminate.
  destruct (if truthy (removeSpaces (toLowerCase s))
            then lookupAlias (removeSpaces (toLowerCase s)) else None);
    unfold normalizeSelectorType; cbn [selectorType with_action];
    destruct (selectorType r); intros [= <-]; eauto.
Qed.

(** C10: with the default registry the base mapper accepts every action it
    is given, its answer is the action itself with [normalizedAction] set to
    the [action] property, and a list that gets through normalization and
    validation is mapped element by element: nothing is dropped. *)
Theorem base_mapper_total :
  (forall cur : RawLLMAction,
     runMappers actionMappers cur = Some (mkAction cur (action cur)))
  /\ (forall (toLowerCase : jsstring -> jsstring)
             (l : list RawLLMAction) (final : list PilotQAAIAction),
        planAll (actionNormalizers toLowerCase) actionValidators actionMappers l
        = Ok final ->
        Forall2 (fun r a =>
                   exists c c',
                     runNormalizers (actionNormalizers toLowerCase) (Some r) = Ok (Some c)
                     /\ runValidators actionValidators c = Ok c'
                     /\ raw a = c' /\ normalizedAction a = action c')
                l final).
Proof.
  split; [reflexivity|].
  intros toLowerCase l. induction l as [|r l IH]; intros final; cbn [planAll].
  - intros [= <-]. constructor.
  - unfold bind at 1. unfold planOne, bind at 1.
    destruct (runNormalizers (actionNormalizers toLowerCase) (Some r)) as [cur|e] eqn:En;
      [|discriminate].
    destruct (normalizers_never_veto _ _ _ En) as [c ->].
    unfold bind at 1.
    destruct (runValidators actionValidators c) as [c'|e] eqn:Ev; [|discriminate].
    unfold bind at 1.
    destruct (planAll _ _ _ l) as [rest|e]; [|discriminate].
    cbn. intros [= <-]. constructor.
    + exists c, c'. now repeat split.
    + now apply IH.
Qed.

(** ** The LLM gateway *)

Section GatewayProperties.

Import Llm.

Variable hasKeyFor : LLMProvider -> bool.
Variable invoke : LLMConfig -> InvokeOutcome.
Variable content : jsstring.

Local Abbreviation tryModels' := (tryModels hasKeyFor invoke content).
Local Abbreviation usable' := (usable hasKeyFor).
Local Abbreviation passedOver' := (passedOver hasKeyFor invoke).



(** Every candidate of [availableLLMs] has its key: on that list nothing is
    skipped, and a failure means that every candidate was called. *)
Lemma availableLLMs_usable :
  usable' (availableLLMs hasKeyFor) = availableLLMs hasKeyFor.
Proof.
  unfold availableLLMs, usable.
  destruct (hasKeyFor gemini) eqn:G, (hasKeyFor openai) eqn:O,
    (hasKeyFor anthropic) eqn:A; cbn; rewrite ?G, ?O, ?A; reflexivity.
Qed.

End GatewayProperties.

(** The scenario of the specification on the candidates of the sources: the
    first two models throw, the third answers and is the one returned. *)
Example third_model_is_returned :
  Llm.invokeLLMWithFallback Llm.everyKey Llm.thirdAnswers (js "prompt")
  = ([Llm.Trying (js "gemini-2.5-flash");
      Llm.ErrorWith (js "gemini-2.5-flash") (Some (js "503"));
      Llm.Trying (js "gemini-2.0-flash");
      Llm.ErrorWith (js "gemini-2.0-flash") (Some (js "429"));
      Llm.Trying (js "gemini-1.5-flash");
      Llm.SuccessfullyUsed (js "gemini-1.5-flash")],
     inl (Llm.mkResult (js "[]") (js "gemini-1.5-flash") 12 2 1)).
Proof. vm_compute. reflexivity. Qed.

(** ** The page cache *)

Section CacheProperties.

Import Navigation.

Lemma cacheUsable_iff (now : Z) (pageUrl : jsstring) (c : Cache) :
  cacheUsable now pageUrl true c = true
  <-> currentUrl c = pageUrl
      /\ (exists h, htmlContent c = Some h /\ h <> [])
      /\ (now - htmlTimestamp c < CACHE_DURATION)%Z.
Proof.
  unfold cacheUsable. cbn [andb]. rewrite negb_involutive.
  rewrite !andb_true_iff, streq_eq, Z.ltb_lt.
  split.
  - intros [[Hu Hc] Ht]. repeat split; try assumption.
    destruct (htmlContent c) as [h|]; [|discriminate].
    exists h. split; [reflexivity | now apply truthy_nonempty].
  - intros (Hu & (h & Hh & Hne) & Ht). repeat split; try assumption.
    rewrite Hh. now apply truthy_nonempty.
Qed.

(** C5: with caching enabled the cached excerpt is answered only when the
    stored URL is the live URL, a cached content is present and the
    timestamp is less than 5000 ms old; a stored URL that differs from the
    live one makes the function read the page again whatever the timestamp;
    and once the navigation detector has seen the URL change, the cached
    content is gone and every later call reads the page again. *)
Theorem cache_only_for_same_url :
  (forall (now : Z) (pageUrl : jsstring) (read : PageRead) (c : Cache),
     (currentUrl c = pageUrl
      /\ (exists h, htmlContent c = Some h /\ h <> [])
      /\ (now - htmlTimestamp c < 5000)%Z ->
      exists h, htmlContent c = Some h
                /\ getOptimizedHTML now pageUrl read true c
                   = mkSummary h c [LogUsingCachedHTML])
     /\ (~ (currentUrl c = pageUrl
            /\ (exists h, htmlContent c = Some h /\ h <> [])
            /\ (now - htmlTimestamp c < 5000)%Z) ->
         getOptimizedHTML now pageUrl read true c = freshSummary now read c))
  /\ (forall (now : Z) (pageUrl : jsstring) (read : PageRead) (c : Cache),
        currentUrl c <> pageUrl ->
        getOptimizedHTML now pageUrl read true c = freshSummary now read c)
  /\ (forall (pageUrl : jsstring) (loaded : bool) (state : NavState) (c : Cache),
        pageUrl <> currentPageUrl state ->
        let d := detectNavigationChange pageUrl loaded state true c in
        changed d = true
        /\ htmlContent (navCache d) = None
        /\ forall (now : Z) (pageUrl' : jsstring) (read : PageRead),
             getOptimizedHTML now pageUrl' read true (navCache d)
             = freshSummary now read (navCache d)).
Proof.
  assert (Hmiss : forall now pageUrl read c,
             cacheUsable now pageUrl true c = false ->
             getOptimizedHTML now pageUrl read true c = freshSummary now read c).
  { intros now pageUrl read c H. unfold getOptimizedHTML. now rewrite H. }
  split; [|split].
  - intros now pageUrl read c. split.
    + intros H. pose proof (proj2 (cacheUsable_iff now pageUrl c) H) as Hu.
      destruct H as (_ & (h & Hh & _) & _). exists h. split; [exact Hh|].
      unfold getOptimizedHTML. now rewrite Hu, Hh.
    + intros H. apply Hmiss.
      destruct (cacheUsable now pageUrl true c) eqn:E; [|reflexivity].
      exfalso. apply H. now apply cacheUsable_iff.
  - intros now pageUrl read c Hne. apply Hmiss.
    destruct (cacheUsable now pageUrl true c) eqn:E; [|reflexivity].
    apply cacheUsable_iff in E as [Hu _]. contradiction.
  - intros pageUrl loaded state c Hne d.
    assert (Hd : navCache d = invalidate pageUrl /\ changed d = true).
    { unfold d, detectNavigationChange.
      apply streq_neq in Hne. rewrite Hne. cbn. now split. }
    destruct Hd as [Hc Hch]. rewrite Hc. repeat split; try assumption.
    intros now pageUrl' read. apply Hmiss.
    unfold cacheUsable, invalidate. cbn. now rewrite andb_false_r.
Qed.

End CacheProperties.

(** ** Locator resolution *)

Section ResolverProperties.

Import Resolver.

Variable frameCount : nat.
Variable count : Locator -> option nat.
Variable textLocator : Scope -> PilotQAAIAction -> jsstring -> option (option Locator).

Local Abbreviation resolve := (resolveLocator frameCount count textLocator).
Local Abbreviation tryIn' := (tryIn count textLocator).

Lemma tryIn_direct (a : PilotQAAIAction) (mk : Scope -> Locator) (p : Scope) :
  makeIn textLocator a p = Some (Some (mk p)) ->
  tryIn' a p = if matchesIn count mk p then Some (First (mk p)) else None.
Proof.
  intros H. unfold tryIn, matchesIn. rewrite H.
  destruct (count (mk p)) as [n|]; [|reflexivity]. now destruct (0 <? n)%nat.
Qed.

Lemma scanFrames_direct (a : PilotQAAIAction) (mk : Scope -> Locator) (fs : list nat) :
  (forall p, makeIn textLocator a p = Some (Some (mk p))) ->
  scanFrames count textLocator a fs
  = option_map (fun p => First (mk p)) (find (matchesIn count mk) (map Frame fs)).
Proof.
  intros H. induction fs as [|f fs IH]; cbn [scanFrames map find]; [reflexivity|].
  rewrite (tryIn_direct a mk (Frame f) (H _)).
  destruct (matchesIn count mk (Frame f)); [reflexivity | exact IH].
Qed.

Lemma resolve_direct (a : PilotQAAIAction) (mk : Scope -> Locator) :
  selectorType (raw a) <> Some none ->
  (forall p, makeIn textLocator a p = Some (Some (mk p))) ->
  resolve a = firstMatching frameCount count mk.
Proof.
  intros Hn H. unfold resolveLocator, firstMatching, scopes.
  cbn [find]. rewrite (tryIn_direct a mk MainPage (H _)).
  rewrite (scanFrames_direct a mk _ H).
  destruct (selectorType (raw a)) as [[| | |]|]; try congruence;
    now destruct (matchesIn count mk MainPage).
Qed.

(** C7, as amended: for the selector kind none the resolver answers null;
    for css and xpath it builds the direct locator from the selector (the
    selector itself, or the selector behind the xpath= prefix), with no
    heuristic candidate, and answers its first match in the first scope,
    page first and then each frame, where the locator matches at least one
    element; it answers null when the locator matches nowhere. *)
Theorem resolve_none_css_xpath (a : PilotQAAIAction) :
  (selectorType (raw a) = Some none -> resolve a = None)
  /\ (forall sel, selectorType (raw a) = Some css -> selector (raw a) = Some sel ->
      resolve a = firstMatching frameCount count (fun p => Locate p sel))
  /\ (forall sel, selectorType (raw a) = Some xpath -> selector (raw a) = Some sel ->
      resolve a = firstMatching frameCount count (fun p => Locate p (js "xpath=" ++ sel))).
Proof.
  split; [|split].
  - intros H. unfold resolveLocator. now rewrite H.
  - intros sel Ht Hs. apply resolve_direct; [congruence|].
    intros p. unfold makeIn. now rewrite Ht, Hs.
  - intros sel Ht Hs. apply resolve_direct; [congruence|].
    intros p. unfold makeIn. now rewrite Ht, Hs.
Qed.

End ResolverProperties.

(** C7, as stated, fails: a css selector that matches no element resolves
    to null and not to its direct locator, and when it matches, the answer
    is the first match of the locator. *)
Lemma css_without_match_resolves_to_null :
  Resolver.resolveLocator 1 Resolver.countsNothing Resolver.noTextSearch
    Resolver.missingCss = None
  /\ Resolver.resolveLocator 1 Resolver.countsTwo Resolver.noTextSearch
       Resolver.missingCss
     = Some (Resolver.First (Resolver.Locate Resolver.MainPage (js "#missing")))
  /\ Resolver.resolveLocator 1 Resolver.countsTwo Resolver.noTextSearch
       Resolver.missingCss
     <> Some (Resolver.Locate Resolver.MainPage (js "#missing")).
Proof.
  split; [reflexivity|]. split; [reflexivity|]. discriminate.
Qed.

(** ** The retry loop *)

Section EngineProperties.

Import Engine.

Variable maxRetries : nat.
Variable tryBody : nat -> jsstring -> RoundOutcome.
Variable pause : nat -> option JsError.

Local Abbreviation iteration' := (iteration maxRetries tryBody pause).
Local Abbreviation mainLoop' := (mainLoop maxRetries tryBody pause).



Lemma falsy_is_empty (s : jsstring) : truthy s = false -> s = [].
Proof. destruct s; [reflexivity | discriminate]. Qed.


(** A run in which every round throws and leaves alone a command that
    [stripVague] keeps, on a page where the pause resolves: after
    [maxRetries] attempts and a 900 ms pause between two attempts, the run
    throws. *)
Lemma failing_rounds_exhaust_retries (err : nat -> JsError) (cmd : jsstring) :
  (forall k c, tryBody k c = Threw (err k) c) ->
  (forall k, pause k = None) ->
  stripVague cmd = cmd -> cmd <> [] ->
  forall (left k fuel : nat) (le : option JsError) (done : list Effect),
    S left <= maxRetries -> S left <= fuel ->
    mainLoop' fuel k (mkLoop cmd (maxRetries - S left) le) done
    = Raised (failedAfter maxRetries (err (k + left)))
             (done ++ repeat (WaitForTimeout 900) left).
Proof.
  intros Hbody Hpause Hfix Hne. induction left as [|left IH]; intros k fuel le done Hm Hf.
  - destruct fuel as [|fuel]; [lia|]. cbn [mainLoop].
    unfold loopGuard. cbn [remainingCommand retryCount].
    rewrite (proj2 (truthy_nonempty cmd) Hne).
    rewrite (proj2 (Nat.ltb_lt _ _)) by lia. cbn [andb].
    unfold iteration. cbn [remainingCommand retryCount lastError].
    rewrite Hfix, (proj2 (truthy_nonempty cmd) Hne), Hbody. cbn [negb].
    unfold onError. cbn [retryCount].
    rewrite (proj2 (Nat.leb_le _ _)) by lia.
    now rewrite Nat.add_0_r, !app_nil_r.
  - destruct fuel as [|fuel]; [lia|]. cbn [mainLoop].
    unfold loopGuard. cbn [remainingCommand retryCount].
    rewrite (proj2 (truthy_nonempty cmd) Hne).
    rewrite (proj2 (Nat.ltb_lt _ _)) by lia. cbn [andb].
    unfold iteration. cbn [remainingCommand retryCount lastError].
    rewrite Hfix, (proj2 (truthy_nonempty cmd) Hne), Hbody. cbn [negb].
    unfold onError. cbn [retryCount remainingCommand].
    rewrite (proj2 (Nat.leb_gt _ _)) by lia. rewrite Hpause.
    replace (S (maxRetries - S (S left))) with (maxRetries - S left) by lia.
    rewrite IH by lia.
    rewrite <- app_assoc. cbn [app repeat].
    now replace (S k + left) with (k + S left) by lia.
Qed.

End EngineProperties.



(** The end-to-end scenario with the default three attempts: two pauses of
    900 ms, then the error that names the three attempts. *)
Example invalid_json_three_attempts :
  Engine.run 3 Engine.alwaysInvalidJson Engine.pauseResolves 5 (js "click Login")
  = Engine.Raised
      (newError (js "Failed after 3 attempts: LLM output is not a valid JSON actions array: Unexpected token"))
      [Engine.WaitForTimeout 900; Engine.WaitForTimeout 900].
Proof. vm_compute. reflexivity. Qed.

(** ** Vague-phrase stripping *)

Lemma lastSpace_cons (c : codeunit) (t : jsstring) :
  lastSpace (c :: t) = match t with [] => isSpace c | _ :: _ => lastSpace t end.
Proof. reflexivity. Qed.

Lemma trimEnd_last (s : jsstring) : lastSpace (trimEnd s) = false.
Proof.
  induction s as [|c t IH]; [reflexivity|]. cbn [trimEnd].
  destruct (trimEnd t) as [|d t'] eqn:E.
  - destruct (isSpace c) eqn:Ec; [reflexivity | simpl; exact Ec].
  - rewrite lastSpace_cons. exact IH.
Qed.

Lemma trimEnd_fixed (s : jsstring) : lastSpace s = false -> trimEnd s = s.
Proof.
  induction s as [|c t IH]; [reflexivity|]. rewrite lastSpace_cons. cbn [trimEnd].
  destruct t as [|d t'].
  - intros ->. reflexivity.
  - intros H. rewrite (IH H). reflexivity.
Qed.

Lemma trim_fixed (s : jsstring) :
  headSpace s = false -> lastSpace s = false -> trim s = s.
Proof. intros Hh Hl. apply trimEnd_trimmed; [now apply trimEnd_fixed | exact Hh]. Qed.

Lemma trim_last (s : jsstring) : lastSpace (trim s) = false.
Proof. apply trimEnd_last. Qed.

Lemma isQuote_not_space (c : codeunit) : isQuote c = true -> isSpace c = false.
Proof.
  unfold isQuote. intros H. apply orb_true_iff in H as [H|H];
    apply N.eqb_eq in H; subst; reflexivity.
Qed.

(** *** Collapsing quote runs *)

Lemma collapseFrom_true_head (s : jsstring) :
  match collapseFrom true s with c :: _ => isQuote c = false | [] => True end.
Proof.
  induction s as [|c t IH]; cbn [collapseFrom]; [exact I|].
  destruct (isQuote c) eqn:E; [exact IH | exact E].
Qed.

Lemma collapseFrom_cons (b : bool) (c : codeunit) (t : jsstring) :
  collapseFrom b (c :: t)
  = if isQuote c then
      if b then collapseFrom true t
      else match t with
           | d :: _ =>
               if isQuote d then 34%N :: collapseFrom true t
               else c :: collapseFrom false t
           | [] => [c]
           end
    else c :: collapseFrom false t.
Proof. reflexivity. Qed.

Lemma noQuoteRun_cons (c d : codeunit) (t : jsstring) :
  noQuoteRun (c :: d :: t) = negb (isQuote c && isQuote d) && noQuoteRun (d :: t).
Proof. reflexivity. Qed.

Lemma collapseFrom_noQuoteRun (b : bool) (s : jsstring) :
  noQuoteRun (collapseFrom b s) = true.
Proof.
  revert b. induction s as [|c t IH]; intros b; cbn [collapseFrom]; [reflexivity|].
  destruct (isQuote c) eqn:Ec.
  - destruct b; [apply IH|].
    destruct t as [|d t']; [reflexivity|].
    destruct (isQuote d) eqn:Ed.
    + pose proof (collapseFrom_true_head (d :: t')) as Hh. pose proof (IH true) as Hn.
      destruct (collapseFrom true (d :: t')) as [|x r]; [reflexivity|].
      rewrite noQuoteRun_cons, Hh, andb_false_r. exact Hn.
    + pose proof (IH false) as Hn. cbn [collapseFrom] in *. rewrite Ed in *.
      rewrite noQuoteRun_cons, Ed, andb_false_r. exact Hn.
  - pose proof (IH false) as Hn.
    destruct (collapseFrom false t) as [|x r]; [reflexivity|].
    rewrite noQuoteRun_cons, Ec. exact Hn.
Qed.

Lemma collapseFrom_fixed (s : jsstring) :
  noQuoteRun s = true -> collapseFrom false s = s.
Proof.
  induction s as [|c t IH]; [reflexivity|].
  rewrite collapseFrom_cons.
  destruct t as [|d t'].
  - intros _. now destruct (isQuote c).
  - rewrite noQuoteRun_cons.
    intros H. apply andb_true_iff in H as [Hq Hn].
    destruct (isQuote c) eqn:Ec.
    + destruct (isQuote d) eqn:Ed; [discriminate|]. now rewrite (IH Hn).
    + now rewrite (IH Hn).
Qed.

Lemma collapseQuotes_idem (s : jsstring) :
  collapseQuotes (collapseQuotes s) = collapseQuotes s.
Proof. apply collapseFrom_fixed, collapseFrom_noQuoteRun. Qed.

Lemma collapseFrom_head (s : jsstring) :
  headSpace s = false -> headSpace (collapseFrom false s) = false.
Proof.
  destruct s as [|c t]; [reflexivity|]. cbn [headSpace collapseFrom]. intros Hc.
  destruct (isQuote c) eqn:Ec; [|exact Hc].
  destruct t as [|d t']; [exact Hc|].
  destruct (isQuote d); [reflexivity | exact Hc].
Qed.

Lemma collapseFrom_last (b : bool) (s : jsstring) :
  lastSpace s = false -> lastSpace (collapseFrom b s) = false.
Proof.
  revert b. induction s as [|c t IH]; intros b; [reflexivity|].
  rewrite lastSpace_cons. cbn [collapseFrom]. intros Hl.
  assert (Ht : forall b', lastSpace (collapseFrom b' t) = false).
  { intros b'. destruct t as [|d t']; [reflexivity | now apply IH]. }
  destruct (isQuote c) eqn:Ec.
  - destruct b; [apply Ht|].
    destruct t as [|d t']; [simpl; now apply isQuote_not_space|].
    destruct (isQuote d) eqn:Ed.
    + rewrite lastSpace_cons. specialize (Ht true).
      destruct (collapseFrom true (d :: t')); [reflexivity | exact Ht].
    + rewrite lastSpace_cons. specialize (Ht false).
      destruct (collapseFrom false (d :: t')) eqn:E; [|exact Ht].
      cbn [collapseFrom] in E. rewrite Ed in E. discriminate.
  - rewrite lastSpace_cons. specialize (Ht false).
    destruct (collapseFrom false t) eqn:E; [|exact Ht].
    destruct t as [|d t']; [exact Hl|].
    exfalso. cbn [collapseFrom] in E.
    destruct (isQuote d); [destruct t' as [|d' t'']; [discriminate|];
                           destruct (isQuote d'); discriminate | discriminate].
Qed.

Lemma dropStray_idem (s : jsstring) : dropStray (dropStray s) = dropStray s.
Proof.
  unfold dropStray. destruct (truthy s && forallb isStray s) eqn:E; [reflexivity|].
  now rewrite E.
Qed.

(** [tidy] leaves a trimmed string trimmed, and does nothing to its own
    result. *)
Lemma tidy_trimmed (s : jsstring) : trim s = s -> trim (tidy s) = tidy s.
Proof.
  intros H. unfold tidy, dropStray.
  destruct (truthy (collapseQuotes s) && forallb isStray (collapseQuotes s));
    [reflexivity|].
  apply trim_fixed.
  - apply collapseFrom_head. rewrite <- H. apply trim_head.
  - apply collapseFrom_last. rewrite <- H. apply trim_last.
Qed.

Lemma tidy_idem (s : jsstring) : tidy (tidy s) = tidy s.
Proof.
  unfold tidy at 2 3. unfold dropStray.
  destruct (truthy (collapseQuotes s) && forallb isStray (collapseQuotes s)) eqn:E;
    [reflexivity|].
  unfold tidy. rewrite collapseQuotes_idem. unfold dropStray. now rewrite E.
Qed.

(** *** Cutting at the end-anchored match *)

Lemma beginsWith_refl (s : jsstring) : beginsWith s s.
Proof. exists []. now rewrite app_nil_r. Qed.

Lemma beginsWith_trans (a b c : jsstring) :
  beginsWith a b -> beginsWith b c -> beginsWith a c.
Proof. intros [r1 ->] [r2 ->]. exists (r1 ++ r2). now rewrite app_assoc. Qed.

Lemma beginsWith_head (q s : jsstring) :
  beginsWith q s -> headSpace s = false -> headSpace q = false.
Proof. intros [r ->]. now destruct q. Qed.

Lemma cutAtMatch_unfold (r : rx) (s : jsstring) :
  cutAtMatch r s
  = if matchesToEnd r s then []
    else match s with [] => [] | c :: t => c :: cutAtMatch r t end.
Proof. destruct s; reflexivity. Qed.

(** Either nothing matches and the string is kept, or the string is cut
    where a suffix matches up to the end. *)
Lemma cutAtMatch_shape (r : rx) (s : jsstring) :
  cutAtMatch r s = s
  \/ exists phrase, s = cutAtMatch r s ++ phrase /\ matchesToEnd r phrase = true.
Proof.
  induction s as [|c t IH]; rewrite cutAtMatch_unfold.
  - destruct (matchesToEnd r []) eqn:E; [right; now exists [] | now left].
  - destruct (matchesToEnd r (c :: t)) eqn:E; [right; now exists (c :: t)|].
    destruct IH as [IH|[phrase [Hs Hm]]].
    + left. now rewrite IH.
    + right. exists phrase. split; [|exact Hm]. cbn [app]. now rewrite <- Hs.
Qed.

Lemma cutAtMatch_prefix (r : rx) (s : jsstring) : beginsWith (cutAtMatch r s) s.
Proof.
  destruct (cutAtMatch_shape r s) as [H|[phrase [H _]]].
  - rewrite H. apply beginsWith_refl.
  - now exists phrase.
Qed.

Lemma cutAtMatch_no_match (r : rx) (s : jsstring) :
  (forall before phrase, s = before ++ phrase -> matchesToEnd r phrase = false) ->
  cutAtMatch r s = s.
Proof.
  intros H. destruct (cutAtMatch_shape r s) as [E|[phrase [Hs Hm]]]; [exact E|].
  rewrite (H _ _ Hs) in Hm. discriminate.
Qed.

(** The cut falls at or before the start of any suffix that matches. *)
Lemma cutAtMatch_before (r : rx) (before phrase : jsstring) :
  matchesToEnd r phrase = true ->
  beginsWith (cutAtMatch r (before ++ phrase)) before.
Proof.
  intros Hm. induction before as [|c b IH]; rewrite cutAtMatch_unfold.
  - cbn [app]. rewrite Hm. apply beginsWith_refl.
  - destruct (matchesToEnd r ((c :: b) ++ phrase)); [now exists (c :: b)|].
    cbn [app]. destruct IH as [rest Hr]. exists rest. cbn [app]. now rewrite <- Hr.
Qed.

Lemma trimEnd_prefix (s : jsstring) : beginsWith (trimEnd s) s.
Proof.
  induction s as [|c t IH]; [apply beginsWith_refl|]. cbn [trimEnd].
  destruct IH as [rest Hr]. destruct (trimEnd t) as [|d t'] eqn:E.
  - destruct (isSpace c); [now exists (c :: t) | now exists t].
  - exists rest. cbn [app] in *. now rewrite <- Hr.
Qed.

Lemma trim_prefix (s : jsstring) : headSpace s = false -> beginsWith (trim s) s.
Proof. intros H. unfold trim. rewrite (trimStart_fixed s H). apply trimEnd_prefix. Qed.

(** One turn of the loop on a trimmed string gives a trimmed prefix. *)
Lemma strip_step_prefix (r : rx) (s : jsstring) :
  headSpace s = false -> beginsWith (trim (cutAtMatch r s)) s.
Proof.
  intros H. eapply beginsWith_trans; [|apply cutAtMatch_prefix].
  apply trim_prefix. eapply beginsWith_head; [apply cutAtMatch_prefix | exact H].
Qed.

Lemma stripPatterns_trimmed (ps : list rx) (o : jsstring) :
  trim o = o -> trim (stripPatterns ps o) = stripPatterns ps o.
Proof.
  revert o. induction ps as [|r ps IH]; intros o H; [exact H|].
  cbn [stripPatterns fold_left]. apply IH, trim_idem.
Qed.

Lemma stripPatterns_fixed (ps : list rx) (y : jsstring) :
  trim y = y -> (forall r, In r ps -> cutAtMatch r y = y) -> stripPatterns ps y = y.
Proof.
  intros Ht. induction ps as [|r ps IH]; intros H; [reflexivity|].
  cbn [stripPatterns fold_left]. rewrite (H r (or_introl eq_refl)), Ht.
  apply IH. intros r' Hr'. apply H. now right.
Qed.

Lemma stripVague_trimmed (x : jsstring) : trim (stripVague x) = stripVague x.
Proof.
  unfold stripVague. destruct (truthy x); [|reflexivity]. cbn [negb].
  apply (tidy_trimmed (stripPatterns VAGUE_ENDING_PATTERNS (trim x))).
  apply stripPatterns_trimmed, trim_idem.
Qed.

(** A result of [stripVague] that does not end with a supported phrase is
    left alone by [stripVague]. *)
Lemma stripVague_settled (x : jsstring) :
  ~ vagueEnding (stripVague x) -> stripVague (stripVague x) = stripVague x.
Proof.
  intros Hno. pose proof (stripVague_trimmed x) as Ht.
  assert (Hfix : stripPatterns VAGUE_ENDING_PATTERNS (stripVague x) = stripVague x).
  { apply stripPatterns_fixed; [exact Ht|]. intros r Hr.
    apply cutAtMatch_no_match. intros before phrase Hs.
    destruct (matchesToEnd r phrase) eqn:E; [|reflexivity].
    exfalso. apply Hno. now exists r, before, phrase. }
  unfold stripVague at 1.
  destruct (truthy (stripVague x)) eqn:Enz; cbn [negb].
  - rewrite Ht, Hfix. unfold stripVague. destruct (truthy x); [|reflexivity].
    cbn [negb]. apply tidy_idem.
  - destruct (stripVague x); [reflexivity | discriminate].
Qed.

(** *** No phrase starts inside another *)

Lemma isTail_canonical (c : codeunit) : isTail c = true -> canonicalize c = c.
Proof.
  unfold canonicalize. destruct ((97 <=? c) && (c <=? 122))%N eqn:E; [|reflexivity].
  apply andb_true_iff in E as [E1 E2].
  apply N.leb_le in E1. apply N.leb_le in E2.
  unfold isTail, isSpace. cbn [existsb].
  repeat match goal with
         | |- context [(c =? ?k)%N] => rewrite (proj2 (N.eqb_neq c k)) by lia
         | |- context [(c <=? ?k)%N] => rewrite (proj2 (N.leb_gt c k)) by lia
         | |- context [(?k <=? c)%N] => rewrite (proj2 (N.leb_gt k c)) by lia
         | |- context [(?k <=? c)%N] => rewrite (proj2 (N.leb_le k c)) by lia
         end.
  discriminate.
Qed.

Lemma stripPrefixCI_canon (p s rest : jsstring) :
  stripPrefixCI p s = Some rest ->
  exists s1, s = s1 ++ rest /\ canon s1 = canon p.
Proof.
  revert s. induction p as [|x p IH]; intros s; cbn [stripPrefixCI].
  - intros [= <-]. now exists [].
  - destruct s as [|y s]; [discriminate|].
    destruct (N.eqb (canonicalize x) (canonicalize y)) eqn:E; [|discriminate].
    intros H. destruct (IH _ H) as [s1 [-> Hc]]. exists (y :: s1).
    split; [reflexivity|]. apply N.eqb_eq in E.
    unfold canon in *. cbn [map]. now rewrite Hc, E.
Qed.

Lemma matchPrefix_enumerate (r : rx) (s rest : jsstring) :
  In rest (matchPrefix r s) ->
  exists p s1, In p (enumerate r) /\ s = s1 ++ rest /\ canon s1 = canon p.
Proof.
  revert s rest. induction r as [l|a IHa b IHb|a IHa b IHb|a IHa];
    intros s rest; cbn [matchPrefix enumerate].
  - destruct (stripPrefixCI l s) as [rest'|] eqn:E; [|intros []].
    intros [<-|[]]. destruct (stripPrefixCI_canon _ _ _ E) as [s1 [Hs Hc]].
    exists l, s1. repeat split; [now left | assumption..].
  - intros H. apply in_flat_map in H as [mid [Hmid Hrest]].
    destruct (IHa _ _ Hmid) as (pa & s1 & Hpa & -> & Hca).
    destruct (IHb _ _ Hrest) as (pb & s2 & Hpb & -> & Hcb).
    exists (pa ++ pb), (s1 ++ s2). repeat split.
    + apply in_flat_map. exists pa. split; [exact Hpa|]. now apply in_map.
    + now rewrite app_assoc.
    + unfold canon in *. now rewrite !map_app, Hca, Hcb.
  - intros H. apply in_app_or in H as [H|H].
    + destruct (IHa _ _ H) as (p & s1 & Hp & Hs & Hc).
      exists p, s1. repeat split; [apply in_or_app; now left | assumption..].
    + destruct (IHb _ _ H) as (p & s1 & Hp & Hs & Hc).
      exists p, s1. repeat split; [apply in_or_app; now right | assumption..].
  - intros H. apply in_app_or in H as [H|[<-|[]]].
    + destruct (IHa _ _ H) as (p & s1 & Hp & Hs & Hc).
      exists p, s1. repeat split; [apply in_or_app; now left | assumption..].
    + exists [], []. repeat split. apply in_or_app. right. now left.
Qed.

Lemma firstLit_needed (r : rx) (l s : jsstring) :
  firstLit r = Some l -> matchPrefix r s <> [] -> stripPrefixCI l s <> None.
Proof.
  revert s. induction r as [l'|a IHa b IHb|a IHa b IHb|a IHa]; intros s;
    cbn [firstLit matchPrefix]; try discriminate.
  - intros [= ->]. now destruct (stripPrefixCI l s).
  - intros Hl Hne. apply IHa; [exact Hl|]. intros E. rewrite E in Hne. now apply Hne.
Qed.

Lemma stripPrefixCI_app (h l s : jsstring) :
  stripPrefixCI (h ++ l) s <> None -> stripPrefixCI h s <> None.
Proof.
  revert s. induction h as [|x h IH]; intros s; cbn [app stripPrefixCI]; [discriminate|].
  destruct s as [|y s]; [easy|].
  destruct (N.eqb (canonicalize x) (canonicalize y)); [apply IH | easy].
Qed.

(** A text that matches a pattern up to the end begins with one of the
    verbs. *)
Lemma matchesToEnd_head (r : rx) (w : jsstring) :
  In r VAGUE_ENDING_PATTERNS -> matchesToEnd r w = true ->
  exists h rest, In h heads /\ stripPrefixCI h w = Some rest.
Proof.
  intros Hr Hm.
  assert (Hh : headedPatterns = true) by (vm_compute; reflexivity).
  unfold headedPatterns in Hh. rewrite forallb_forall in Hh. specialize (Hh r Hr).
  destruct (firstLit r) as [l|] eqn:El; [|discriminate].
  apply existsb_exists in Hh as [h [Hin Hs]].
  apply startsWith_beginsWith in Hs as [l' ->].
  assert (Hne : matchPrefix r w <> []).
  { unfold matchesToEnd in Hm. intros E. rewrite E in Hm. discriminate. }
  pose proof (stripPrefixCI_app h l' w (firstLit_needed r _ w El Hne)) as Hp.
  destruct (stripPrefixCI h w) as [rest|] eqn:E; [|contradiction].
  exists h, rest. split; [exact Hin | exact E].
Qed.

Lemma stripPrefixCI_tail (h tl rest : jsstring) :
  stripPrefixCI h tl = Some rest -> forallb isTail tl = true ->
  forallb isTail (canon h) = true.
Proof.
  revert tl. induction h as [|x h IH]; intros tl; cbn [stripPrefixCI]; [reflexivity|].
  destruct tl as [|y tl]; [discriminate|].
  destruct (N.eqb (canonicalize x) (canonicalize y)) eqn:E; [|discriminate].
  intros H Ht. cbn [forallb] in Ht. apply andb_true_iff in Ht as [Hy Ht].
  cbn [canon map forallb]. apply N.eqb_eq in E.
  rewrite E, (isTail_canonical y Hy), Hy. cbn [andb]. exact (IH _ H Ht).
Qed.

Lemma stripPrefixCI_fits (h s1 tl rest : jsstring) :
  stripPrefixCI h (s1 ++ tl) = Some rest -> forallb isTail tl = true ->
  fits (canon s1) (canon h) = true.
Proof.
  revert s1. induction h as [|x h IH]; intros s1; [reflexivity|].
  destruct s1 as [|y s1].
  - cbn [app]. intros H Ht. cbn [canon map fits].
    exact (stripPrefixCI_tail (x :: h) tl rest H Ht).
  - cbn [app stripPrefixCI canon map fits].
    destruct (N.eqb (canonicalize x) (canonicalize y)); [|discriminate].
    intros H Ht. cbn [andb]. exact (IH _ H Ht).
Qed.

(** What is left of [s1 ++ tl] after a non-empty prefix. *)
Lemma strict_suffix (s1 tl q w : jsstring) :
  s1 ++ tl = q ++ w -> q <> [] -> forallb isTail tl = true ->
  exists s1' tl',
    w = s1' ++ tl' /\ forallb isTail tl' = true
    /\ In (canon s1') (strictTails (canon s1)).
Proof.
  revert q. induction s1 as [|c s1 IH]; intros q H Hq Ht.
  - cbn [app] in H. exists [], w. split; [reflexivity|]. split; [|now left].
    subst tl. rewrite forallb_app in Ht. now apply andb_true_iff in Ht as [_ Ht].
  - destruct q as [|c' q]; [contradiction|]. cbn [app] in H. injection H as <- H.
    destruct q as [|c'' q].
    + cbn [app] in H. subst w. exists s1, tl. split; [reflexivity|].
      split; [exact Ht | now left].
    + destruct (IH (c'' :: q) H ltac:(discriminate) Ht) as (s1' & tl' & Hw & Ht' & Hin).
      exists s1', tl'. split; [exact Hw|]. split; [exact Ht'|]. now right.
Qed.

(** No supported phrase starts strictly inside a text that matches a
    pattern up to the end. *)
Lemma no_phrase_inside (ri rk : rx) (phrase q w : jsstring) :
  In ri VAGUE_ENDING_PATTERNS -> In rk VAGUE_ENDING_PATTERNS ->
  matchesToEnd ri phrase = true -> phrase = q ++ w -> q <> [] ->
  matchesToEnd rk w = false.
Proof.
  intros Hi Hk Hm Hs Hq.
  destruct (matchesToEnd rk w) eqn:Ek; [exfalso|reflexivity].
  destruct (matchesToEnd_head rk w Hk Ek) as (h & rest & Hh & Hp).
  unfold matchesToEnd in Hm. apply existsb_exists in Hm as [tl [Hin Ht]].
  destruct (matchPrefix_enumerate _ _ _ Hin) as (p & s1 & Hp' & Hphrase & Hc).
  rewrite Hphrase in Hs.
  destruct (strict_suffix _ _ _ _ Hs Hq Ht) as (s1' & tl' & -> & Ht' & Htails).
  pose proof (stripPrefixCI_fits _ _ _ _ Hp Ht') as Hfits.
  assert (Hno : noInnerStart = true) by (vm_compute; reflexivity).
  unfold noInnerStart in Hno. rewrite forallb_forall in Hno.
  specialize (Hno ri Hi). rewrite forallb_forall in Hno.
  specialize (Hno p Hp'). rewrite forallb_forall in Hno.
  rewrite <- Hc in Hno. specialize (Hno _ Htails).
  rewrite forallb_forall in Hno. specialize (Hno h Hh).
  rewrite Hfits in Hno. discriminate.
Qed.

(** *** The phrase at the end is removed *)

Lemma trimmed_head (s : jsstring) : trim s = s -> headSpace s = false.
Proof. intros <-. apply trim_head. Qed.

(** On the trimmed input [t = before ++ phrase], where [phrase] matches the
    pattern [ri] up to the end, a turn of the loop either leaves [t] alone
    or cuts it inside [before]. *)
Lemma cut_inside_before (ri r : rx) (before phrase : jsstring) :
  In ri VAGUE_ENDING_PATTERNS -> In r VAGUE_ENDING_PATTERNS ->
  matchesToEnd ri phrase = true ->
  cutAtMatch r (before ++ phrase) = before ++ phrase
  \/ beginsWith (cutAtMatch r (before ++ phrase)) before.
Proof.
  intros Hi Hr Hm.
  destruct (cutAtMatch_shape r (before ++ phrase)) as [E|[w [Hs Hw]]]; [now left|].
  right. apply app_eq_app in Hs as [a [[Hb _]|[Hc Hp]]].
  - now exists a.
  - destruct a as [|c a].
    + rewrite app_nil_r in Hc. rewrite Hc. apply beginsWith_refl.
    + rewrite (no_phrase_inside ri r phrase (c :: a) w Hi Hr Hm Hp) in Hw;
        discriminate.
Qed.

Lemma stripPatterns_before (ri : rx) (before phrase : jsstring) :
  In ri VAGUE_ENDING_PATTERNS -> matchesToEnd ri phrase = true ->
  trim (before ++ phrase) = before ++ phrase ->
  forall (ps : list rx) (cur : jsstring),
    (forall r, In r ps -> In r VAGUE_ENDING_PATTERNS) ->
    trim cur = cur ->
    (cur = before ++ phrase /\ In ri ps) \/ beginsWith cur before ->
    beginsWith (stripPatterns ps cur) before.
Proof.
  intros Hi Hm Ht. induction ps as [|r ps IH]; intros cur Hps Hcur Hinv.
  - destruct Hinv as [[_ []]|H]. exact H.
  - cbn [stripPatterns fold_left].
    apply IH; [intros r' Hr'; apply Hps; now right | apply trim_idem |].
    destruct Hinv as [[-> Hin]|Hpre].
    + assert (Hr : In r VAGUE_ENDING_PATTERNS) by (apply Hps; now left).
      destruct (cut_inside_before ri r before phrase Hi Hr Hm) as [E|Hcut].
      * rewrite E, Ht. destruct Hin as [->|Hin]; [|now left].
        right. rewrite <- E. now apply cutAtMatch_before.
      * right. eapply beginsWith_trans; [|exact Hcut].
        apply trim_prefix. eapply beginsWith_head; [apply cutAtMatch_prefix|].
        now apply trimmed_head.
    + right. eapply beginsWith_trans; [|exact Hpre].
      apply strip_step_prefix. now apply trimmed_head.
Qed.

(** C6, as amended: whenever the trimmed input ends with a supported vague
    phrase, followed at most by units of the tail class, [stripVague] keeps
    only text that stands before that phrase, tidied by the two closing
    replacements; and [stripVague] leaves alone every one of its results that
    does not itself end with a supported phrase. *)
Theorem stripVague_removes_and_settles (x : jsstring) :
  (forall (r : rx) (before phrase : jsstring),
     In r VAGUE_ENDING_PATTERNS ->
     trim x = before ++ phrase -> matchesToEnd r phrase = true ->
     exists kept, beginsWith kept before /\ stripVague x = tidy kept)
  /\ (~ vagueEnding (stripVague x) -> stripVague (stripVague x) = stripVague x).
Proof.
  split; [|apply stripVague_settled].
  intros r before phrase Hr Hx Hm.
  exists (stripPatterns VAGUE_ENDING_PATTERNS (trim x)). split.
  - rewrite Hx. apply (stripPatterns_before r before phrase Hr Hm).
    + rewrite <- Hx. apply trim_idem.
    + auto.
    + rewrite <- Hx. apply trim_idem.
    + left. split; [reflexivity | exact Hr].
  - unfold stripVague. destruct (truthy x) eqn:E; [reflexivity|].
    destruct x; [|discriminate]. cbn in Hx.
    destruct before, phrase; try discriminate.
    exfalso.
    assert (H : forallb (fun r => negb (matchesToEnd r [])) VAGUE_ENDING_PATTERNS = true)
      by (vm_compute; reflexivity).
    rewrite forallb_forall in H. specialize (H r Hr).
    rewrite Hm in H. discriminate.
Qed.

(** C6, as stated, fails: the patterns are tried once each, in list order,
    so a phrase of the fifth pattern uncovered by the sixth stays, and a
    second call removes it. *)
Lemma stripVague_not_idempotent :
  stripVague (js "check page verify page") = js "check page"
  /\ stripVague (stripVague (js "check page verify page")) = []
  /\ stripVague (stripVague (js "check page verify page"))
     <> stripVague (js "check page verify page").
Proof.
  split; [vm_compute; reflexivity|]. split; [vm_compute; reflexivity|].
  vm_compute. discriminate.
Qed.

(** The phrases quoted by the specification are removed, with the marks that
    follow them; what stands before is kept as it is. *)
Example stripVague_samples :
  stripVague (js "click Login. Verify that everything looks GOOD!!  ") = js "click Login."
  /\ stripVague (js "check the page is ok") = []
  /\ stripVague (js "verify everything looks good") = []
  /\ stripVague (js "click Login then wait 2 seconds") = js "click Login then wait 2 seconds".
Proof. repeat split; vm_compute; reflexivity. Qed.

(* ===================================================================== *)
(** * Part III: the rest of the runtime                                   *)
(* ===================================================================== *)

(** ** utils.ts *)

Section UtilsProperties.

Import Utils.

Lemma indexOf_first (c : codeunit) (pre rest : jsstring) :
  ~ In c pre -> indexOf c (pre ++ c :: rest) = Some (length pre).
Proof.
  induction pre as [|x pre IH]; intros Hn; cbn [app indexOf length].
  - now rewrite N.eqb_refl.
  - destruct (N.eqb x c) eqn:E.
    + apply N.eqb_eq in E. exfalso. apply Hn. now left.
    + rewrite IH; [reflexivity|]. intros H. apply Hn. now right.
Qed.

Lemma lastIndexOf_last (c : codeunit) (pre post : jsstring) :
  ~ In c post -> lastIndexOf c (pre ++ c :: post) = Some (length pre).
Proof.
  intros Hn.
  assert (Hpost : lastIndexOf c post = None).
  { induction post as [|x post IH]; [reflexivity|]. cbn [lastIndexOf].
    rewrite IH by (intros H; apply Hn; now right).
    destruct (N.eqb x c) eqn:E; [|reflexivity].
    apply N.eqb_eq in E. exfalso. apply Hn. now left. }
  induction pre as [|x pre IH]; cbn [app lastIndexOf length].
  - now rewrite Hpost, N.eqb_refl.
  - now rewrite IH.
Qed.

Lemma indexOf_none (c : codeunit) (s : jsstring) :
  indexOf c s = None -> ~ In c s.
Proof.
  induction s as [|x s IH]; cbn [indexOf]; [intros _ []|].
  destruct (N.eqb x c) eqn:E; [discriminate|].
  destruct (indexOf c s); [discriminate|]. intros _ [H|H].
  - apply N.eqb_neq in E. contradiction.
  - now apply IH.
Qed.

Lemma indexOf_split (c : codeunit) (s : jsstring) (i : nat) :
  indexOf c s = Some i ->
  exists pre rest, s = pre ++ c :: rest /\ ~ In c pre /\ length pre = i.
Proof.
  revert i. induction s as [|x s IH]; intros i; cbn [indexOf]; [discriminate|].
  destruct (N.eqb x c) eqn:E.
  - intros [= <-]. apply N.eqb_eq in E. subst. now exists [], s.
  - destruct (indexOf c s) as [j|]; [|discriminate]. intros [= <-].
    destruct (IH j eq_refl) as (pre & rest & -> & Hn & Hl).
    exists (x :: pre), rest. repeat split.
    + intros [H|H]; [apply N.eqb_neq in E; contradiction | contradiction].
    + cbn. now rewrite Hl.
Qed.

Lemma lastIndexOf_split (c : codeunit) (s : jsstring) (i : nat) :
  lastIndexOf c s = Some i ->
  exists pre post, s = pre ++ c :: post /\ ~ In c post /\ length pre = i.
Proof.
  revert i. induction s as [|x s IH]; intros i; cbn [lastIndexOf]; [discriminate|].
  destruct (lastIndexOf c s) as [j|] eqn:El.
  - intros [= <-]. destruct (IH j eq_refl) as (pre & post & -> & Hn & Hl).
    exists (x :: pre), post. repeat split; [exact Hn | cbn; now rewrite Hl].
  - destruct (N.eqb x c) eqn:E; [|discriminate]. intros [= <-].
    apply N.eqb_eq in E. subst. exists [], s. repeat split.
    clear IH. induction s as [|y s IHs]; [intros []|]. cbn [lastIndexOf] in El.
    destruct (lastIndexOf c s); [discriminate|].
    destruct (N.eqb y c) eqn:Ey; [discriminate|].
    intros [H|H]; [apply N.eqb_neq in Ey; contradiction | now apply IHs].
Qed.

Lemma slice_middle (pre mid post : jsstring) :
  slice (length pre) (length pre + length mid) (pre ++ mid ++ post) = mid.
Proof.
  unfold slice. rewrite skipn_app, skipn_all, Nat.sub_diag. cbn [skipn app].
  replace (length pre + length mid - length pre) with (length mid) by lia.
  rewrite firstn_app, firstn_all, Nat.sub_diag. cbn [firstn]. apply app_nil_r.
Qed.

Lemma extractJsonArray_between (pre mid post : jsstring) :
  ~ In openBracket pre -> ~ In closeBracket post ->
  extractJsonArray (pre ++ openBracket :: mid ++ closeBracket :: post)
  = openBracket :: mid ++ [closeBracket].
Proof.
  intros Hpre Hpost. unfold extractJsonArray.
  rewrite (indexOf_first _ pre _ Hpre).
  replace (pre ++ openBracket :: mid ++ closeBracket :: post)
    with ((pre ++ openBracket :: mid) ++ closeBracket :: post)
    by (rewrite <- app_assoc; reflexivity).
  rewrite (lastIndexOf_last _ _ post Hpost).
  rewrite length_app. cbn [length].
  destruct (length pre + S (length mid) <=? length pre) eqn:E;
    [apply Nat.leb_le in E; lia|].
  replace ((pre ++ openBracket :: mid) ++ closeBracket :: post)
    with (pre ++ (openBracket :: mid ++ [closeBracket]) ++ post)
    by (cbn [app]; rewrite <- !app_assoc; reflexivity).
  replace (length pre + S (length mid) + 1)
    with (length pre + length (openBracket :: mid ++ [closeBracket]))
    by (cbn [length]; rewrite length_app; cbn [length]; lia).
  apply slice_middle.
Qed.

(** X1: when the text has an opening bracket before its last closing bracket,
    what comes back is the span from the first opening bracket to the last
    closing bracket, both included. *)
Theorem extractJsonArray_span (pre mid post : jsstring) :
  ~ In openBracket pre -> ~ In closeBracket post ->
  extractJsonArray (pre ++ openBracket :: mid ++ closeBracket :: post)
  = openBracket :: mid ++ [closeBracket].
Proof.
  intros Hpre Hpost. unfold extractJsonArray.
  rewrite (indexOf_first _ pre _ Hpre).
  replace (pre ++ openBracket :: mid ++ closeBracket :: post)
    with ((pre ++ openBracket :: mid) ++ closeBracket :: post)
    by (rewrite <- app_assoc; reflexivity).
  rewrite (lastIndexOf_last _ _ post Hpost).
  rewrite length_app. cbn [length].
  destruct (length pre + S (length mid) <=? length pre) eqn:E;
    [apply Nat.leb_le in E; lia|].
  replace ((pre ++ openBracket :: mid) ++ closeBracket :: post)
    with (pre ++ (openBracket :: mid ++ [closeBracket]) ++ post)
    by (cbn [app]; rewrite <- !app_assoc; reflexivity).
  replace (length pre + S (length mid) + 1)
    with (length pre + length (openBracket :: mid ++ [closeBracket]))
    by (cbn [length]; rewrite length_app; cbn [length]; lia).
  apply slice_middle.
Qed.

Lemma extractJsonArray_span_witness :
  extractJsonArray (js "Sure: " ++ openBracket :: js "1, [2]" ++ closeBracket :: js " done")
  = openBracket :: js "1, [2]" ++ [closeBracket].
Proof.
  apply (extractJsonArray_span (js "Sure: ") (js "1, [2]") (js " done")).
  - vm_compute. intuition discriminate.
  - vm_compute. intuition discriminate.
Defined.

(** X2: every answer of [extractJsonArray] is either its argument or such a
    span cut out of it; in both cases a second call changes nothing. *)
Theorem extractJsonArray_idempotent (raw : jsstring) :
  (extractJsonArray raw = raw
   \/ exists pre mid post,
        raw = pre ++ openBracket :: mid ++ closeBracket :: post
        /\ ~ In openBracket pre /\ ~ In closeBracket post
        /\ extractJsonArray raw = openBracket :: mid ++ [closeBracket])
  /\ extractJsonArray (extractJsonArray raw) = extractJsonArray raw.
Proof.
  assert (Hshape : extractJsonArray raw = raw
   \/ exists pre mid post,
        raw = pre ++ openBracket :: mid ++ closeBracket :: post
        /\ ~ In openBracket pre /\ ~ In closeBracket post
        /\ extractJsonArray raw = openBracket :: mid ++ [closeBracket]).
  { unfold extractJsonArray at 1.
    destruct (indexOf openBracket raw) as [start|] eqn:Ei; [|now left].
    destruct (lastIndexOf closeBracket raw) as [end_|] eqn:El; [|now left].
    destruct (end_ <=? start) eqn:E; [now left|]. right.
    apply Nat.leb_gt in E.
    destruct (indexOf_split _ _ _ Ei) as (pre & rest & Hraw & Hpre & Hlp).
    destruct (lastIndexOf_split _ _ _ El) as (pre' & post & Hraw' & Hpost & Hlp').
    assert (Hrest : exists mid, rest = mid ++ closeBracket :: post).
    { rewrite Hraw in Hraw'. apply app_eq_app in Hraw' as [l [[H1 H2]|[H1 H2]]].
      - exfalso. subst pre. rewrite length_app in Hlp. lia.
      - destruct l as [|y l].
        + exfalso. rewrite app_nil_r in H1. subst pre'. lia.
        + cbn [app] in H2. injection H2 as <- ->. now exists l. }
    destruct Hrest as [mid ->].
    exists pre, mid, post. repeat split; try assumption.
    rewrite Hraw. now apply extractJsonArray_between. }
  split; [exact Hshape|].
  destruct Hshape as [H|(pre & mid & post & _ & _ & _ & ->)]; [now rewrite !H|].
  apply (extractJsonArray_between [] mid []); intros [].
Qed.

End UtilsProperties.

Section EscapeProperties.

Import Utils.

Lemma replaceAll_app (c : codeunit) (rep a b : jsstring) :
  replaceAll c rep (a ++ b) = replaceAll c rep a ++ replaceAll c rep b.
Proof. apply flat_map_app. Qed.

Lemma escapeHtml_one (x : codeunit) : escapeHtml [x] = escapeUnit x.
Proof.
  unfold escapeUnit.
  destruct (N.eqb x 38) eqn:E1; [apply N.eqb_eq in E1; subst; reflexivity|].
  destruct (N.eqb x 60) eqn:E2;
    [apply N.eqb_eq in E2; subst; reflexivity|].
  destruct (N.eqb x 62) eqn:E3;
    [apply N.eqb_eq in E3; subst; reflexivity|].
  destruct (N.eqb x 34) eqn:E4;
    [apply N.eqb_eq in E4; subst; reflexivity|].
  destruct (N.eqb x 39) eqn:E5;
    [apply N.eqb_eq in E5; subst; reflexivity|].
  unfold escapeHtml, replaceAll. cbn [flat_map app].
  rewrite E1. cbn [flat_map app]. rewrite E2. cbn [flat_map app].
  rewrite E3. cbn [flat_map app]. rewrite E4. cbn [flat_map app].
  now rewrite E5.
Qed.

Lemma escapeHtml_app (a b : jsstring) :
  escapeHtml (a ++ b) = escapeHtml a ++ escapeHtml b.
Proof. unfold escapeHtml. now rewrite !replaceAll_app. Qed.

Lemma escapeHtml_cons (x : codeunit) (s : jsstring) :
  escapeHtml (x :: s) = escapeUnit x ++ escapeHtml s.
Proof.
  change (x :: s) with ([x] ++ s). now rewrite escapeHtml_app, escapeHtml_one.
Qed.

Lemma escapeUnit_clean (x : codeunit) :
  forallb (fun c => negb (isMarkup c)) (escapeUnit x) = true.
Proof.
  unfold escapeUnit.
  destruct (N.eqb x 38) eqn:E1; [reflexivity|].
  destruct (N.eqb x 60) eqn:E2; [reflexivity|].
  destruct (N.eqb x 62) eqn:E3; [reflexivity|].
  destruct (N.eqb x 34) eqn:E4; [reflexivity|].
  destruct (N.eqb x 39) eqn:E5; [reflexivity|].
  cbn [forallb]. unfold isMarkup. now rewrite E2, E3, E4, E5.
Qed.

(** X3: the five replacements of [escapeHtml], run one after the other, do not
    touch each other's output: the result is the text with each unit replaced
    by its own entity, and it holds none of the marks [<], [>] and the two
    quote marks. *)
Theorem escapeHtml_entities (str : jsstring) :
  escapeHtml str = flat_map escapeUnit str
  /\ forallb (fun c => negb (isMarkup c)) (escapeHtml str) = true.
Proof.
  induction str as [|x s [IH1 IH2]]; [split; reflexivity|].
  rewrite escapeHtml_cons. split.
  - cbn [flat_map]. now rewrite IH1.
  - rewrite forallb_app, escapeUnit_clean. exact IH2.
Qed.

Lemma escapeUnit_prefix_free (x y : codeunit) (a b : jsstring) :
  escapeUnit x ++ a = escapeUnit y ++ b -> x = y /\ a = b.
Proof.
  unfold escapeUnit.
  destruct (N.eqb x 38) eqn:X1; [|destruct (N.eqb x 60) eqn:X2;
    [|destruct (N.eqb x 62) eqn:X3; [|destruct (N.eqb x 34) eqn:X4;
      [|destruct (N.eqb x 39) eqn:X5]]]];
  (destruct (N.eqb y 38) eqn:Y1; [|destruct (N.eqb y 60) eqn:Y2;
    [|destruct (N.eqb y 62) eqn:Y3; [|destruct (N.eqb y 34) eqn:Y4;
      [|destruct (N.eqb y 39) eqn:Y5]]]]);
  repeat match goal with
         | H : N.eqb _ _ = true |- _ => apply N.eqb_eq in H; subst
         end;
  cbn; intros H; try discriminate H;
  injection H; intros; subst; try discriminate; try (split; reflexivity).
Qed.

(** X4: [escapeHtml] loses nothing: two texts have the same escaped form only
    when they are the same text. *)
Theorem escapeHtml_injective (a b : jsstring) :
  escapeHtml a = escapeHtml b <-> a = b.
Proof.
  split; [|now intros ->].
  revert b. induction a as [|x a IH]; intros b.
  - destruct b as [|y b]; [reflexivity|]. rewrite escapeHtml_cons.
    unfold escapeUnit.
    destruct (N.eqb y 38); [discriminate|]. destruct (N.eqb y 60); [discriminate|].
    destruct (N.eqb y 62); [discriminate|]. destruct (N.eqb y 34); [discriminate|].
    destruct (N.eqb y 39); discriminate.
  - destruct b as [|y b].
    + rewrite escapeHtml_cons. unfold escapeUnit.
      destruct (N.eqb x 38); [discriminate|]. destruct (N.eqb x 60); [discriminate|].
      destruct (N.eqb x 62); [discriminate|]. destruct (N.eqb x 34); [discriminate|].
      destruct (N.eqb x 39); discriminate.
    + rewrite !escapeHtml_cons. intros H.
      apply escapeUnit_prefix_free in H as [-> H]. now rewrite (IH b H).
Qed.

Lemma escapeRegExp_length (t : jsstring) : length t <= length (escapeRegExp t).
Proof.
  induction t as [|x t IH]; [reflexivity|]. unfold escapeRegExp in *. cbn [flat_map].
  rewrite length_app. destruct (isRegExpSpecial x); cbn [length]; lia.
Qed.

(** X5: [escapeRegExp] leaves a text alone exactly when the text has none of
    the special marks, and two texts with the same escaped form are the same
    text. *)
Theorem escapeRegExp_faithful :
  (forall t : jsstring,
     escapeRegExp t = t <-> forallb (fun c => negb (isRegExpSpecial c)) t = true)
  /\ (forall a b : jsstring, escapeRegExp a = escapeRegExp b -> a = b).
Proof.
  split.
  - intros t. induction t as [|x t IH]; [split; reflexivity|].
    change (escapeRegExp (x :: t))
      with ((if isRegExpSpecial x then [backslash; x] else [x]) ++ escapeRegExp t).
    cbn [forallb]. destruct (isRegExpSpecial x) eqn:E; cbn [negb andb app].
    + split; [|discriminate]. intros H. injection H as _ H.
      pose proof (escapeRegExp_length t) as Hl.
      apply (f_equal (@length codeunit)) in H. cbn [length] in H. lia.
    + rewrite <- IH. split; [now intros [= ->] | now intros ->].
  - intros a. induction a as [|x a IH]; intros b.
    + destruct b as [|y b]; [reflexivity|].
      change (escapeRegExp (y :: b))
        with ((if isRegExpSpecial y then [backslash; y] else [y]) ++ escapeRegExp b).
      destruct (isRegExpSpecial y); discriminate.
    + destruct b as [|y b].
      * change (escapeRegExp (x :: a))
          with ((if isRegExpSpecial x then [backslash; x] else [x]) ++ escapeRegExp a).
        destruct (isRegExpSpecial x); discriminate.
      * change (escapeRegExp (x :: a))
          with ((if isRegExpSpecial x then [backslash; x] else [x]) ++ escapeRegExp a).
        change (escapeRegExp (y :: b))
          with ((if isRegExpSpecial y then [backslash; y] else [y]) ++ escapeRegExp b).
        destruct (isRegExpSpecial x) eqn:Ex, (isRegExpSpecial y) eqn:Ey;
          cbn [app]; intros H.
        -- injection H as -> H. now rewrite (IH b H).
        -- injection H as <- H. discriminate Ey.
        -- injection H as -> H. discriminate Ex.
        -- injection H as -> H. now rewrite (IH b H).
Qed.

(** X6: [estimateTokens] is the length divided by four, rounded up: it is zero
    for the empty text only, and four times the estimate overshoots the length
    by three units at most. *)
Theorem estimateTokens_bounds (t : jsstring) :
  length t <= 4 * estimateTokens t
  /\ 4 * estimateTokens t <= length t + 3
  /\ (estimateTokens t = 0 <-> t = []).
Proof.
  unfold estimateTokens.
  pose proof (Nat.div_mod_eq (length t + 3) 4) as Hd.
  pose proof (Nat.mod_upper_bound (length t + 3) 4 ltac:(discriminate)) as Hm.
  repeat split; try lia.
  - intros H. destruct t; [reflexivity|]. cbn [length] in *. lia.
  - intros ->. reflexivity.
Qed.

End EscapeProperties.

(** ** navigation.ts *)

Section NavigationMore.

Import Navigation.

Lemma truncationMarker_length : length truncationMarker = 26.
Proof. reflexivity. Qed.

(** X7: the excerpt handed to the model is the sanitized markup itself up to
    25000 units, and beyond that its first 25000 units followed by the
    marker: never more than 25026 units. *)
Theorem truncateHTML_ceiling (cleaned : jsstring) :
  (length cleaned <= N.to_nat maxHTML -> truncateHTML cleaned = cleaned)
  /\ (N.to_nat maxHTML < length cleaned ->
      truncateHTML cleaned = firstn (N.to_nat maxHTML) cleaned ++ truncationMarker
      /\ length (truncateHTML cleaned) = N.to_nat maxHTML + 26)
  /\ length (truncateHTML cleaned) <= N.to_nat maxHTML + 26.
Proof.
  unfold truncateHTML.
  destruct (maxHTML <? N.of_nat (length cleaned))%N eqn:E.
  - apply N.ltb_lt in E.
    assert (Hlt : N.to_nat maxHTML < length cleaned) by lia.
    assert (Hlen : length (firstn (N.to_nat maxHTML) cleaned ++ truncationMarker)
                   = N.to_nat maxHTML + 26).
    { rewrite length_app, length_firstn, truncationMarker_length. lia. }
    repeat split; try lia; try reflexivity; try exact Hlen.
  - apply N.ltb_ge in E.
    assert (Hle : length cleaned <= N.to_nat maxHTML) by lia.
    repeat split; try lia; try reflexivity.
Qed.

(** X8: with caching enabled, an excerpt read from the page is served again by
    the next call made on the URL it was stored under less than 5000 ms
    later, without waiting; an empty excerpt is stored too but never served:
    the next call reads the page again. *)
Theorem fresh_excerpt_is_cached
  (now now' : Z) (pageUrl : jsstring) (read read' : PageRead) (c : Cache) :
  cacheUsable now pageUrl true c = false ->
  (now' - now < 5000)%Z ->
  let first := getOptimizedHTML now pageUrl read true c in
  let second := getOptimizedHTML now' (urlAfter read) read' true (sumCache first) in
  (html first <> [] ->
   second = mkSummary (html first) (sumCache first) [LogUsingCachedHTML])
  /\ (html first = [] -> second = freshSummary now' read' (sumCache first)).
Proof.
  intros Hmiss Hfresh first second.
  assert (Hfirst : first = freshSummary now read c).
  { unfold first, getOptimizedHTML. now rewrite Hmiss. }
  unfold second. rewrite Hfirst. unfold freshSummary. cbn [html sumCache].
  unfold getOptimizedHTML, cacheUsable.
  cbn [currentUrl htmlContent htmlTimestamp llmResponse llmCommand].
  rewrite streq_refl. cbn [negb andb]. unfold CACHE_DURATION.
  rewrite (proj2 (Z.ltb_lt _ _) Hfresh), andb_true_r.
  split; intros H.
  - apply truthy_nonempty in H. cbn [truthyOpt]. now rewrite H.
  - cbn [truthyOpt]. now rewrite H.
Qed.

Lemma fresh_excerpt_is_cached_witness :
  let first := getOptimizedHTML 1000 (js "https://shop.test/")
                 (mkRead (js "<main>Login</main>") (js "https://shop.test/")) true
                 initialCache in
  let second := getOptimizedHTML 3000 (js "https://shop.test/")
                  (mkRead (js "<main>Other</main>") (js "https://shop.test/")) true
                  (sumCache first) in
  (html first <> [] ->
   second = mkSummary (html first) (sumCache first) [LogUsingCachedHTML])
  /\ (html first = [] ->
      second = freshSummary 3000 (mkRead (js "<main>Other</main>") (js "https://shop.test/"))
                 (sumCache first)).
Proof.
  apply (fresh_excerpt_is_cached 1000 3000 (js "https://shop.test/")
           (mkRead (js "<main>Login</main>") (js "https://shop.test/"))
           (mkRead (js "<main>Other</main>") (js "https://shop.test/"))
           initialCache).
  - reflexivity.
  - reflexivity.
Defined.

(** X9: the navigation detector leaves the state on the URL it has just seen
    and counts one navigation for each change: asked again on the same URL it
    reports no change, does nothing to the page and leaves state and cache as
    they are; without caching it never touches the cache. *)
Theorem detection_settles
  (pageUrl : jsstring) (loaded loaded' : bool) (state : NavState)
  (useCache : bool) (c : Cache) :
  let d := detectNavigationChange pageUrl loaded state useCache c in
  currentPageUrl (navState d) = pageUrl
  /\ (changed d = true <-> pageUrl <> currentPageUrl state)
  /\ navigationCount (navState d)
     = navigationCount state + (if changed d then 1 else 0)
  /\ detectNavigationChange pageUrl loaded' (navState d) useCache (navCache d)
     = mkDetection false (navState d) (navCache d) []
  /\ (useCache = false -> navCache d = c).
Proof.
  intros d. unfold d, detectNavigationChange.
  destruct (streq pageUrl (currentPageUrl state)) eqn:E; cbn [negb].
  - pose proof (proj1 (streq_eq _ _) E) as Heq.
    cbn [navState navCache changed currentPageUrl navigationCount].
    rewrite E. cbn [negb]. repeat split; try congruence; try lia.
  - pose proof (proj1 (streq_neq _ _) E) as Hne.
    cbn [navState navCache changed currentPageUrl navigationCount].
    rewrite streq_refl. cbn [negb]. repeat split; try assumption; try lia.
    + intros _. exact Hne.
    + intros Hoff. rewrite Hoff. reflexivity.
Qed.

End NavigationMore.

(** ** llm.ts: the candidate list *)

Section GatewayMore.

Import Llm.

Variable hasKeyFor : LLMProvider -> bool.
Variable invoke : LLMConfig -> InvokeOutcome.
Variable content : jsstring.

Lemma availableLLMs_keyed :
  Forall (fun c => hasKeyFor (provider c) = true) (availableLLMs hasKeyFor).
Proof.
  unfold availableLLMs.
  destruct (hasKeyFor gemini) eqn:G, (hasKeyFor openai) eqn:O,
    (hasKeyFor anthropic) eqn:A; cbn [app];
    repeat (constructor; [assumption|]); constructor.
Qed.

Lemma tryModels_never_skips (models : list LLMConfig) (lastError : option JsError) :
  Forall (fun c => hasKeyFor (provider c) = true) models ->
  forall p, ~ In (Skipping p) (fst (tryModels hasKeyFor invoke content models lastError)).
Proof.
  revert lastError. induction models as [|cfg rest IH]; intros lastError Hall p.
  - intros [].
  - inversion Hall as [|? ? Hk Hrest]; subst. cbn [tryModels]. rewrite Hk. cbn [negb].
    destruct (invoke cfg) as [answer ms|e].
    + cbn. intuition discriminate.
    + specialize (IH (Some e) Hrest p).
      destruct (tryModels hasKeyFor invoke content rest (Some e)) as [log r].
      cbn [fst] in *. intros [H|[H|H]]; try discriminate. now apply IH.
Qed.

Lemma tryModels_calls_bounded (models : list LLMConfig) (lastError : option JsError) :
  length (attempted (fst (tryModels hasKeyFor invoke content models lastError)))
  <= length models.
Proof.
  revert lastError. induction models as [|cfg rest IH]; intros lastError; [cbn; lia|].
  cbn [tryModels]. destruct (hasKeyFor (provider cfg)); cbn [negb].
  - destruct (invoke cfg) as [answer ms|e]; [cbn; lia|].
    specialize (IH (Some e)).
    destruct (tryModels hasKeyFor invoke content rest (Some e)) as [log r].
    unfold attempted in *. cbn [fst flat_map app length] in *. lia.
  - specialize (IH lastError).
    destruct (tryModels hasKeyFor invoke content rest lastError) as [log r].
    unfold attempted in *. cbn [fst flat_map app length] in *. lia.
Qed.

(** X10: the gateway only offers models of providers whose key is set, so on its
    own list the skip of the loop never happens; and one call of the gateway
    calls five models at most. *)
Theorem gateway_offers_keyed_models :
  Forall (fun c => hasKeyFor (provider c) = true) (availableLLMs hasKeyFor)
  /\ (forall p, ~ In (Skipping p) (fst (invokeLLMWithFallback hasKeyFor invoke content)))
  /\ length (attempted (fst (invokeLLMWithFallback hasKeyFor invoke content))) <= 5.
Proof.
  split; [apply availableLLMs_keyed|]. split.
  - apply tryModels_never_skips, availableLLMs_keyed.
  - unfold invokeLLMWithFallback.
    eapply Nat.le_trans; [apply tryModels_calls_bounded|].
    unfold availableLLMs.
    destruct (hasKeyFor gemini), (hasKeyFor openai), (hasKeyFor anthropic);
      cbn [app length]; lia.
Qed.

(** X11: with no provider key in the environment the gateway calls nothing and
    throws at once; as no error was caught, the message ends with the word
    undefined. *)
Theorem gateway_without_keys :
  (forall p, hasKeyFor p = false) ->
  invokeLLMWithFallback hasKeyFor invoke content
  = ([], inr (newError (allFailed ++ js "undefined"))).
Proof.
  intros H. unfold invokeLLMWithFallback, availableLLMs. now rewrite !H.
Qed.

End GatewayMore.

(** An environment with no key. *)
Lemma gateway_without_keys_witness :
  Llm.invokeLLMWithFallback (fun _ => false) Llm.thirdAnswers (js "prompt")
  = ([], inr (newError (Llm.allFailed ++ js "undefined"))).
Proof.
  apply (gateway_without_keys (fun _ => false) Llm.thirdAnswers (js "prompt")).
  reflexivity.
Defined.

(** ** The plan pipeline: what an answer of the model can and cannot do *)

Section PlanMore.

Variable toLowerCase : jsstring -> jsstring.
Variable isUrl : jsstring -> bool.
Variable typedByParser : jsstring -> option jsstring.

Local Abbreviation inject := (injectText toLowerCase typedByParser).
Local Abbreviation fresh := (notTypedByParser toLowerCase typedByParser).
Local Abbreviation plan := (parseAndPlan toLowerCase isUrl typedByParser).
Local Abbreviation planDefault :=
  (planAll (actionNormalizers toLowerCase) actionValidators actionMappers).
Local Abbreviation planOneDef :=
  (planOne (actionNormalizers toLowerCase) actionValidators actionMappers).

Lemma fresh_inject (a : RawLLMAction) : fresh (inject a) = fresh a.
Proof.
  destruct (injectText_keeps toLowerCase typedByParser a) as (Ha & Hs & _).
  unfold notTypedByParser. now rewrite Ha, Hs.
Qed.

Lemma inject_fresh (a : RawLLMAction) : fresh a = true -> inject a = a.
Proof.
  unfold notTypedByParser, injectText, typedHas. intros Hf.
  destruct (isAction (action a) (js "type")) eqn:Et; cbn [andb]; [|reflexivity].
  destruct (blankText (text_ a)); cbn [andb]; [|reflexivity].
  destruct (selector a) as [sel|]; cbn [truthyOpt]; [|reflexivity].
  destruct (truthy sel); [|reflexivity].
  destruct (typedByParser (toLowerCase sel)); [|reflexivity].
  discriminate.
Qed.

Lemma filter_fresh_inject (l : list RawLLMAction) :
  filter fresh (map inject l) = filter fresh l.
Proof.
  induction l as [|a l IH]; [reflexivity|].
  cbn [map filter]. rewrite fresh_inject.
  destruct (fresh a) eqn:E; [|exact IH].
  rewrite (inject_fresh a E). now f_equal.
Qed.

(** X12: the text the pipeline injects from the pre-parser never reaches the
    plan: every action that gets a text injected is removed by the filter that
    follows, so the two steps together do what the filter does alone, and the
    plan of an answer is the plan of its actions that the pre-parser has not
    typed and that carry a text when they type. *)
Theorem injected_text_never_used :
  (forall l, filter fresh (map inject l) = filter fresh l)
  /\ (forall arr,
        plan arr
        = match parseActions isUrl arr with
          | None => Throw InvalidActionsArray
          | Some parsed =>
              final <- planDefault (filter typeHasText (filter fresh parsed)) ;;
              match final with
              | [] => Throw NoActionsParsed
              | _ :: _ => Ok final
              end
          end).
Proof.
  split; [exact filter_fresh_inject|].
  intros arr. unfold parseAndPlan.
  destruct (parseActions isUrl arr) as [parsed|]; [|reflexivity].
  cbn zeta. now rewrite filter_fresh_inject.
Qed.

Lemma parseAll_rejects (items : list json) (v : json) :
  In v items -> parseAction isUrl v = None -> parseAll isUrl items = None.
Proof.
  induction items as [|w items IH]; intros Hin Hv; [destruct Hin|].
  cbn [parseAll]. destruct Hin as [->|Hin].
  - now rewrite Hv.
  - rewrite (IH Hin Hv). now destruct (parseAction isUrl w).
Qed.

Lemma forallb_refuses {A : Type} (f : A -> bool) (l : list A) (x : A) :
  In x l -> f x = false -> forallb f l = false.
Proof.
  induction l as [|y l IH]; intros Hin Hx; [destruct Hin|].
  cbn [forallb]. destruct Hin as [->|Hin].
  - now rewrite Hx.
  - rewrite (IH Hin Hx). apply andb_false_r.
Qed.

(** X13: the answer of the model is taken whole or not at all.  An answer that
    is not an array, or an array with one element the schema refuses, makes
    the round throw the invalid-actions error whatever the other elements
    are; and the schema refuses every object with a property it does not
    know, and every object without an action. *)
Theorem rejected_element_rejects_answer :
  (forall arr, (forall items, arr <> JArray items) -> plan arr = Throw InvalidActionsArray)
  /\ (forall items v, In v items -> parseAction isUrl v = None ->
      plan (JArray items) = Throw InvalidActionsArray)
  /\ (forall fields k, In k (map fst fields) -> includes knownKeys k = false ->
      parseAction isUrl (JObject fields) = None)
  /\ (forall fields, getField (js "action") fields = None ->
      parseAction isUrl (JObject fields) = None).
Proof.
  repeat split.
  - intros arr Hna. unfold parseAndPlan.
    destruct arr; cbn [parseActions]; try reflexivity.
    now destruct (Hna items).
  - intros items v Hin Hv. unfold parseAndPlan. cbn [parseActions].
    now rewrite (parseAll_rejects items v Hin Hv).
  - intros fields k Hin Hk. unfold parseAction, parseActionBase.
    apply in_map_iff in Hin as [[k' val] [Hk' Hin]]. cbn in Hk'. subst k'.
    rewrite (forallb_refuses (fun kv => includes knownKeys (fst kv)) fields (k, val) Hin Hk).
    reflexivity.
  - intros fields Hf. unfold parseAction, parseActionBase.
    destruct (forallb _ fields); [|reflexivity].
    now rewrite Hf.
Qed.

Section AnyRegistry.

Variable normalizers : list ActionNormalizer.
Variable validators : list ActionValidator.
Variable mappers : list ActionMapper.

Local Abbreviation one := (planOne normalizers validators mappers).
Local Abbreviation all := (planAll normalizers validators mappers).

Lemma planAll_throw_inv (l : list RawLLMAction) (e : PipelineError) :
  all l = Throw e ->
  exists l1 r l2, l = l1 ++ r :: l2
    /\ (forall x, In x l1 -> exists m, one x = Ok m)
    /\ one r = Throw e.
Proof.
  induction l as [|r l IH]; cbn [planAll]; [discriminate|].
  unfold bind at 1. destruct (one r) as [m|e'] eqn:E1.
  - unfold bind at 1. destruct (all l) as [final|e''] eqn:E2; [discriminate|].
    intros [= ->]. destruct (IH eq_refl) as (l1 & r' & l2 & -> & Hl1 & Hr').
    exists (r :: l1), r', l2. repeat split; try assumption.
    intros x [<-|Hx]; [now exists m | now apply Hl1].
  - intros [= ->]. exists [], r, l. repeat split; try assumption.
    intros x [].
Qed.

Lemma planAll_throw_first (l1 l2 : list RawLLMAction) (r : RawLLMAction)
  (e : PipelineError) :
  (forall x, In x l1 -> exists m, one x = Ok m) -> one r = Throw e ->
  all (l1 ++ r :: l2) = Throw e.
Proof.
  induction l1 as [|x l1 IH]; intros Hl1 Hr; cbn [app planAll].
  - now rewrite Hr.
  - destruct (Hl1 x (or_introl eq_refl)) as [m Hm]. rewrite Hm. cbn [bind].
    rewrite IH; [reflexivity | | exact Hr].
    intros y Hy. apply Hl1. now right.
Qed.

Lemma planAll_ok_all (l : list RawLLMAction) (final : list PilotQAAIAction) :
  all l = Ok final -> forall r, In r l -> exists m, one r = Ok m.
Proof.
  revert final. induction l as [|x l IH]; intros final; cbn [planAll].
  - intros _ r [].
  - unfold bind at 1. destruct (one x) as [m|e] eqn:E1; [|discriminate].
    unfold bind at 1. destruct (all l) as [rest|e] eqn:E2; [|discriminate].
    intros _ r [<-|Hin]; [now exists m|]. now apply (IH rest).
Qed.

(** X14: planning is all or nothing, over any registry of normalizers,
    validators and mappers: the plan of a list throws exactly the error of
    its first action that throws, whatever stands behind that action, and a
    plan is answered only when every action of the list went through the
    chains without throwing.  No action is executed before the whole list is
    planned. *)
Theorem plan_is_all_or_nothing (l : list RawLLMAction) :
  (forall e, all l = Throw e <->
     exists l1 r l2, l = l1 ++ r :: l2
       /\ (forall x, In x l1 -> exists m, one x = Ok m)
       /\ one r = Throw e)
  /\ (forall final, all l = Ok final -> forall r, In r l -> exists m, one r = Ok m).
Proof.
  split.
  - intros e. split.
    + apply planAll_throw_inv.
    + intros (l1 & r & l2 & -> & Hl1 & Hr). now apply planAll_throw_first.
  - apply planAll_ok_all.
Qed.

Lemma planAll_throws_member (l : list RawLLMAction) (r : RawLLMAction)
  (e : PipelineError) :
  In r l -> one r = Throw e -> exists e', all l = Throw e'.
Proof.
  intros Hin Hr. destruct (all l) as [final|e'] eqn:E; [|now exists e'].
  destruct (planAll_ok_all l final E r Hin) as [m Hm]. congruence.
Qed.

End AnyRegistry.

(** X15: a type action whose text is made of white space only is not
    discarded like one with an empty text: it passes the three filters, the
    third validator throws on it, and the whole answer is lost with it. *)
Theorem blank_type_text_aborts
  (arr : json) (parsed : list RawLLMAction) (a : RawLLMAction) (sel t : jsstring) :
  toLowerCase (js "type") = js "type" ->
  parseActions isUrl arr = Some parsed ->
  In a parsed ->
  action a = Name (js "type") ->
  selector a = Some sel -> sel <> [] ->
  typedByParser (toLowerCase sel) = None ->
  text_ a = Some t -> t <> [] -> trim t = [] ->
  planOneDef a = Throw (TypeMissingText sel)
  /\ exists e, plan arr = Throw e.
Proof.
  intros Hlow Hparse Hin Hact Hsel Hne Hkey Htext Htne Hblank.
  assert (Hst : exists k, selectorType a = Some k).
  { destruct arr; cbn [parseActions] in Hparse; try discriminate.
    destruct (parseAll_In isUrl items parsed a Hparse Hin) as (v & _ & Hv).
    unfold parseAction in Hv. destruct (parseActionBase isUrl v) as [b|]; [|discriminate].
    cbn in Hv. injection Hv as <-. apply coerceSelectorType_set. }
  destruct Hst as [k Hk].
  assert (Hone : planOneDef a = Throw (TypeMissingText sel)).
  { unfold planOne, actionNormalizers, runNormalizers, bind, normalizeAlias.
    rewrite Hact, Hlow. cbn [removeSpaces]. 
    replace (if truthy (removeSpaces (js "type"))
             then lookupAlias (removeSpaces (js "type")) else None)
      with (@None ActionValue) by (vm_compute; reflexivity).
    unfold normalizeSelectorType. rewrite Hk.
    unfold actionValidators, runValidators, bind, validateSelector.
    rewrite Hact, Hsel. cbn [isNoSelector truthyOpt].
    replace (includes noSelector (js "type")) with false by (vm_compute; reflexivity).
    rewrite (proj2 (truthy_nonempty sel) Hne). cbn [negb andb].
    unfold validateWaitDuration. rewrite Hact.
    replace (isAction (Name (js "type")) (js "wait")) with false
      by (vm_compute; reflexivity).
    cbn [andb]. unfold validateTypeText. rewrite Hact, Htext, Hsel.
    replace (isAction (Name (js "type")) (js "type")) with true
      by (vm_compute; reflexivity).
    unfold blankText. rewrite Hblank, (proj2 (truthy_nonempty t) Htne).
    cbn [negb orb andb truthy]. now rewrite (proj2 (truthy_nonempty sel) Hne). }
  split; [exact Hone|].
  unfold parseAndPlan. rewrite Hparse. cbn zeta.
  rewrite filter_fresh_inject.
  assert (Hfresh : fresh a = true).
  { unfold notTypedByParser, typedHas. rewrite Hsel, Hkey.
    now rewrite andb_false_r, andb_false_r. }
  assert (Hkept : typeHasText a = true).
  { unfold typeHasText. rewrite Htext. cbn [truthyOpt].
    rewrite (proj2 (truthy_nonempty t) Htne). apply orb_true_r. }
  assert (Hmem : In a (filter typeHasText (filter fresh parsed))).
  { apply filter_In. split; [|exact Hkept]. apply filter_In. now split. }
  destruct (planAll_throws_member _ _ _ _ a _ Hmem Hone) as [e He].
  exists e. now rewrite He.
Qed.

End PlanMore.

(** The answer [{action: type, selector: Email, text: (one space)}]. *)
Lemma blank_type_text_aborts_witness :
  let a := mkRaw (Name (js "type")) (Some (js "Email")) (Some text)
             None None (Some (js " ")) None None None None in
  planOne (actionNormalizers asciiLower) actionValidators actionMappers a
  = Throw (TypeMissingText (js "Email"))
  /\ exists e,
       parseAndPlan asciiLower webUrl nothingTyped
         (JArray [JObject [(js "action", JString (js "type"));
                           (js "selector", JString (js "Email"));
                           (js "text", JString (js " "))]])
       = Throw e.
Proof.
  refine (blank_type_text_aborts asciiLower webUrl nothingTyped
            (JArray [JObject [(js "action", JString (js "type"));
                              (js "selector", JString (js "Email"));
                              (js "text", JString (js " "))]])
            [mkRaw (Name (js "type")) (Some (js "Email")) (Some text)
                   None None (Some (js " ")) None None None None]
            _ (js "Email") (js " ") _ _ _ _ _ _ _ _ _ _).
  - reflexivity.
  - vm_compute. reflexivity.
  - left. reflexivity.
  - reflexivity.
  - reflexivity.
  - discriminate.
  - reflexivity.
  - reflexivity.
  - discriminate.
  - vm_compute. reflexivity.
Defined.

(** ** The main loop: how a run can end *)

Section EngineMore.

Import Engine.

Variable maxRetries : nat.
Variable tryBody : nat -> jsstring -> RoundOutcome.
Variable pause : nat -> option JsError.

Local Abbreviation step := (iteration maxRetries tryBody pause).
Local Abbreviation loop := (mainLoop maxRetries tryBody pause).

Lemma iteration_break (k : nat) (st st1 : LoopState) :
  step k st = Break st1 -> remainingCommand st1 = [].
Proof.
  unfold iteration.
  destruct (truthy (stripVague (remainingCommand st))) eqn:E1; cbn [negb].
  - destruct (tryBody k (stripVague (remainingCommand st))) as [rem|e rem|rem].
    + destruct (truthy (stripVague rem)) eqn:E2; cbn [negb]; [discriminate|].
      intros [= <-]. cbn. now apply falsy_is_empty.
    + unfold onError. destruct (maxRetries <=? _); [discriminate|].
      destruct (pause k); discriminate.
    + discriminate.
  - intros [= <-]. cbn. now apply falsy_is_empty.
Qed.

Lemma iteration_continue (k : nat) (st st1 : LoopState) (effects : list Effect) :
  step k st = Continue st1 effects ->
  retryCount st < maxRetries ->
  retryCount st1 < maxRetries
  /\ ((effects = [] /\ retryCount st1 = 0)
      \/ (effects = [WaitForTimeout 900] /\ retryCount st1 = S (retryCount st))).
Proof.
  unfold iteration. intros H Hlt.
  destruct (truthy (stripVague (remainingCommand st))); cbn [negb] in H; [|discriminate].
  destruct (tryBody k (stripVague (remainingCommand st))) as [rem|e rem|rem].
  - destruct (truthy (stripVague rem)); cbn [negb] in H; [|discriminate].
    injection H as <- <-. cbn. split; [lia | now left].
  - unfold onError in H. cbn [retryCount remainingCommand] in H.
    destruct (maxRetries <=? S (retryCount st)) eqn:E; [discriminate|].
    apply Nat.leb_gt in E. destruct (pause k); [discriminate|].
    injection H as <- <-. cbn. split; [lia | now right].
  - discriminate.
Qed.

Lemma iteration_raise (k : nat) (st : LoopState) (err : JsError)
  (effects : list Effect) :
  step k st = Raise err effects ->
  exists cmd e rem,
    tryBody k cmd = Threw e rem
    /\ ((err = failedAfter maxRetries e /\ effects = []
         /\ maxRetries <= S (retryCount st))
        \/ (pause k = Some err /\ effects = [WaitForTimeout 900]
            /\ S (retryCount st) < maxRetries)).
Proof.
  unfold iteration.
  destruct (truthy (stripVague (remainingCommand st))); cbn [negb]; [|discriminate].
  destruct (tryBody k (stripVague (remainingCommand st))) as [rem|e rem|rem] eqn:Eb.
  - destruct (truthy (stripVague rem)); discriminate.
  - unfold onError. cbn [retryCount remainingCommand].
    destruct (maxRetries <=? S (retryCount st)) eqn:E.
    + apply Nat.leb_le in E. intros [= <- <-].
      exists (stripVague (remainingCommand st)), e, rem. split; [exact Eb|].
      left. now repeat split.
    + apply Nat.leb_gt in E. destruct (pause k) as [w|] eqn:Ep; [|discriminate].
      intros [= <- <-].
      exists (stripVague (remainingCommand st)), e, rem. split; [exact Eb|].
      right. now repeat split.
  - discriminate.
Qed.

Lemma iteration_type_error (k : nat) (st : LoopState) :
  step k st = RaiseTypeError ->
  exists cmd rem, tryBody k cmd = ThrewNullish rem.
Proof.
  unfold iteration.
  destruct (truthy (stripVague (remainingCommand st))); cbn [negb]; [|discriminate].
  destruct (tryBody k (stripVague (remainingCommand st))) as [rem|e rem|rem] eqn:Eb.
  - destruct (truthy (stripVague rem)); discriminate.
  - unfold onError. destruct (maxRetries <=? _); [discriminate|].
    destruct (pause k); discriminate.
  - intros _. now exists (stripVague (remainingCommand st)), rem.
Qed.

Lemma mainLoop_finished (fuel k : nat) (st : LoopState) (done : list Effect)
  (st' : LoopState) (effects : list Effect) :
  loop fuel k st done = Finished st' effects ->
  retryCount st < maxRetries ->
  remainingCommand st' = [].
Proof.
  revert k st done. induction fuel as [|fuel IH]; intros k st done; cbn [mainLoop];
    [discriminate|].
  destruct (loopGuard maxRetries st) eqn:G.
  - destruct (step k st) as [st1 effs|st1|e effs|] eqn:I; intros H Hlt.
    + destruct (iteration_continue k st st1 effs I Hlt) as [Hlt1 _].
      exact (IH _ _ _ H Hlt1).
    + injection H as <- <-. exact (iteration_break k st st1 I).
    + discriminate.
    + discriminate.
  - intros [= <- <-] Hlt. unfold loopGuard in G.
    apply andb_false_iff in G as [G|G]; [now apply falsy_is_empty|].
    apply Nat.ltb_ge in G. lia.
Qed.

Lemma mainLoop_raised (fuel k : nat) (st : LoopState) (done : list Effect) :
  retryCount st <= length done ->
  Forall (eq (WaitForTimeout 900)) done ->
  (forall err effects,
     loop fuel k st done = Raised err effects ->
     Forall (eq (WaitForTimeout 900)) effects
     /\ 0 < maxRetries
     /\ exists k' cmd e rem,
          tryBody k' cmd = Threw e rem
          /\ ((err = failedAfter maxRetries e /\ maxRetries <= S (length effects))
              \/ (pause k' = Some err /\ effects <> [])))
  /\ (forall effects,
        loop fuel k st done = RaisedTypeError effects ->
        Forall (eq (WaitForTimeout 900)) effects
        /\ exists k' cmd rem, tryBody k' cmd = ThrewNullish rem).
Proof.
  revert k st done. induction fuel as [|fuel IH]; intros k st done Hrc Hall;
    cbn [mainLoop]; [split; intros; discriminate|].
  destruct (loopGuard maxRetries st) eqn:G; [|split; intros; discriminate].
  assert (Hlt : retryCount st < maxRetries).
  { unfold loopGuard in G. apply andb_true_iff in G as [_ G]. now apply Nat.ltb_lt in G. }
  destruct (step k st) as [st1 effs|st1|e effs|] eqn:I.
  - destruct (iteration_continue k st st1 effs I Hlt) as [_ [[-> H0]|[-> HS]]].
    + apply IH; rewrite app_nil_r; [lia | exact Hall].
    + apply IH.
      * rewrite length_app. cbn [length]. lia.
      * apply Forall_app. split; [exact Hall|]. now constructor.
  - split; intros; discriminate.
  - split; [|intros; discriminate]. intros err effects [= <- <-].
    destruct (iteration_raise k st e effs I)
      as (cmd & e0 & rem & Hb & [(He & -> & Hmax)|(Hp & -> & Hs)]).
    + rewrite app_nil_r. repeat split; try assumption; try lia.
      exists k, cmd, e0, rem. split; [exact Hb|]. left. split; [exact He | lia].
    + repeat split; try lia.
      * apply Forall_app. split; [exact Hall|]. now constructor.
      * exists k, cmd, e0, rem. split; [exact Hb|]. right. split; [exact Hp|].
        now destruct done.
  - split; [intros; discriminate|]. intros effects [= <-].
    split; [exact Hall|].
    destruct (iteration_type_error k st I) as (cmd & rem & Hb).
    now exists k, cmd, rem.
Qed.

(** X16: a run that returns normally has consumed the whole command: the
    remaining command is empty, after a vague-phrase strip or from the start.
    The one exception is a run asked for no attempt at all (maxRetries 0): it
    returns at once with the command untouched and nothing done. *)
Theorem normal_exit_means_consumed
  (fuel : nat) (command : jsstring) (st : LoopState) (effects : list Effect) :
  run maxRetries tryBody pause fuel command = Finished st effects ->
  (0 < maxRetries -> remainingCommand st = [])
  /\ (maxRetries = 0 -> st = mkLoop command 0 None /\ effects = []).
Proof.
  unfold run. intros H. split.
  - intros Hpos. now apply (mainLoop_finished fuel 0 (mkLoop command 0 None) [] st effects H).
  - intros H0. destruct fuel as [|fuel]; [discriminate|].
    cbn [mainLoop] in H. unfold loopGuard in H. cbn [retryCount] in H.
    rewrite H0 in H. cbn [Nat.ltb Nat.leb] in H. rewrite andb_false_r in H.
    injection H as <- <-. now split.
Qed.

(** X17: every way an error leaves the loop.  A run throws an error out of
    its loop only from the handler of a round that has thrown: the Failed
    after N attempts error built from what that round threw, after at least
    maxRetries - 1 pauses; or the error of the 900 ms pause of that handler,
    when the pause itself fails; or, when the round threw null or undefined,
    the TypeError of reading its message.  Until then the loop itself has
    done nothing on the page but pause 900 ms after failed rounds. *)
Theorem raise_only_after_failed_rounds (fuel : nat) (command : jsstring) :
  (forall err effects,
     run maxRetries tryBody pause fuel command = Raised err effects ->
     Forall (eq (WaitForTimeout 900)) effects
     /\ 0 < maxRetries
     /\ exists k cmd e rem,
          tryBody k cmd = Threw e rem
          /\ ((err = mkError (Some (js "Failed after " ++ numberToString maxRetries
                                    ++ js " attempts: "
                                    ++ match message e with
                                       | Some m => m
                                       | None => js "undefined"
                                       end))
               /\ maxRetries <= S (length effects))
              \/ (pause k = Some err /\ effects <> [])))
  /\ (forall effects,
        run maxRetries tryBody pause fuel command = RaisedTypeError effects ->
        Forall (eq (WaitForTimeout 900)) effects
        /\ exists k cmd rem, tryBody k cmd = ThrewNullish rem).
Proof.
  unfold run. apply mainLoop_raised; [cbn; lia | constructor].
Qed.

End EngineMore.

(** A round that consumes the whole command. *)
Lemma normal_exit_means_consumed_witness :
  (0 < 3 -> Engine.remainingCommand (Engine.mkLoop [] 0 None) = [])
  /\ (3 = 0 ->
      Engine.mkLoop [] 0 None = Engine.mkLoop (js "click Login") 0 None
      /\ @nil Engine.Effect = []).
Proof.
  apply (normal_exit_means_consumed 3 (fun _ _ => Engine.Completed [])
           Engine.pauseResolves 2 (js "click Login")).
  vm_compute. reflexivity.
Defined.

(** Three rounds that fail on an answer that is not JSON; a page closed
    during the first pause; a round that throws undefined. *)
Lemma raise_only_after_failed_rounds_witness :
  (Forall (eq (Engine.WaitForTimeout 900))
          [Engine.WaitForTimeout 900; Engine.WaitForTimeout 900]
   /\ 0 < 3
   /\ exists k cmd e rem,
        Engine.alwaysInvalidJson k cmd = Engine.Threw e rem
        /\ ((Engine.failedAfter 3 Engine.invalidJson = Engine.failedAfter 3 e
             /\ 3 <= S (length [Engine.WaitForTimeout 900; Engine.WaitForTimeout 900]))
            \/ (Engine.pauseResolves k = Some (Engine.failedAfter 3 Engine.invalidJson)
                /\ [Engine.WaitForTimeout 900; Engine.WaitForTimeout 900] <> [])))
  /\ (Forall (eq (Engine.WaitForTimeout 900)) [Engine.WaitForTimeout 900]
      /\ 0 < 3
      /\ exists k cmd e rem,
           Engine.alwaysInvalidJson k cmd = Engine.Threw e rem
           /\ ((Engine.pageClosed = Engine.failedAfter 3 e
                /\ 3 <= S (length [Engine.WaitForTimeout 900]))
               \/ (Engine.pauseRejects k = Some Engine.pageClosed
                   /\ [Engine.WaitForTimeout 900] <> [])))
  /\ (Forall (eq (Engine.WaitForTimeout 900)) []
      /\ exists k cmd rem,
           (fun (_ : nat) (c : jsstring) => Engine.ThrewNullish c) k cmd
           = Engine.ThrewNullish rem).
Proof.
  split; [|split].
  - apply (proj1 (raise_only_after_failed_rounds 3 Engine.alwaysInvalidJson
                    Engine.pauseResolves 3 (js "click Login"))).
    vm_compute. reflexivity.
  - apply (proj1 (raise_only_after_failed_rounds 3 Engine.alwaysInvalidJson
                    Engine.pauseRejects 3 (js "click Login"))).
    vm_compute. reflexivity.
  - apply (proj2 (raise_only_after_failed_rounds 3
                    (fun _ c => Engine.ThrewNullish c)
                    Engine.pauseResolves 3 (js "click Login"))).
    vm_compute. reflexivity.
Defined.

(** ** resolveLocator: what a resolved locator is *)

Section ResolverMore.

Import Resolver.

Variable frameCount : nat.
Variable count : Locator -> option nat.
Variable textLocator : Scope -> PilotQAAIAction -> jsstring -> option (option Locator).

Local Abbreviation resolve := (resolveLocator frameCount count textLocator).
Local Abbreviation attempt := (tryIn count textLocator).

Lemma tryIn_some (a : PilotQAAIAction) (p : Scope) (l : Locator) :
  attempt a p = Some l <->
  exists loc n, makeIn textLocator a p = Some (Some loc)
                /\ count loc = Some n /\ 0 < n /\ l = First loc.
Proof.
  unfold tryIn. split.
  - destruct (makeIn textLocator a p) as [[loc|]|]; try discriminate.
    destruct (count loc) as [n|] eqn:Ec; [|discriminate].
    destruct (0 <? n) eqn:En; [|discriminate].
    intros [= <-]. exists loc, n. apply Nat.ltb_lt in En. now repeat split.
  - intros (loc & n & -> & -> & Hn & ->). apply Nat.ltb_lt in Hn. now rewrite Hn.
Qed.

Lemma scanFrames_some (a : PilotQAAIAction) (fs : list nat) (l : Locator) :
  scanFrames count textLocator a fs = Some l <->
  exists b f af, fs = b ++ f :: af
    /\ (forall q, In q b -> attempt a (Frame q) = None)
    /\ attempt a (Frame f) = Some l.
Proof.
  induction fs as [|f fs IH]; cbn [scanFrames].
  - split; [discriminate|]. intros (b & f & af & H & _). now destruct b.
  - destruct (attempt a (Frame f)) as [l'|] eqn:E.
    + split.
      * intros [= ->]. exists [], f, fs. repeat split; [|exact E]. intros q [].
      * intros (b & f' & af & H & Hb & Hf). destruct b as [|q b].
        -- cbn in H. injection H as -> ->. congruence.
        -- cbn in H. injection H as -> ->.
           rewrite (Hb q (or_introl eq_refl)) in E. discriminate.
    + rewrite IH. split.
      * intros (b & f' & af & -> & Hb & Hf). exists (f :: b), f', af.
        repeat split; [|exact Hf]. intros q [<-|Hq]; [exact E | now apply Hb].
      * intros (b & f' & af & H & Hb & Hf). destruct b as [|q b].
        -- cbn in H. injection H as -> ->. congruence.
        -- cbn in H. injection H as -> ->. exists b, f', af.
           repeat split; [|exact Hf]. intros q' Hq'. apply Hb. now right.
Qed.

(** X18: whatever the selector kind, a locator answered by resolveLocator is
    the first match of a locator that was counted and matches at least one
    element, built in the first scope (the page, then each frame in order)
    where building and counting succeed with a match; in every scope before
    it the attempt came to nothing.  Nothing else is ever answered. *)
Theorem resolved_locator_matches (a : PilotQAAIAction) (l : Locator) :
  resolve a = Some l <->
  selectorType (raw a) <> Some none
  /\ exists before p after loc n,
       scopes frameCount = before ++ p :: after
       /\ (forall q, In q before -> attempt a q = None)
       /\ makeIn textLocator a p = Some (Some loc)
       /\ count loc = Some n /\ 0 < n /\ l = First loc.
Proof.
  assert (Hbody : selectorType (raw a) <> Some none ->
            resolve a = match attempt a MainPage with
                        | Some l' => Some l'
                        | None => scanFrames count textLocator a (List.seq 0 frameCount)
                        end).
  { intros Hn. unfold resolveLocator.
    destruct (selectorType (raw a)) as [[]|]; try reflexivity. now destruct Hn. }
  split.
  - intros H.
    assert (Hn : selectorType (raw a) <> Some none).
    { intros Hn. unfold resolveLocator in H. rewrite Hn in H. discriminate. }
    split; [exact Hn|]. rewrite (Hbody Hn) in H.
    destruct (attempt a MainPage) as [l'|] eqn:E.
    + injection H as ->. apply tryIn_some in E as (loc & n & Hm & Hc & Hpos & ->).
      exists [], MainPage, (map Frame (List.seq 0 frameCount)), loc, n.
      repeat split; try assumption. intros q [].
    + apply scanFrames_some in H as (b & f & af & Hfs & Hb & Hf).
      apply tryIn_some in Hf as (loc & n & Hm & Hc & Hpos & ->).
      exists (MainPage :: map Frame b), (Frame f), (map Frame af), loc, n.
      repeat split; try assumption.
      * unfold scopes. rewrite Hfs, map_app. reflexivity.
      * intros q [<-|Hq]; [exact E|].
        apply in_map_iff in Hq as (q' & <- & Hq'). now apply Hb.
  - intros (Hn & before & p & after & loc & n & Hsc & Hbefore & Hm & Hc & Hpos & ->).
    rewrite (Hbody Hn).
    assert (Hp : attempt a p = Some (First loc)).
    { apply tryIn_some. now exists loc, n. }
    unfold scopes in Hsc. destruct before as [|q before].
    + cbn in Hsc. injection Hsc as <- _. now rewrite Hp.
    + cbn in Hsc. injection Hsc as <- Hrest.
      rewrite (Hbefore MainPage (or_introl eq_refl)).
      apply map_eq_app in Hrest as (b & rest & Hfs & Hb & Hrest).
      apply map_eq_cons in Hrest as (f & af & -> & <- & <-).
      apply scanFrames_some. exists b, f, af. repeat split; try assumption.
      intros q Hq. apply Hbefore. right. rewrite <- Hb. now apply in_map.
Qed.

End ResolverMore.

(** ** withRetries *)

Section RetryProperties.

Import Retry.

Variables T E : Type.
Variable fn : nat -> T + E.

Lemma attemptsFrom_success (base : Z) (k : nat) :
  forall (todo i : nat) (last : option E) (v : T),
    k < todo ->
    (forall j, j < k -> exists e, fn (i + j) = inr e) ->
    fn (i + k) = inl v ->
    attemptsFrom T E fn todo i base last
    = (map (fun j => (base * (Z.of_nat j + 1))%Z) (List.seq i k), inl v).
Proof.
  induction k as [|k IH]; intros todo i last v Hlt Hfail Hok;
    (destruct todo as [|todo]; [lia|]); cbn [attemptsFrom].
  - rewrite Nat.add_0_r in Hok. now rewrite Hok.
  - destruct (Hfail 0) as [e He]; [lia|]. rewrite Nat.add_0_r in He. rewrite He.
    rewrite (IH todo (S i) (Some e) v).
    + reflexivity.
    + lia.
    + intros j Hj. destruct (Hfail (S j)) as [e' He']; [lia|].
      exists e'. now rewrite Nat.add_succ_r in He'.
    + now rewrite Nat.add_succ_r in Hok.
Qed.

Lemma attemptsFrom_exhausted (base : Z) (n : nat) :
  forall (i : nat) (last : option E),
    (forall j, j <= n -> exists e, fn (i + j) = inr e) ->
    exists e, fn (i + n) = inr e
      /\ attemptsFrom T E fn (S n) i base last
         = (map (fun j => (base * (Z.of_nat j + 1))%Z) (List.seq i (S n)),
            inr (Some e)).
Proof.
  induction n as [|n IH]; intros i last Hfail.
  - destruct (Hfail 0) as [e He]; [lia|]. exists e. split; [exact He|].
    rewrite Nat.add_0_r in He. cbn [attemptsFrom]. now rewrite He.
  - destruct (Hfail 0) as [e0 He0]; [lia|]. rewrite Nat.add_0_r in He0.
    destruct (IH (S i) (Some e0)) as [e [He Hrun]].
    { intros j Hj. destruct (Hfail (S j)) as [e' He']; [lia|].
      exists e'. now rewrite Nat.add_succ_r in He'. }
    exists e. split; [now rewrite Nat.add_succ_r|].
    change (attemptsFrom T E fn (S (S n)) i base last)
      with (match fn i with
            | inl v => ([], inl v)
            | inr e1 =>
                let (delays, r) := attemptsFrom T E fn (S n) (S i) base (Some e1) in
                ((base * (Z.of_nat i + 1))%Z :: delays, r)
            end).
    rewrite He0, Hrun. reflexivity.
Qed.

Lemma schedule_total (base : Z) (k : nat) :
  (2 * total (schedule base k) = base * Z.of_nat k * (Z.of_nat k + 1))%Z.
Proof.
  unfold schedule, total. induction k as [|k IH]; [cbn; lia|].
  rewrite seq_S, map_app, fold_right_app. cbn [map fold_right Nat.add].
  assert (Hshift : forall (l : list Z) (a : Z),
             fold_right Z.add a l = (fold_right Z.add 0 l + a)%Z).
  { induction l as [|x l IHl]; intros a; cbn [fold_right]; [lia|].
    rewrite (IHl a). lia. }
  rewrite Hshift. lia.
Qed.

(** X19: when call number k of the function (counted from 0, k at most
    attempts) is the first that answers, withRetries answers its value after
    k waits of baseDelayMs, 2 baseDelayMs, ..., k baseDelayMs, whose sum is
    baseDelayMs k (k + 1) / 2; a first call that answers costs no wait. *)
Theorem withRetries_first_success (attempts : nat) (base : Z) (k : nat) (v : T) :
  k <= attempts ->
  (forall j, j < k -> exists e, fn j = inr e) ->
  fn k = inl v ->
  withRetries T E fn attempts base = (schedule base k, inl v)
  /\ (2 * total (schedule base k) = base * Z.of_nat k * (Z.of_nat k + 1))%Z.
Proof.
  intros Hk Hfail Hok. split; [|apply schedule_total].
  unfold withRetries, schedule.
  apply attemptsFrom_success; [lia | exact Hfail | exact Hok].
Qed.

(** X20: when every one of the attempts + 1 calls throws, withRetries throws
    what the last call threw, and it has waited after every failed call, the
    last one included: attempts + 1 waits, the last of them
    (attempts + 1) baseDelayMs long, before the caller sees the error. *)
Theorem withRetries_exhausted (attempts : nat) (base : Z) :
  (forall j, j <= attempts -> exists e, fn j = inr e) ->
  exists e,
    fn attempts = inr e
    /\ withRetries T E fn attempts base = (schedule base (S attempts), inr (Some e))
    /\ last (schedule base (S attempts)) 0%Z = (base * (Z.of_nat attempts + 1))%Z
    /\ (2 * total (schedule base (S attempts))
        = base * (Z.of_nat attempts + 1) * (Z.of_nat attempts + 2))%Z.
Proof.
  intros Hfail.
  destruct (attemptsFrom_exhausted base attempts 0 None Hfail) as [e [He Hrun]].
  exists e. repeat split.
  - exact He.
  - exact Hrun.
  - unfold schedule. rewrite seq_S, map_app. cbn [map Nat.add]. apply last_last.
  - rewrite schedule_total. lia.
Qed.

End RetryProperties.

(** A fill that times out twice and then goes through, retried twice with
    the default delay. *)
Lemma withRetries_first_success_witness :
  Retry.withRetries unit jsstring Retry.thirdCallAnswers 2 500
  = (Retry.schedule 500 2, inl tt)
  /\ (2 * Retry.total (Retry.schedule 500 2) = 500 * Z.of_nat 2 * (Z.of_nat 2 + 1))%Z.
Proof.
  apply (withRetries_first_success unit jsstring Retry.thirdCallAnswers 2 500 2 tt).
  - lia.
  - intros j Hj. exists (js "Timeout 5000ms exceeded").
    destruct j as [|[|j]]; [reflexivity | reflexivity | lia].
  - reflexivity.
Defined.

(** A click that never goes through, retried twice with the default delay:
    the caller gets the error after 500 + 1000 + 1500 ms of waiting. *)
Lemma withRetries_exhausted_witness :
  exists e,
    Retry.neverAnswers 2 = inr e
    /\ Retry.withRetries unit jsstring Retry.neverAnswers 2 500
       = (Retry.schedule 500 3, inr (Some e))
    /\ last (Retry.schedule 500 3) 0%Z = (500 * (Z.of_nat 2 + 1))%Z
    /\ (2 * Retry.total (Retry.schedule 500 3)
        = 500 * (Z.of_nat 2 + 1) * (Z.of_nat 2 + 2))%Z.
Proof.
  apply (withRetries_exhausted unit jsstring Retry.neverAnswers 2 500).
  intros j Hj. exists (js "Timeout 5000ms exceeded"). reflexivity.
Defined.

(** ** consumeProcessed *)

Section ConsumeProperties.

Import Text Consume.

Variable removeVisibilityMention : jsstring -> jsstring -> jsstring.

Local Abbreviation consume := (consumeProcessed removeVisibilityMention).

Lemma stripPrefixCI_suffix (p s rest : jsstring) :
  stripPrefixCI p s = Some rest ->
  exists pre, s = pre ++ rest /\ length pre = length p.
Proof.
  revert s. induction p as [|x p IH]; intros s; cbn [stripPrefixCI].
  - intros [= ->]. now exists [].
  - destruct s as [|y s]; [discriminate|].
    destruct (N.eqb (canonicalize x) (canonicalize y)); [|discriminate].
    intros H. destruct (IH s H) as [pre [-> Hl]].
    exists (y :: pre). split; [reflexivity | cbn; now rewrite Hl].
Qed.

Lemma wordAhead_suffix (w s rest : jsstring) :
  wordAhead w s = Some rest ->
  exists pre, s = pre ++ rest /\ length pre = length w.
Proof.
  unfold wordAhead. destruct (stripPrefixCI w s) as [r|] eqn:E; [|discriminate].
  intros H. assert (r = rest) as <-.
  { destruct r as [|c r']; [congruence|]. destruct (isWordChar c); congruence. }
  now apply stripPrefixCI_suffix.
Qed.

Lemma delimiterAt_suffix (b : bool) (s rest : jsstring) :
  delimiterAt b s = Some rest ->
  exists pre, s = pre ++ rest /\ pre <> [].
Proof.
  unfold delimiterAt. destruct s as [|c t]; [discriminate|].
  destruct (existsb (N.eqb c) [59; 10; 46; 44]%N).
  - intros [= <-]. exists [c]. split; [reflexivity | discriminate].
  - destruct b; [discriminate|].
    destruct (wordAhead (js "then") (c :: t)) as [r|] eqn:E1.
    + intros [= <-]. destruct (wordAhead_suffix _ _ _ E1) as [pre [Hs Hl]].
      exists pre. split; [exact Hs|]. intros ->. discriminate.
    + intros E2. destruct (wordAhead_suffix _ _ _ E2) as [pre [Hs Hl]].
      exists pre. split; [exact Hs|]. intros ->. discriminate.
Qed.

Lemma afterDelimiter_suffix (s : jsstring) :
  forall (b : bool) (rest : jsstring),
    afterDelimiter b s = Some rest ->
    exists pre, s = pre ++ rest /\ pre <> [].
Proof.
  induction s as [|c t IH]; intros b rest.
  - cbn. destruct b; discriminate.
  - change (afterDelimiter b (c :: t))
      with (match delimiterAt b (c :: t) with
            | Some r => Some r
            | None => afterDelimiter (isWordChar c) t
            end).
    destruct (delimiterAt b (c :: t)) as [r|] eqn:E.
    + intros [= <-]. now apply (delimiterAt_suffix b).
    + intros H. destruct (IH _ _ H) as [pre [-> _]].
      exists (c :: pre). split; [reflexivity | discriminate].
Qed.

Lemma trimStart_suffix (s : jsstring) :
  exists pre, s = pre ++ trimStart s.
Proof.
  induction s as [|c t [pre IH]]; [now exists []|]. cbn [trimStart].
  destruct (isSpace c); [|now exists []].
  exists (c :: pre). cbn. now rewrite <- IH.
Qed.

Lemma dropLeading_suffix (f : codeunit -> bool) (s : jsstring) :
  exists pre, s = pre ++ dropLeading f s.
Proof.
  induction s as [|c t [pre IH]]; [now exists []|]. cbn [dropLeading].
  destruct (f c); [|now exists []].
  exists (c :: pre). cbn. now rewrite <- IH.
Qed.

Lemma dropLeading_head (f : codeunit -> bool) (s : jsstring) :
  match dropLeading f s with c :: _ => f c = false | [] => True end.
Proof.
  induction s as [|c t IH]; [exact I|]. cbn [dropLeading].
  destruct (f c) eqn:E; [exact IH | exact E].
Qed.

Lemma squeeze_cons (q c : codeunit) (t : jsstring) :
  squeeze q (c :: t)
  = match t with
    | d :: _ => if N.eqb c q && N.eqb d q then squeeze q t else c :: squeeze q t
    | [] => [c]
    end.
Proof. reflexivity. Qed.

Lemma squeeze_length (q : codeunit) (s : jsstring) :
  length (squeeze q s) <= length s.
Proof.
  induction s as [|c t IH]; [cbn; lia|]. rewrite squeeze_cons.
  destruct t as [|d t']; [cbn; lia|].
  destruct (N.eqb c q && N.eqb d q); cbn [length] in *; lia.
Qed.

Lemma trimEnd_split (s : jsstring) :
  exists post, s = trimEnd s ++ post /\ forallb isSpace post = true.
Proof.
  induction s as [|c t [post [IH Hsp]]]; [now exists []|]. cbn [trimEnd].
  destruct (trimEnd t) as [|d t'] eqn:E.
  - cbn [app] in IH. subst post. destruct (isSpace c) eqn:Ec.
    + exists (c :: t). split; [reflexivity|]. cbn [forallb]. now rewrite Ec.
    + exists t. now split.
  - exists post. split; [|exact Hsp]. cbn [app]. now rewrite IH at 1.
Qed.

Lemma consumeClause_length (command : jsstring) :
  command <> [] -> length (consumeClause command) < length command.
Proof.
  intros Hne. unfold consumeClause.
  destruct (afterDelimiter false command) as [after|] eqn:E.
  - destruct (afterDelimiter_suffix command false after E) as [pre [-> Hpre]].
    set (a1 := trimStart after).
    set (a2 := squeeze 39%N (squeeze 34%N a1)).
    set (a3 := dropLeading isStray a2).
    destruct (trimStart_suffix after) as [p1 H1]. fold a1 in H1.
    destruct (dropLeading_suffix isStray a2) as [p3 H3]. fold a3 in H3.
    destruct (trimStart_suffix a3) as [p4 H4].
    destruct (trimEnd_prefix (trimStart a3)) as [p5 H5]. fold (trim a3) in H5.
    pose proof (f_equal (@length codeunit) H1) as L1. rewrite length_app in L1.
    assert (L2 : length a2 <= length a1).
    { unfold a2. eapply Nat.le_trans; apply squeeze_length. }
    pose proof (f_equal (@length codeunit) H3) as L3. rewrite length_app in L3.
    pose proof (f_equal (@length codeunit) H4) as L4. rewrite length_app in L4.
    pose proof (f_equal (@length codeunit) H5) as L5. rewrite length_app in L5.
    rewrite length_app. destruct pre as [|x pre]; [now destruct Hpre|].
    cbn [length]. lia.
  - destruct command; [now destruct Hne | cbn; lia].
Qed.

(** X21: outside the special case of a textual visibility assertion (or when
    that case removes nothing), every action consumes a part of a command
    that is not empty: what remains is strictly shorter, so a round that
    executes one action at least cannot leave the command as it found it. *)
Theorem consumeProcessed_shrinks (command : jsstring) (a : PilotQAAIAction) :
  command <> [] ->
  mentionsText a = false
  \/ removeVisibilityMention command (selectorText (selector (raw a))) = command ->
  length (consume command a) < length command.
Proof.
  intros Hne Hcase. unfold consumeProcessed.
  rewrite (proj2 (truthy_nonempty command) Hne). cbn [negb].
  assert (Hsame : (if mentionsText a
                   then removeVisibilityMention command (selectorText (selector (raw a)))
                   else command) = command).
  { destruct Hcase as [-> | H]; [reflexivity|]. now destruct (mentionsText a). }
  rewrite Hsame, streq_refl. cbn [negb]. now apply consumeClause_length.
Qed.

Lemma noQuoteRun_suffix (pre s : jsstring) :
  noQuoteRun (pre ++ s) = true -> noQuoteRun s = true.
Proof.
  induction pre as [|c pre IH]; [trivial|]. intros H. apply IH.
  cbn [app] in H. destruct (pre ++ s) as [|d t]; [reflexivity|].
  rewrite noQuoteRun_cons in H. now apply andb_true_iff in H as [_ H].
Qed.

Lemma squeeze_fixed (q : codeunit) (s : jsstring) :
  isQuote q = true -> noQuoteRun s = true -> squeeze q s = s.
Proof.
  intros Hq. induction s as [|c t IH]; [reflexivity|]. rewrite squeeze_cons.
  destruct t as [|d t']; [reflexivity|]. rewrite noQuoteRun_cons.
  intros H. apply andb_true_iff in H as [Hcd Ht].
  destruct (N.eqb c q && N.eqb d q) eqn:E.
  - apply andb_true_iff in E as [Ec Ed].
    apply N.eqb_eq in Ec, Ed. subst c d. now rewrite Hq in Hcd.
  - now rewrite (IH Ht).
Qed.

Lemma isSpace_isStray (c : codeunit) : isSpace c = true -> isStray c = true.
Proof. unfold isStray. now intros ->. Qed.

Lemma afterDelimiter_unfold (b : bool) (s : jsstring) :
  afterDelimiter b s
  = match delimiterAt b s with
    | Some r => Some r
    | None =>
        match s with
        | [] => None
        | c :: t => afterDelimiter (isWordChar c) t
        end
    end.
Proof. destruct s; reflexivity. Qed.

Lemma stripPrefixCI_complete (w m rest : jsstring) :
  canon m = canon w -> stripPrefixCI w (m ++ rest) = Some rest.
Proof.
  revert m. induction w as [|x w IH]; intros m; unfold canon; cbn [map].
  - destruct m; [reflexivity | discriminate].
  - destruct m as [|y m]; cbn [map]; [discriminate|]. intros [= Hy Hm].
    cbn [app stripPrefixCI]. rewrite Hy, N.eqb_refl. now apply IH.
Qed.

Lemma wordAhead_sound (w s r : jsstring) :
  wordAhead w s = Some r ->
  exists d, s = d ++ r /\ canon d = canon w /\ beginsWithWord r = false.
Proof.
  unfold wordAhead. destruct (stripPrefixCI w s) as [r0|] eqn:E; [|discriminate].
  destruct (stripPrefixCI_canon w s r0 E) as [d [-> Hd]].
  destruct r0 as [|c r0].
  - intros [= <-]. now exists d.
  - destruct (isWordChar c) eqn:Ec; [discriminate|]. intros [= <-]. now exists d.
Qed.

Lemma wordAhead_complete (w d r : jsstring) :
  canon d = canon w -> beginsWithWord r = false -> wordAhead w (d ++ r) = Some r.
Proof.
  intros Hd Hr. unfold wordAhead. rewrite (stripPrefixCI_complete w d r Hd).
  destruct r as [|c r]; [reflexivity|]. cbn [beginsWithWord] in Hr. now rewrite Hr.
Qed.

Lemma mark_canonical (c : codeunit) :
  existsb (N.eqb c) [59; 10; 46; 44]%N = true ->
  canonicalize c <> 84%N /\ canonicalize c <> 65%N.
Proof.
  cbn [existsb]. rewrite !orb_true_iff, !N.eqb_eq.
  intros [->|[->|[->|[->|H]]]]; [| | | |discriminate]; split; discriminate.
Qed.

Lemma delimiterAt_sound (before s r : jsstring) :
  delimiterAt (endsInWord before) s = Some r ->
  exists d, s = d ++ r /\ delimiterBetween before d r.
Proof.
  unfold delimiterAt. destruct s as [|c t]; [discriminate|].
  destruct (existsb (N.eqb c) [59; 10; 46; 44]%N) eqn:Em.
  - intros [= <-]. exists [c]. split; [reflexivity|]. left. exists c.
    split; [reflexivity|].
    apply existsb_exists in Em as [x [Hx Hc]]. apply N.eqb_eq in Hc. now subst.
  - destruct (endsInWord before) eqn:Eb; [discriminate|].
    destruct (wordAhead (js "then") (c :: t)) as [r1|] eqn:E1.
    + intros [= <-]. destruct (wordAhead_sound _ _ _ E1) as (d & Hs & Hd & Hr).
      exists d. split; [exact Hs|]. right. now repeat split; [left|..].
    + intros E2. destruct (wordAhead_sound _ _ _ E2) as (d & Hs & Hd & Hr).
      exists d. split; [exact Hs|]. right. now repeat split; [right|..].
Qed.

Lemma delimiterAt_complete (before d rest : jsstring) :
  delimiterBetween before d rest ->
  delimiterAt (endsInWord before) (d ++ rest) = Some rest.
Proof.
  intros [[c [-> Hc]]|[Hw [Hb Hr]]].
  - cbn [app delimiterAt].
    assert (Hm : existsb (N.eqb c) [59; 10; 46; 44]%N = true).
    { apply existsb_exists. exists c. split; [exact Hc | apply N.eqb_refl]. }
    now rewrite Hm.
  - rewrite Hb.
    assert (Hhead : exists y d', d = y :: d'
              /\ (canonicalize y = 84%N \/ canonicalize y = 65%N)).
    { destruct Hw as [Hw|Hw]; destruct d as [|y d']; try discriminate Hw;
        exists y, d'; (split; [reflexivity|]);
        unfold canon in Hw; cbn [map] in Hw; injection Hw as Hy _;
        [left | right]; exact Hy. }
    destruct Hhead as (y & d' & -> & Hy).
    cbn [app delimiterAt].
    destruct (existsb (N.eqb y) [59; 10; 46; 44]%N) eqn:Em.
    { destruct (mark_canonical y Em) as [H1 H2]. destruct Hy; contradiction. }
    change (y :: d' ++ rest) with ((y :: d') ++ rest).
    destruct Hw as [Hw|Hw].
    + now rewrite (wordAhead_complete _ _ _ Hw Hr).
    + assert (Hno : wordAhead (js "then") ((y :: d') ++ rest) = None).
      { unfold wordAhead. change (js "then") with [116; 104; 101; 110]%N.
        cbn [app stripPrefixCI].
        unfold canon in Hw. cbn [map] in Hw. injection Hw as Hy' _.
        rewrite Hy'. reflexivity. }
      rewrite Hno. now apply wordAhead_complete.
Qed.

Lemma endsInWord_snoc (before : jsstring) (c : codeunit) :
  endsInWord (before ++ [c]) = isWordChar c.
Proof. unfold endsInWord. now rewrite rev_unit. Qed.

Lemma afterDelimiter_first (d rest : jsstring) (clause : jsstring) :
  forall before : jsstring,
    delimiterBetween (before ++ clause) d rest ->
    (forall p d' r',
       p ++ d' ++ r' = clause ++ d ++ rest -> length p < length clause ->
       ~ delimiterBetween (before ++ p) d' r') ->
    afterDelimiter (endsInWord before) (clause ++ d ++ rest) = Some rest.
Proof.
  induction clause as [|c cl IH]; intros before Hd Hfirst.
  - rewrite app_nil_r in Hd. cbn [app]. rewrite afterDelimiter_unfold.
    now rewrite (delimiterAt_complete before d rest Hd).
  - cbn [app]. rewrite afterDelimiter_unfold.
    destruct (delimiterAt (endsInWord before) (c :: cl ++ d ++ rest)) as [r|] eqn:E.
    + exfalso. destruct (delimiterAt_sound _ _ _ E) as (d' & Hs & Hd').
      apply (Hfirst [] d' r); [cbn [app]; now rewrite <- Hs | cbn; lia|].
      now rewrite app_nil_r.
    + rewrite <- (endsInWord_snoc before c). apply IH.
      * now rewrite <- app_assoc.
      * intros p d' r' Hs Hl. rewrite <- app_assoc. cbn [app].
        apply (Hfirst (c :: p) d' r'); [cbn [app]; now rewrite Hs | cbn; lia].
Qed.

Lemma firstDelimiter_found (clause d rest : jsstring) :
  firstDelimiter clause d rest ->
  afterDelimiter false (clause ++ d ++ rest) = Some rest.
Proof.
  intros [Hd Hfirst]. apply (afterDelimiter_first d rest clause []); assumption.
Qed.

(** A scan that finds nothing inside the clause shows that a delimiter
    standing behind the clause is the first one. *)
Lemma firstDelimiter_by_scan (clause d rest : jsstring) :
  delimiterBetween clause d rest ->
  scanFindsNothing clause (d ++ rest) = true ->
  firstDelimiter clause d rest.
Proof.
  intros Hd Hscan. split; [exact Hd|]. intros p d' r' Hs Hl Hd'.
  unfold scanFindsNothing in Hscan. rewrite forallb_forall in Hscan.
  specialize (Hscan (length p)). rewrite in_seq in Hscan.
  assert (Hp : firstn (length p) clause = p).
  { apply (f_equal (firstn (length p))) in Hs.
    rewrite !firstn_app, firstn_all, Nat.sub_diag in Hs. cbn [firstn] in Hs.
    replace (length p - length clause) with 0 in Hs by lia. cbn [firstn] in Hs.
    now rewrite !app_nil_r in Hs. }
  assert (Hq : skipn (length p) clause ++ d ++ rest = d' ++ r').
  { apply (f_equal (skipn (length p))) in Hs.
    rewrite !skipn_app, skipn_all, Nat.sub_diag in Hs. cbn [skipn app] in Hs.
    replace (length p - length clause) with 0 in Hs by lia. now cbn [skipn] in Hs. }
  rewrite Hp, Hq, (delimiterAt_complete p d' r' Hd') in Hscan.
  assert (false = true) by (apply Hscan; lia). discriminate.
Qed.

Lemma trimStart_split (s : jsstring) :
  exists pre, s = pre ++ trimStart s /\ forallb isStray pre = true.
Proof.
  induction s as [|c t [pre [IH Hpre]]]; [now exists []|]. cbn [trimStart].
  destruct (isSpace c) eqn:E; [|now exists []].
  exists (c :: pre). split; [cbn; now rewrite <- IH|].
  cbn [forallb]. now rewrite (isSpace_isStray c E).
Qed.

Lemma dropLeading_split (f : codeunit -> bool) (s : jsstring) :
  exists pre, s = pre ++ dropLeading f s /\ forallb f pre = true.
Proof.
  induction s as [|c t [pre [IH Hpre]]]; [now exists []|]. cbn [dropLeading].
  destruct (f c) eqn:E; [|now exists []].
  exists (c :: pre). split; [cbn; now rewrite <- IH|].
  cbn [forallb]. now rewrite E.
Qed.

(** X22: the fallback cuts the command behind its first delimiter and keeps
    the rest as it stands.  When [d] is the first match of the delimiter
    expression in the command (one of the marks ; . , or a line feed, or the
    word then or and between word boundaries) and no two quote marks stand
    side by side behind it, what remains is the text behind [d] without the
    white space, quote marks and marks . , ; : it begins with and without the
    white space it ends with, and nothing else is removed. *)
Theorem consumeClause_keeps_rest (clause d rest : jsstring) :
  firstDelimiter clause d rest ->
  noQuoteRun rest = true ->
  exists lead post,
    rest = lead ++ consumeClause (clause ++ d ++ rest) ++ post
    /\ forallb isStray lead = true
    /\ forallb isSpace post = true
    /\ match consumeClause (clause ++ d ++ rest) with
       | c :: _ => isStray c = false
       | [] => True
       end
    /\ lastSpace (consumeClause (clause ++ d ++ rest)) = false.
Proof.
  intros Hfirst Hq. unfold consumeClause.
  rewrite (firstDelimiter_found clause d rest Hfirst).
  destruct (trimStart_split rest) as [p1 [H1 Hp1]].
  assert (Hq1 : noQuoteRun (trimStart rest) = true).
  { apply (noQuoteRun_suffix p1). now rewrite <- H1. }
  rewrite (squeeze_fixed 34%N _ eq_refl Hq1), (squeeze_fixed 39%N _ eq_refl Hq1).
  set (a3 := dropLeading isStray (trimStart rest)).
  destruct (dropLeading_split isStray (trimStart rest)) as [p3 [H3 Hp3]]. fold a3 in H3.
  pose proof (dropLeading_head isStray (trimStart rest)) as Hhead. fold a3 in Hhead.
  assert (Hsp : headSpace a3 = false).
  { destruct a3 as [|c t]; [reflexivity|]. cbn [headSpace].
    destruct (isSpace c) eqn:Ec; [|reflexivity].
    apply isSpace_isStray in Ec. congruence. }
  assert (Htrim : trim a3 = trimEnd a3).
  { unfold trim. now rewrite (trimStart_fixed a3 Hsp). }
  rewrite Htrim. destruct (trimEnd_split a3) as [post [H5 Hpost]].
  exists (p1 ++ p3), post. repeat split.
  - rewrite H1 at 1. rewrite H3 at 1. rewrite H5 at 1. now rewrite !app_assoc.
  - rewrite forallb_app. now rewrite Hp1, Hp3.
  - exact Hpost.
  - destruct (trimEnd a3) as [|c t] eqn:Et; [exact I|].
    rewrite H5 in Hhead. exact Hhead.
  - apply trimEnd_last.
Qed.

End ConsumeProperties.

(** A click consumes the first clause of a two-clause command. *)
Lemma consumeProcessed_shrinks_witness :
  length (Consume.consumeProcessed Consume.keepsCommand
            (js "click Login, then check the cart") Consume.clickLogin)
  < length (js "click Login, then check the cart").
Proof.
  apply (consumeProcessed_shrinks Consume.keepsCommand
           (js "click Login, then check the cart") Consume.clickLogin).
  - discriminate.
  - left. reflexivity.
Defined.

(** Of the command [click A, click B, click C] the fallback keeps
    [click B, click C]. *)
Lemma consumeClause_keeps_rest_witness :
  exists lead post,
    js " click B, click C"
    = lead ++ Consume.consumeClause (js "click A" ++ js "," ++ js " click B, click C")
      ++ post
    /\ forallb Text.isStray lead = true
    /\ forallb isSpace post = true
    /\ match Consume.consumeClause (js "click A" ++ js "," ++ js " click B, click C") with
       | c :: _ => Text.isStray c = false
       | [] => True
       end
    /\ Text.lastSpace
         (Consume.consumeClause (js "click A" ++ js "," ++ js " click B, click C"))
       = false.
Proof.
  apply (consumeClause_keeps_rest (js "click A") (js ",") (js " click B, click C")).
  - apply firstDelimiter_by_scan.
    + left. exists 44%N. split; [reflexivity | cbn; tauto].
    + vm_compute. reflexivity.
  - vm_compute. reflexivity.
Defined.

(** ** Demo mode *)

Section DemoProperties.

Import Demo.

Variable today : jsstring.

Lemma demoRuns_from (n : nat) :
  forall (u : nat) (store : Store),
    readTokenlessCountToday today store = Z.of_nat u -> u <= 5 ->
    fst (demoRuns today true n store)
    = map (fun i => DemoRun (Z.of_nat i + 1)) (List.seq u (Nat.min n (5 - u)))
      ++ repeat LimitReached (n - (5 - u)).
Proof.
  induction n as [|n IH]; intros u store Hread Hu; [reflexivity|].
  cbn [demoRuns]. unfold enter, incrementTokenlessCountToday. rewrite Hread.
  unfold dailyLimit. destruct (Z.of_nat u <? 5)%Z eqn:E.
  - apply Z.ltb_lt in E.
    specialize (IH (S u) (Stored today (Z.of_nat u + 1))).
    destruct (demoRuns today true n (Stored today (Z.of_nat u + 1))) as [es s2].
    cbn [fst] in *. rewrite IH.
    + replace (5 - u) with (S (5 - S u)) by lia.
      cbn [Nat.min List.seq map app Nat.sub]. reflexivity.
    + cbn [readTokenlessCountToday]. rewrite streq_refl. lia.
    + lia.
  - apply Z.ltb_ge in E. assert (u = 5) by lia. subst u.
    specialize (IH 5 store Hread Hu).
    destruct (demoRuns today true n store) as [es s2].
    cbn [fst] in *. rewrite IH.
    replace (5 - 5) with 0 by lia. rewrite Nat.min_0_r, !Nat.sub_0_r.
    reflexivity.
Qed.

(** X23: on a day for which the store holds no count (no store, a store that
    cannot be used, or the count of another day), runs without a token are
    let in exactly five times, numbered 1 to 5, when the store can be
    written; every later run of that day throws the daily-limit error. *)
Theorem demo_allowance (store : Store) (n : nat) :
  readTokenlessCountToday today store = 0%Z ->
  fst (demoRuns today true n store)
  = map (fun i => DemoRun (Z.of_nat i + 1)) (List.seq 0 (Nat.min n 5))
    ++ repeat LimitReached (n - 5).
Proof.
  intros H. apply (demoRuns_from n 0 store); [exact H | lia].
Qed.

(** X24: when the store cannot be written the allowance is never used up: as
    long as the count read is below five, every run without a token is let
    in under the same number and the store stays as it is. *)
Theorem demo_store_not_writable (store : Store) (n : nat) :
  (readTokenlessCountToday today store < 5)%Z ->
  demoRuns today false n store
  = (repeat (DemoRun (readTokenlessCountToday today store + 1)) n, store).
Proof.
  intros H. induction n as [|n IH]; [reflexivity|].
  cbn [demoRuns]. unfold enter, incrementTokenlessCountToday, dailyLimit.
  rewrite (proj2 (Z.ltb_lt _ _) H), IH. reflexivity.
Qed.

End DemoProperties.

(** Seven runs on the day after a day whose allowance was used up. *)
Lemma demo_allowance_witness :
  fst (Demo.demoRuns (js "2026-11-03") true 7 (Demo.Stored (js "2026-11-02") 5))
  = map (fun i => Demo.DemoRun (Z.of_nat i + 1)) (List.seq 0 (Nat.min 7 5))
    ++ repeat Demo.LimitReached (7 - 5).
Proof.
  apply (demo_allowance (js "2026-11-03") (Demo.Stored (js "2026-11-02") 5) 7).
  reflexivity.
Defined.

Lemma demo_store_not_writable_witness :
  Demo.demoRuns (js "2026-11-03") false 7 (Demo.Stored (js "2026-11-03") 4)
  = (repeat (Demo.DemoRun
               (Demo.readTokenlessCountToday (js "2026-11-03")
                  (Demo.Stored (js "2026-11-03") 4) + 1)) 7,
     Demo.Stored (js "2026-11-03") 4).
Proof.
  apply (demo_store_not_writable (js "2026-11-03") (Demo.Stored (js "2026-11-03") 4) 7).
  reflexivity.
Defined.

(** ** The main loop: termination under progress *)

Section EngineTermination.

Import Text Engine.

Variable maxRetries : nat.
Variable tryBody : nat -> jsstring -> RoundOutcome.
Variable pause : nat -> option JsError.

Lemma beginsWith_length (p s : jsstring) : beginsWith p s -> length p <= length s.
Proof. intros [rest ->]. rewrite length_app. lia. Qed.

Lemma trimStart_length (s : jsstring) : length (trimStart s) <= length s.
Proof.
  induction s as [|c t IH]; [cbn; lia|]. cbn [trimStart].
  destruct (isSpace c); cbn [length]; lia.
Qed.

Lemma trim_length (s : jsstring) : length (trim s) <= length s.
Proof.
  unfold trim. eapply Nat.le_trans; [|apply trimStart_length].
  apply beginsWith_length, trimEnd_prefix.
Qed.

Lemma stripPatterns_length (ps : list rx) (o : jsstring) :
  length (stripPatterns ps o) <= length o.
Proof.
  revert o. induction ps as [|r ps IH]; intros o; [cbn; lia|].
  cbn [stripPatterns fold_left]. eapply Nat.le_trans; [apply IH|].
  eapply Nat.le_trans; [apply trim_length|].
  apply beginsWith_length, cutAtMatch_prefix.
Qed.

Lemma collapseFrom_length (b : bool) (s : jsstring) :
  length (collapseFrom b s) <= length s.
Proof.
  revert b. induction s as [|c t IH]; intros b; [cbn; lia|].
  rewrite collapseFrom_cons. destruct (isQuote c).
  - destruct b.
    + specialize (IH true). cbn [length]. lia.
    + destruct t as [|d t']; [cbn; lia|].
      destruct (isQuote d).
      * specialize (IH true). cbn [length] in *. lia.
      * specialize (IH false). cbn [length] in *. lia.
  - specialize (IH false). cbn [length]. lia.
Qed.

Lemma stripVague_length (s : jsstring) : length (stripVague s) <= length s.
Proof.
  unfold stripVague. destruct (truthy s); cbn [negb]; [|cbn; lia].
  unfold dropStray, collapseQuotes.
  set (p := stripPatterns VAGUE_ENDING_PATTERNS (trim s)).
  assert (Hp : length p <= length s).
  { unfold p. eapply Nat.le_trans; [apply stripPatterns_length | apply trim_length]. }
  pose proof (collapseFrom_length false p) as Hc.
  destruct (truthy (collapseFrom false p) && forallb isStray (collapseFrom false p));
    [cbn; lia | lia].
Qed.

Lemma mainLoop_progress :
  (forall k cmd, cmd <> [] ->
     exists rem, tryBody k cmd = Completed rem /\ length rem < length cmd) ->
  forall (fuel k : nat) (st : LoopState) (done : list Effect),
    length (remainingCommand st) < fuel ->
    exists st', mainLoop maxRetries tryBody pause fuel k st done = Finished st' done
                /\ (retryCount st < maxRetries -> remainingCommand st' = []).
Proof.
  intros Hprog. induction fuel as [|fuel IH]; intros k st done Hlen; [lia|].
  cbn [mainLoop]. destruct (loopGuard maxRetries st) eqn:G.
  - assert (Hlt : retryCount st < maxRetries).
    { unfold loopGuard in G. apply andb_true_iff in G as [_ G]. now apply Nat.ltb_lt in G. }
    unfold iteration.
    pose proof (stripVague_length (remainingCommand st)) as L1.
    destruct (truthy (stripVague (remainingCommand st))) eqn:E1; cbn [negb].
    + apply truthy_nonempty in E1.
      destruct (Hprog k _ E1) as [rem [Hb Hrem]]. rewrite Hb.
      pose proof (stripVague_length rem) as L2.
      destruct (truthy (stripVague rem)) eqn:E2; cbn [negb].
      * rewrite app_nil_r.
        destruct (IH (S k) (mkLoop (stripVague rem) 0 None) done) as [st' [Hrun Hst']].
        { cbn [remainingCommand]. lia. }
        exists st'. split; [exact Hrun|].
        intros _. apply Hst'. cbn [retryCount]. lia.
      * eexists. split; [reflexivity|]. intros _. cbn. now apply falsy_is_empty.
    + eexists. split; [reflexivity|]. intros _. cbn. now apply falsy_is_empty.
  - exists st. split; [reflexivity|]. intros Hlt. unfold loopGuard in G.
    apply andb_false_iff in G as [G|G]; [now apply falsy_is_empty|].
    apply Nat.ltb_ge in G. lia.
Qed.

(** X25: the loop ends when every round makes progress.  If each round runs
    through and leaves a remaining command strictly shorter than the one it
    was given, a run with at least one attempt allowed returns normally
    within as many rounds as the command has code units, with the command
    consumed, no retry pending and no pause made. *)
Theorem run_finishes_under_progress (command : jsstring) :
  0 < maxRetries ->
  (forall k cmd, cmd <> [] ->
     exists rem, tryBody k cmd = Completed rem /\ length rem < length cmd) ->
  exists st,
    run maxRetries tryBody pause (S (length command)) command = Finished st []
    /\ remainingCommand st = [].
Proof.
  intros Hpos Hprog. unfold run.
  destruct (mainLoop_progress Hprog (S (length command)) 0 (mkLoop command 0 None) [])
    as [st [Hrun Hst]].
  - cbn [remainingCommand]. lia.
  - exists st. split; [exact Hrun|]. apply Hst. cbn [retryCount]. exact Hpos.
Qed.

End EngineTermination.

(** Rounds that consume the whole command at once. *)
Lemma run_finishes_under_progress_witness :
  exists st,
    Engine.run 3 (fun _ _ => Engine.Completed []) Engine.pauseResolves
      (S (length (js "click Login"))) (js "click Login")
    = Engine.Finished st []
    /\ Engine.remainingCommand st = [].
Proof.
  apply (run_finishes_under_progress 3 (fun _ _ => Engine.Completed [])
           Engine.pauseResolves (js "click Login")).
  - lia.
  - intros k cmd Hne. exists []. split; [reflexivity|].
    destruct cmd; [now destruct Hne | cbn; lia].
Defined.
